(** * Inbreeding-coefficient calculator: a shallow embedding and its properties

    The repository ships several variants of one JavaScript module:

    - [V130]: src/breedingCalculator.js, version 1.3.0 (memoised engine,
      independent-path filter, first-wins parent attachment);
    - [V110]: src/unnamed/part_001, version 1.1.0 (memoised engine, full
      accumulation, first-wins parent attachment);
    - [V006]: src/breedingCalculator6.js, version 0.0.6 (no memoisation,
      full accumulation, overwrite attachment, one planner per pair).  The
      second half of src/breedingCalculator.js (version 3.0.1) has the same
      engine and planner as 0.0.6; its entry point only omits the
      [Array.isArray] test.

    Modelling conventions.
    - An [Animal] object is referred to by its identifier: a planner creates
      at most one object per trimmed identifier, so object identity (used by
      the JavaScript [Set]s) and identifier equality coincide.  A nullable
      reference is an [option string].
    - JavaScript [Set]s that are iterated are lists without duplicates in
      insertion order; [Set]s and [Map]s that are only queried are [gset]s
      and [gmap]s.
    - An identifier field of a record is [undefined], [null] or a string; a
      string is held as its UTF-8 bytes, and [trim] removes the white space
      of Unicode that [String.prototype.trim] removes.
    - Coefficients are exact rationals ([Qc]): [Math.pow(0.5, e)] is the
      double it is, underflow included, while the rounding of the sums and
      products of doubles is not modelled.
    - [while] loops run on fuel and yield [None] when it runs out; the fuel
      is proved sufficient for both graph walks, for the engine of version
      0.0.6 on every pedigree, and for the memoised engines on acyclic
      pedigrees. *)

From Stdlib Require Import ZArith QArith Qcanon Qround Qpower String Ascii List Lia.
From stdpp Require Import base option gmap sets list strings relations.

Set Warnings "-clear-no-such-hyp".

Local Open Scope string_scope.
Local Open Scope list_scope.
Local Open Scope nat_scope.

(** ** JavaScript strings and values *)

Module Js.

(** A string is held as the bytes of its UTF-8 encoding.

    [String.prototype.trim] removes from both ends the code points of
    WhiteSpace and LineTerminator: U+0009 to U+000D, U+0020, U+00A0,
    U+1680, U+2000 to U+200A, U+2028, U+2029, U+202F, U+205F, U+3000 and
    U+FEFF.  The first six take one byte, U+00A0 two, the others three. *)
Definition isWhiteSpace (c : ascii) : bool :=
  let n := nat_of_ascii c in
  Nat.eqb n 32 || (Nat.leb 9 n && Nat.leb n 13).

Definition isWhiteSpace2 (c1 c2 : ascii) : bool :=
  (N_of_ascii c1 =? 194)%N && (N_of_ascii c2 =? 160)%N.

Definition isWhiteSpace3 (c1 c2 c3 : ascii) : bool :=
  let b1 := N_of_ascii c1 in
  let b2 := N_of_ascii c2 in
  let b3 := N_of_ascii c3 in
  ((b1 =? 225) && (b2 =? 154) && (b3 =? 128)                       (* U+1680 *)
   || (b1 =? 226) && (b2 =? 128)
      && ((128 <=? b3) && (b3 <=? 138)                             (* U+2000 to U+200A *)
          || (b3 =? 168) || (b3 =? 169) || (b3 =? 175))            (* U+2028, U+2029, U+202F *)
   || (b1 =? 226) && (b2 =? 129) && (b3 =? 159)                    (* U+205F *)
   || (b1 =? 227) && (b2 =? 128) && (b3 =? 128)                    (* U+3000 *)
   || (b1 =? 239) && (b2 =? 187) && (b3 =? 191))%N.                (* U+FEFF *)

(** [dropWhiteSpace back s]: [s] without its leading white space; with
    [back] the bytes of [s] are those of a string read from its end, so
    that a character of several bytes shows its last byte first. *)
Fixpoint dropWhiteSpace (back : bool) (s : string) : string :=
  match s with
  | String c1 s1 =>
      if isWhiteSpace c1 then dropWhiteSpace back s1
      else
        match s1 with
        | String c2 s2 =>
            if (if back then isWhiteSpace2 c2 c1 else isWhiteSpace2 c1 c2)
            then dropWhiteSpace back s2
            else
              match s2 with
              | String c3 s3 =>
                  if (if back then isWhiteSpace3 c3 c2 c1 else isWhiteSpace3 c1 c2 c3)
                  then dropWhiteSpace back s3
                  else s
              | EmptyString => s
              end
        | EmptyString => s
        end
  | EmptyString => EmptyString
  end.

Definition trimStart (s : string) : string := dropWhiteSpace false s.

Definition trim (s : string) : string :=
  String.rev (dropWhiteSpace true (String.rev (trimStart s))).

(** [String.prototype.toLowerCase] on the letters [A] to [Z].  The code
    compares the result with ['undefined'] and ['null'] only, and outside
    this range no character has a lower case made of letters of these two
    words. *)
Definition lowerChar (c : ascii) : ascii :=
  let n := nat_of_ascii c in
  if Nat.leb 65 n && Nat.leb n 90 then ascii_of_nat (n + 32) else c.

Fixpoint toLowerCase (s : string) : string :=
  match s with
  | String c s' => String (lowerChar c) (toLowerCase s')
  | EmptyString => EmptyString
  end.

(** The values an identifier field of a record can hold. *)
Inductive Val :=
| Undefined
| Null
| Str (s : string).

Global Instance Val_eq_dec : EqDecision Val.
Proof. solve_decision. Defined.

(** [String(v)], also the property key of a computed member [[v]]. *)
Definition toString (v : Val) : string :=
  match v with
  | Undefined => "undefined"
  | Null => "null"
  | Str s => s
  end.

Definition truthy (v : Val) : bool :=
  match v with
  | Str s => negb (String.eqb s "")
  | _ => false
  end.

(** [a || b] *)
Definition or (a b : Val) : Val := if truthy a then a else b.

(** Outcome of a statement sequence: normal completion or a thrown
    [Error]; the payload of [Throw] is the identifier the [Animal]
    constructor rejected.  [OutOfFuel] is the model's own: a loop used up
    its fuel. *)
Inductive Completion (A : Type) :=
| Normal (a : A)
| Throw (id : string)
| OutOfFuel.
Global Arguments Normal {A} a.
Global Arguments Throw {A} id.
Global Arguments OutOfFuel {A}.

Definition bind {A B} (m : Completion A) (k : A → Completion B) : Completion B :=
  match m with
  | Normal a => k a
  | Throw e => Throw e
  | OutOfFuel => OutOfFuel
  end.

(** A loop or recursion that ran on fuel, seen as a statement. *)
Definition ofFuel {A} (m : option A) : Completion A :=
  match m with
  | Some a => Normal a
  | None => OutOfFuel
  end.

(** *** Own-property enumeration order of [for ... in]

    Array-index keys come first in ascending numeric order, the other
    string keys follow in insertion order. *)
Definition digitValue (c : ascii) : option N :=
  let n := N_of_ascii c in
  if (48 <=? n)%N && (n <=? 57)%N then Some (n - 48)%N else None.

Fixpoint parseDigits (acc : N) (s : string) : option N :=
  match s with
  | EmptyString => Some acc
  | String c s' =>
      match digitValue c with
      | Some d => parseDigits (acc * 10 + d)%N s'
      | None => None
      end
  end.

(** The canonical numeric strings below [2^32 - 1]. *)
Definition arrayIndex (s : string) : option N :=
  match s with
  | EmptyString => None
  | String "0" EmptyString => Some 0%N
  | String "0" _ => None
  | _ =>
      match parseDigits 0 s with
      | Some n => if (n <? 4294967295)%N then Some n else None
      | None => None
      end
  end.

(** An object literal as the list of its properties in insertion order;
    writing an existing key keeps its position. *)
Fixpoint setProperty {V} (k : string) (v : V) (o : list (string * V)) : list (string * V) :=
  match o with
  | [] => [(k, v)]
  | (k', v') :: o' => if String.eqb k k' then (k, v) :: o' else (k', v') :: setProperty k v o'
  end.

Fixpoint insertIndex {V} (n : N) (kv : string * V) (l : list (N * (string * V))) :=
  match l with
  | [] => [(n, kv)]
  | (m, kv') :: l' => if (n <? m)%N then (n, kv) :: l else (m, kv') :: insertIndex n kv l'
  end.

Definition ownProperties {V} (o : list (string * V)) : list (string * V) :=
  let indexed := foldr (λ kv acc, match arrayIndex kv.1 with
                                  | Some n => insertIndex n kv acc
                                  | None => acc
                                  end) [] o in
  (snd <$> indexed) ++ filter (λ kv, arrayIndex kv.1 = None) o.

End Js.

Notation "x ←! m ; k" := (Js.bind m (λ x, k))
  (at level 20, m at level 100, k at level 200, only parsing, right associativity).
Notation "' x ←! m ; k" := (Js.bind m (λ x, k))
  (at level 20, x pattern, m at level 100, k at level 200, only parsing,
   right associativity).

(** ** The pedigree graph *)

(** An [Animal] object; its [id] is the key it is stored under in
    [BreedingPlanner.animalMap]. *)
Record Animal := mkAnimal {
  parent1 : option string;  (* mother *)
  parent2 : option string   (* father *)
}.

Abbreviation Pedigree := (gmap string Animal).

Definition getParent1 (g : Pedigree) (a : string) : option string := g !! a ≫= parent1.
Definition getParent2 (g : Pedigree) (a : string) : option string := g !! a ≫= parent2.

(** [Animal.equals]: both objects are Animals, so it compares the ids. *)
Definition equals (a b : string) : bool := bool_decide (a = b).

(** [Set.prototype.add] on an insertion-ordered set of animals. *)
Definition setAdd (x : string) (s : list string) : list string :=
  if decide (x ∈ s) then s else s ++ [x].

(** Every identifier the graph mentions. *)
Definition parentSet (a : Animal) : gset string :=
  from_option singleton ∅ (parent1 a) ∪ from_option singleton ∅ (parent2 a).

Definition universe (g : Pedigree) : gset string :=
  dom g ∪ ⋃ (parentSet ∘ snd <$> map_to_list g).

(** ** Loops *)

Section While.
Context {St Res : Type}.
Variable body : St → St + Res.

(** [while n s] runs the loop body from [s] for at most [2 ^ n]
    iterations; [inr r] is the value the loop left behind when its
    condition failed. *)
Fixpoint while (n : nat) (s : St) : St + Res :=
  match n with
  | O => body s
  | S n' =>
      match while n' s with
      | inl s' => while n' s'
      | inr r => inr r
      end
  end.

Definition runWhile (n : nat) (s : St) : option Res :=
  match while n s with
  | inr r => Some r
  | inl _ => None
  end.
End While.


(** Fuel of the [while] loops over a graph: [2 ^ loopFuel g] iterations. *)
Definition loopFuel (g : Pedigree) : nat := S (S (size (universe g))).

(** Fuel of the recursion of [calculateInbreeding]: its depth. *)
Definition depthFuel (g : Pedigree) : nat := S (size (universe g)).

(** ** [Animal.getAncestors]: breadth-first walk over the parent links *)

Record BfsState := mkBfs {
  queue : list string;
  visited : gset string;
  ancestors : list string
}.

(** [if (p && !visited.has(p.id)) { queue.push(p); visited.add(p.id); }] *)
Definition visit (p : option string) (st : BfsState) : BfsState :=
  match p with
  | Some p =>
      if decide (p ∈ visited st) then st
      else mkBfs (queue st ++ [p]) ({[p]} ∪ visited st) (ancestors st)
  | None => st
  end.

Definition bfsBody (g : Pedigree) (st : BfsState) : BfsState + list string :=
  match queue st with
  | [] => inr (ancestors st)
  | current :: rest =>
      let st := mkBfs rest (visited st) (setAdd current (ancestors st)) in
      let st := visit (getParent1 g current) st in
      inl (visit (getParent2 g current) st)
  end.

(** [if (p) queue.push(p)] and [if (p) visited.add(p.id)] *)
Definition pushSome (p : option string) (q : list string) : list string :=
  match p with Some p => q ++ [p] | None => q end.

Definition addSome (p : option string) (v : gset string) : gset string :=
  match p with Some p => {[p]} ∪ v | None => v end.

(** The walk; [visited0] is the initial content of [visited]. *)
Definition getAncestorsFrom (visited0 : gset string) (g : Pedigree) (a : string)
  : option (list string) :=
  let queue := pushSome (getParent2 g a) (pushSome (getParent1 g a) []) in
  let visited := addSome (getParent2 g a) (addSome (getParent1 g a) visited0) in
  runWhile (bfsBody g) (loopFuel g) (mkBfs queue visited []).

(** ** [_findPathsToAncestorDFS]: depth-first path enumeration *)

Record DfsState := mkDfs {
  stack : list (string * list string);   (* top of the stack first *)
  paths : list (list string)
}.

Definition processParentForDFS (parent target : string) (currentPath : list string)
    (st : DfsState) : DfsState :=
  if equals parent target then
    mkDfs (stack st) (paths st ++ [currentPath ++ [parent]])
  else if negb (existsb (λ animalInPath, equals animalInPath parent) currentPath) then
    mkDfs ((parent, currentPath ++ [parent]) :: stack st) (paths st)
  else st.

Definition processSome (parent : option string) (target : string)
    (currentPath : list string) (st : DfsState) : DfsState :=
  match parent with
  | Some p => processParentForDFS p target currentPath st
  | None => st
  end.

Definition dfsBody (g : Pedigree) (target : string) (st : DfsState)
  : DfsState + list (list string) :=
  match stack st with
  | [] => inr (paths st)
  | (currentAnimal, currentPathToAnimal) :: rest =>
      let st := mkDfs rest (paths st) in
      let st := processSome (getParent1 g currentAnimal) target currentPathToAnimal st in
      inl (processSome (getParent2 g currentAnimal) target currentPathToAnimal st)
  end.

Definition findPathsToAncestorDFS (g : Pedigree) (start target : string)
  : option (list (list string)) :=
  if equals start target then Some [[start]]
  else runWhile (dfsBody g target) (loopFuel g) (mkDfs [(start, [start])] []).

(** [_findPathsToAncestor]: the null guard in front of the search. *)
Definition findPathsToAncestor (g : Pedigree) (start target : option string)
  : option (list (list string)) :=
  match start, target with
  | Some s, Some t => findPathsToAncestorDFS g s t
  | _, _ => Some []
  end.

(** ** Wright's path coefficient *)

(** [Math.pow(0.5, e)]: the double [2^-e], exact down to the smallest
    subnormal [2^-1074], and [0] for a larger exponent. *)
Definition pow05 (e : Z) : Qc :=
  if (e <=? 1074)%Z then Q2Qc (Qpower (1 # 2) e) else 0%Qc.

(** [Math.pow(0.5, n1 + n2 + 1) * (1.0 + fAncestor)] *)
Definition contribution (path1 path2 : list string) (fAncestor : Qc) : Qc :=
  let n1 := (Z.of_nat (length path1) - 1)%Z in
  let n2 := (Z.of_nat (length path2) - 1)%Z in
  let exponent := (n1 + n2 + 1)%Z in
  (pow05 exponent * (1 + fAncestor))%Qc.

(** ** Version 0.0.6: strict pairing, no memoisation *)

Module V006.

Definition getAncestors : Pedigree → string → option (list string) :=
  getAncestorsFrom ∅.

(** The two nested [for] loops over [paths1] and [paths2]. *)
Definition accumulate (fAncestor : Qc) (paths1 paths2 : list (list string))
    (totalF : Qc) : Qc :=
  fold_left (λ totalF path1,
    fold_left (λ totalF path2, (totalF + contribution path1 path2 fAncestor)%Qc)
      paths2 totalF) paths1 totalF.

(** [for (const ancestor of commonAncestors) ...] *)
Fixpoint forCommonAncestors (calculateInbreeding : option string → option Qc)
    (g : Pedigree) (parent1 parent2 : string) (commonAncestors : list string)
    (totalF : Qc) : option Qc :=
  match commonAncestors with
  | [] => Some totalF
  | ancestor :: rest =>
      fAncestor ← calculateInbreeding (Some ancestor);
      paths1 ← findPathsToAncestor g (Some parent1) (Some ancestor);
      paths2 ← findPathsToAncestor g (Some parent2) (Some ancestor);
      forCommonAncestors calculateInbreeding g parent1 parent2 rest
        (accumulate fAncestor paths1 paths2 totalF)
  end.

(** [ancestors1] filtered by membership in [ancestors2]. *)
Definition commonAncestorsOf (ancestors1 ancestors2 : list string) : list string :=
  filter (λ ancestor, ancestor ∈ ancestors2) ancestors1.

(** The body of [calculateOffspringInbreeding], with the method it calls
    back, [this.calculateInbreeding], as a parameter. *)
Definition calculateOffspringInbreedingWith
    (calculateInbreeding : option string → option Qc)
    (g : Pedigree) (parent1 parent2 : option string) : option Qc :=
  match parent1, parent2 with
  | Some p1, Some p2 =>
      ancestors1 ← setAdd p1 <$> getAncestors g p1;
      ancestors2 ← setAdd p2 <$> getAncestors g p2;
      forCommonAncestors calculateInbreeding g p1 p2
        (commonAncestorsOf ancestors1 ancestors2) 0%Qc
  | _, _ => Some 0%Qc
  end.

(** [calculateInbreeding]; [currentlyCalculatingF] is the guard set at the
    time of the call (the method removes the id it added before it
    returns), [n] bounds the depth of the recursion. *)
Fixpoint calculateInbreedingAt (n : nat) (g : Pedigree)
    (currentlyCalculatingF : gset string) (animal : option string) : option Qc :=
  match animal with
  | None => Some 0%Qc
  | Some id =>
      if decide (id ∈ currentlyCalculatingF) then Some 0%Qc
      else
        match n with
        | O => None
        | S n' =>
            let guard := {[id]} ∪ currentlyCalculatingF in
            match getParent1 g id, getParent2 g id with
            | Some p1, Some p2 =>
                calculateOffspringInbreedingWith (calculateInbreedingAt n' g guard)
                  g (Some p1) (Some p2)
            | _, _ => Some 0%Qc
            end
        end
  end.

Definition calculateOffspringInbreedingAt (n : nat) (g : Pedigree)
    (currentlyCalculatingF : gset string) (parent1 parent2 : option string)
  : option Qc :=
  calculateOffspringInbreedingWith (calculateInbreedingAt n g currentlyCalculatingF)
    g parent1 parent2.

(** The two methods as called on a calculator at rest (empty guard set). *)
Definition calculateInbreeding (g : Pedigree) (animal : option string) : option Qc :=
  calculateInbreedingAt (depthFuel g) g ∅ animal.

Definition calculateOffspringInbreeding (g : Pedigree) (parent1 parent2 : option string)
  : option Qc :=
  calculateOffspringInbreedingAt (depthFuel g) g ∅ parent1 parent2.

End V006.

(** ** The memoised engines (versions 1.1.0 and 1.3.0) *)

(** The three [Map]s of a [RelatednessCalculator]. *)
Record Calculator := mkCalculator {
  inbreedingCache : gmap string Qc;
  offspringInbreedingCache : gmap string Qc;
  pathCache : gmap string (list (list string))
}.

(** [new RelatednessCalculator()] *)
Definition newCalculator : Calculator := mkCalculator ∅ ∅ ∅.

(** A method of the calculator: it reads and updates the caches, and fails
    when a loop runs out of fuel. *)
Definition Method (A : Type) : Type := Calculator → option (A * Calculator).

Definition ret {A} (a : A) : Method A := λ c, Some (a, c).

Definition mbindM {A B} (m : Method A) (k : A → Method B) : Method B :=
  λ c, match m c with
       | Some (a, c') => k a c'
       | None => None
       end.

Notation "x ←$ m ; k" := (mbindM m (λ x, k))
  (at level 20, m at level 100, k at level 200, only parsing, right associativity).

Definition liftFuel {A} (m : option A) : Method A :=
  λ c, match m with Some a => Some (a, c) | None => None end.

Definition setInbreeding (id : string) (f : Qc) : Method unit :=
  λ c, Some (tt, mkCalculator (<[id := f]> (inbreedingCache c))
                   (offspringInbreedingCache c) (pathCache c)).

Definition setOffspringInbreeding (cacheKey : string) (f : Qc) : Method unit :=
  λ c, Some (tt, mkCalculator (inbreedingCache c)
                   (<[cacheKey := f]> (offspringInbreedingCache c)) (pathCache c)).

Definition setPaths (pathKey : string) (p : list (list string)) : Method unit :=
  λ c, Some (tt, mkCalculator (inbreedingCache c) (offspringInbreedingCache c)
                   (<[pathKey := p]> (pathCache c))).

(** [`${p1.getId()},${p2.getId()}`] and [`${start.getId()}->${target.getId()}`] *)
Definition offspringKey (p1 p2 : string) : string := (p1 ++ "," ++ p2)%string.
Definition pathKeyOf (start target : string) : string := (start ++ "->" ++ target)%string.

(** [_findPathsToAncestorWithCache] *)
Definition findPathsToAncestorWithCache (g : Pedigree) (start target : option string)
  : Method (list (list string)) :=
  match start, target with
  | Some s, Some t =>
      let pathKey := pathKeyOf s t in
      λ c, match pathCache c !! pathKey with
           | Some cached => Some (cached, c)
           | None =>
               (paths ←$ liftFuel (findPathsToAncestorDFS g s t);
                _ ←$ setPaths pathKey paths;
                ret paths) c
           end
  | _, _ => ret []
  end.

(** [_arePathsIndependent]; [path.slice(1, -1)] drops both ends. *)
Definition midNodes (path : list string) : list string := removelast (tail path).

Definition arePathsIndependent (path1 path2 : list string) : bool :=
  let midNodes1 := midNodes path1 in
  match midNodes1 with
  | [] => true
  | _ =>
      let midNodesSet1 : gset string := list_to_set midNodes1 in
      forallb (λ node, negb (bool_decide (node ∈ midNodesSet1))) (midNodes path2)
  end.

(** The two memoised files share the code of this section; they differ in
    three places, marked by the version. *)
Inductive Version := v110 | v130.

Section Memoised.

(** [String.prototype.localeCompare] depends on the host's collation. *)
Variable localeCompare : string → string → Z.

Variable version : Version.

(** [getAncestors]: [visited] starts as [new Set([this.id])] in 1.3.0 and
    as [new Set()] in 1.1.0. *)
Definition getAncestorsM (g : Pedigree) (a : string) : option (list string) :=
  getAncestorsFrom (match version with v130 => {[a]} | v110 => ∅ end) g a.

(** The nested loops over the path pairs; 1.3.0 adds a contribution only
    [if (this._arePathsIndependent(path1, path2))]. *)
Definition accumulateM (fAncestor : Qc) (paths1 paths2 : list (list string))
    (totalF : Qc) : Qc :=
  fold_left (λ totalF path1,
    fold_left (λ totalF path2,
      match version with
      | v130 =>
          if arePathsIndependent path1 path2
          then (totalF + contribution path1 path2 fAncestor)%Qc
          else totalF
      | v110 => (totalF + contribution path1 path2 fAncestor)%Qc
      end) paths2 totalF) paths1 totalF.

Fixpoint forCommonAncestorsM (calculateInbreeding : option string → Method Qc)
    (g : Pedigree) (p1 p2 : string) (commonAncestors : list string)
    (totalF : Qc) : Method Qc :=
  match commonAncestors with
  | [] => ret totalF
  | ancestor :: rest =>
      fAncestor ←$ calculateInbreeding (Some ancestor);
      paths1 ←$ findPathsToAncestorWithCache g (Some p1) (Some ancestor);
      paths2 ←$ findPathsToAncestorWithCache g (Some p2) (Some ancestor);
      forCommonAncestorsM calculateInbreeding g p1 p2 rest
        (accumulateM fAncestor paths1 paths2 totalF)
  end.

(** [if (commonAncestors.size === 0)], a test only 1.3.0 makes. *)
Definition returnsEarly (commonAncestors : list string) : bool :=
  match version, commonAncestors with
  | v130, [] => true
  | _, _ => false
  end.

Definition calculateOffspringInbreedingWithM
    (calculateInbreeding : option string → Method Qc)
    (g : Pedigree) (parent1 parent2 : option string) : Method Qc :=
  match parent1, parent2 with
  | Some parent1, Some parent2 =>
      let '(p1, p2) :=
        if (0 <? localeCompare parent1 parent2)%Z then (parent2, parent1)
        else (parent1, parent2) in
      let cacheKey := offspringKey p1 p2 in
      λ c, match offspringInbreedingCache c !! cacheKey with
           | Some cached => Some (cached, c)
           | None =>
               (ancestors1 ←$ liftFuel (setAdd p1 <$> getAncestorsM g p1);
                ancestors2 ←$ liftFuel (setAdd p2 <$> getAncestorsM g p2);
                let commonAncestors :=
                  filter (λ ancestor, ancestor ∈ ancestors2) ancestors1 in
                if returnsEarly commonAncestors then
                  _ ←$ setOffspringInbreeding cacheKey 0%Qc;
                  ret 0%Qc
                else
                  totalF ←$ forCommonAncestorsM calculateInbreeding g p1 p2
                              commonAncestors 0%Qc;
                  _ ←$ setOffspringInbreeding cacheKey totalF;
                  ret totalF) c
           end
  | _, _ => ret 0%Qc
  end.

Fixpoint calculateInbreedingM (n : nat) (g : Pedigree)
    (currentlyCalculatingF : gset string) (animal : option string) : Method Qc :=
  match animal with
  | None => ret 0%Qc
  | Some id =>
      λ c, match inbreedingCache c !! id with
           | Some cached => Some (cached, c)
           | None =>
               if decide (id ∈ currentlyCalculatingF) then Some (0%Qc, c)
               else
                 match n with
                 | O => None
                 | S n' =>
                     let guard := {[id]} ∪ currentlyCalculatingF in
                     (inbreedingCoefficient ←$
                        match getParent1 g id, getParent2 g id with
                        | Some p1, Some p2 =>
                            calculateOffspringInbreedingWithM
                              (calculateInbreedingM n' g guard) g (Some p1) (Some p2)
                        | _, _ => ret 0%Qc
                        end;
                      _ ←$ setInbreeding id inbreedingCoefficient;
                      ret inbreedingCoefficient) c
                 end
           end
  end.

(** [calculateOffspringInbreeding] as called on a calculator at rest. *)
Definition calculateOffspringInbreedingM (g : Pedigree)
    (parent1 parent2 : option string) : Method Qc :=
  calculateOffspringInbreedingWithM (calculateInbreedingM (depthFuel g) g ∅)
    g parent1 parent2.

End Memoised.

(** Code-unit order of two strings, as a [localeCompare] result; it agrees
    with every collation on strings of digits and on strings of capital
    letters. *)
Definition codeUnitCompare (a b : string) : Z :=
  match String.compare a b with
  | Lt => (-1)%Z
  | Eq => 0%Z
  | Gt => 1%Z
  end.

(** ** Flattened pedigree records and the planner *)

Record PedigreeRecord := mkRecord {
  sId : Js.Val; sid : Js.Val;
  mId : Js.Val; fId : Js.Val;
  mmId : Js.Val; mfId : Js.Val; fmId : Js.Val; ffId : Js.Val;
  mmmId : Js.Val; mmfId : Js.Val; mfmId : Js.Val; mffId : Js.Val;
  fmmId : Js.Val; fmfId : Js.Val; ffmId : Js.Val; fffId : Js.Val
}.

(** The element of the array [calculateBreedingInbreeding] returns;
    [inbreedingCoefficient] is [parseFloat(x.toFixed(8))]. *)
Record Pairing := mkPairing {
  bullId : string;
  cowId : string;
  inbreedingCoefficient : Qc
}.

(** [parseFloat(x.toFixed(8))], two built-ins of the host.  [toFixed(8)]
    prints the multiple of [10^-8] nearest to [x], the larger one on a
    tie, a negative [x] rounded as [-x] is; [toFixed8] is that decimal.
    [parseFloat] reads it back as the nearest double, a rounding the
    rationals of this file leave out. *)
Definition toFixed8 (x : Qc) : Qc :=
  let scaled (y : Q) : Z := Qfloor (y * (100000000 # 1) + (1 # 2)) in
  if Qle_bool 0 x then Q2Qc (scaled x # 100000000)
  else Q2Qc (- scaled (- x) # 100000000).

(** The [Animal] constructor: the checks on [id], then a node without
    parents. *)
Definition newAnimal (id : Js.Val) : Js.Completion Animal :=
  match id with
  | Js.Null | Js.Undefined => Js.Throw (Js.toString id)
  | Js.Str s =>
      if String.eqb (Js.trim s) ""
         || String.eqb (Js.toLowerCase s) "undefined"
         || String.eqb (Js.toLowerCase s) "null"
      then Js.Throw s
      else Js.Normal (mkAnimal None None)
  end.

(** [BreedingPlanner.getOrCreateAnimal]: the animal (or [null]) and the
    [animalMap] afterwards. *)
Definition getOrCreateAnimal (animalMap : Pedigree) (id : Js.Val)
  : Js.Completion (option string * Pedigree) :=
  match id with
  | Js.Null | Js.Undefined => Js.Normal (None, animalMap)
  | Js.Str s =>
      if String.eqb (Js.trim s) "" then Js.Normal (None, animalMap)
      else
        let trimmedId := Js.trim s in
        match animalMap !! trimmedId with
        | Some _ => Js.Normal (Some trimmedId, animalMap)
        | None =>
            animal ←! newAnimal (Js.Str trimmedId);
            Js.Normal (Some trimmedId, <[trimmedId := animal]> animalMap)
        end
  end.

(** The object literal [relationships] of [loadPedigreeFromJson]: seven
    computed keys, each with its [{ mother, father }]. *)
Definition relationships (record : PedigreeRecord) : list (string * (Js.Val * Js.Val)) :=
  let put k (v : Js.Val * Js.Val) o := Js.setProperty (Js.toString k) v o in
  put (mmId record) (mmmId record, mmfId record)
    (put (mfId record) (mfmId record, mffId record)
      (put (fmId record) (fmmId record, fmfId record)
        (put (ffId record) (ffmId record, fffId record)
          (put (mId record) (mmId record, mfId record)
            (put (fId record) (fmId record, ffId record)
              (put (Js.or (sId record) (sid record)) (mId record, fId record) [])))))).

(** The parent-attachment policies. *)
Definition setParent1 (child mother : string) (animalMap : Pedigree) : Pedigree :=
  alter (λ a, mkAnimal (Some mother) (parent2 a)) child animalMap.

Definition setParent2 (child father : string) (animalMap : Pedigree) : Pedigree :=
  alter (λ a, mkAnimal (parent1 a) (Some father)) child animalMap.

(** [if (mother) childAnimal.setParent1(mother);] and the same for the
    father (version 0.0.6). *)
Definition attachOverwrite (child : string) (mother father : option string)
    (animalMap : Pedigree) : Pedigree :=
  let animalMap := match mother with
                   | Some m => setParent1 child m animalMap
                   | None => animalMap
                   end in
  match father with
  | Some f => setParent2 child f animalMap
  | None => animalMap
  end.

(** [if (childAnimal.getParent1() === null && mother) ...] (versions 1.1.0
    and 1.3.0). *)
Definition attachFirstWins (child : string) (mother father : option string)
    (animalMap : Pedigree) : Pedigree :=
  let animalMap := match getParent1 animalMap child, mother with
                   | None, Some m => setParent1 child m animalMap
                   | _, _ => animalMap
                   end in
  match getParent2 animalMap child, father with
  | None, Some f => setParent2 child f animalMap
  | _, _ => animalMap
  end.

Section Planner.

Variable attach : string → option string → option string → Pedigree → Pedigree.

(** [for (const childId in relationships) ...] *)
Fixpoint forRelationships (rels : list (string * (Js.Val * Js.Val)))
    (animalMap : Pedigree) : Js.Completion Pedigree :=
  match rels with
  | [] => Js.Normal animalMap
  | (childId, (motherId, fatherId)) :: rest =>
      '(childAnimal, animalMap) ←! getOrCreateAnimal animalMap (Js.Str childId);
      match childAnimal with
      | None => forRelationships rest animalMap
      | Some child =>
          '(mother, animalMap) ←! getOrCreateAnimal animalMap motherId;
          '(father, animalMap) ←! getOrCreateAnimal animalMap fatherId;
          forRelationships rest (attach child mother father animalMap)
      end
  end.

Definition loadRecord (record : PedigreeRecord) (animalMap : Pedigree)
  : Js.Completion Pedigree :=
  forRelationships (Js.ownProperties (relationships record)) animalMap.

End Planner.

(** The first loop of [loadPedigreeFromJson] in 1.3.0 and 0.0.6: the
    trimmed content of every truthy identifier field, as a [Set]. *)
Definition idFields (record : PedigreeRecord) : list Js.Val :=
  [sId record; sid record; mId record; fId record;
   mmId record; mfId record; fmId record; ffId record;
   mmmId record; mmfId record; mfmId record; mffId record;
   fmmId record; fmfId record; ffmId record; fffId record].

Definition collectIds (jsonDataArray : list PedigreeRecord) : list string :=
  fold_left (λ allIds record,
    fold_left (λ allIds field,
      if Js.truthy field then
        let trimmedId := Js.trim (Js.toString field) in
        if negb (String.eqb trimmedId "") then setAdd trimmedId allIds else allIds
      else allIds) (idFields record) allIds) jsonDataArray [].

(** [for (const id of allIds) { this.getOrCreateAnimal(id); }] *)
Fixpoint createAll (allIds : list string) (animalMap : Pedigree)
  : Js.Completion Pedigree :=
  match allIds with
  | [] => Js.Normal animalMap
  | id :: rest =>
      '(_, animalMap) ←! getOrCreateAnimal animalMap (Js.Str id);
      createAll rest animalMap
  end.

Fixpoint forRecords (load : PedigreeRecord → Pedigree → Js.Completion Pedigree)
    (jsonDataArray : list PedigreeRecord) (animalMap : Pedigree)
  : Js.Completion Pedigree :=
  match jsonDataArray with
  | [] => Js.Normal animalMap
  | record :: rest =>
      animalMap ←! load record animalMap;
      forRecords load rest animalMap
  end.

(** The guard at the head of [calculateBreedingInbreeding]; the array is a
    list here, so its [Array.isArray] test holds. *)
Definition invalidInput (cowRecord : option PedigreeRecord)
    (bullRecordsArray : list PedigreeRecord) : bool :=
  match cowRecord with
  | None => true
  | Some cow =>
      negb (Js.truthy (Js.or (sId cow) (sid cow)))
      || Nat.eqb (length bullRecordsArray) 0
  end.

(** ** Entry points *)

Module V006Main.

(** [loadPedigreeFromJson] of version 0.0.6: create every animal first,
    then attach parents, later records overwriting earlier ones. *)
Definition loadPedigreeFromJson (jsonDataArray : list PedigreeRecord)
    (animalMap : Pedigree) : Js.Completion Pedigree :=
  animalMap ←! createAll (collectIds jsonDataArray) animalMap;
  forRecords (loadRecord attachOverwrite) jsonDataArray animalMap.

(** One iteration of the loop over [bullRecordsArray]: [None] when the
    iteration ends in [continue], the pushed element otherwise. *)
Definition pairing (cowRecord primaryBullRecord : PedigreeRecord)
  : Js.Completion (option Pairing) :=
  let primaryCowId := Js.or (sId cowRecord) (sid cowRecord) in
  let primaryBullId := Js.or (sId primaryBullRecord) (sid primaryBullRecord) in
  if negb (Js.truthy primaryBullId) then Js.Normal None
  else
    let currentPedigreeSet := [cowRecord; primaryBullRecord] in
    animalMap ←! loadPedigreeFromJson currentPedigreeSet ∅;
    '(cowAnimal, animalMap) ←! getOrCreateAnimal animalMap primaryCowId;
    '(bullAnimal, animalMap) ←! getOrCreateAnimal animalMap primaryBullId;
    match cowAnimal, bullAnimal with
    | Some cow, Some bull =>
        inbreedingCoefficient ←!
          Js.ofFuel (V006.calculateOffspringInbreeding animalMap (Some bull) (Some cow));
        Js.Normal (Some (mkPairing bull cow (toFixed8 inbreedingCoefficient)))
    | _, _ => Js.Normal None
    end.

Fixpoint forBulls (cowRecord : PedigreeRecord) (bullRecordsArray : list PedigreeRecord)
    (results : list Pairing) : Js.Completion (list Pairing) :=
  match bullRecordsArray with
  | [] => Js.Normal results
  | primaryBullRecord :: rest =>
      pushed ←! pairing cowRecord primaryBullRecord;
      forBulls cowRecord rest
        (match pushed with Some r => results ++ [r] | None => results end)
  end.

Definition calculateBreedingInbreeding (cowRecord : option PedigreeRecord)
    (bullRecordsArray : list PedigreeRecord) : Js.Completion (list Pairing) :=
  match cowRecord with
  | Some cow =>
      if invalidInput cowRecord bullRecordsArray then Js.Normal []
      else forBulls cow bullRecordsArray []
  | None => Js.Normal []
  end.

End V006Main.

Section MemoisedMain.

Variable localeCompare : string → string → Z.
Variable version : Version.

(** [loadPedigreeFromJson]: 1.3.0 creates every animal first; 1.1.0 skips a
    record whose own id yields no animal.  Both attach a parent only where
    none is set. *)
Definition loadPedigreeFromJsonM (jsonDataArray : list PedigreeRecord)
    (animalMap : Pedigree) : Js.Completion Pedigree :=
  match version with
  | v130 =>
      animalMap ←! createAll (collectIds jsonDataArray) animalMap;
      forRecords (loadRecord attachFirstWins) jsonDataArray animalMap
  | v110 =>
      forRecords (λ record animalMap,
        let mainAnimalId := Js.or (sId record) (sid record) in
        '(mainAnimal, animalMap) ←! getOrCreateAnimal animalMap mainAnimalId;
        match mainAnimal with
        | None => Js.Normal animalMap
        | Some _ => loadRecord attachFirstWins record animalMap
        end) jsonDataArray animalMap
  end.

(** The loop over [bullRecordsArray]; planner and calculator are shared by
    all iterations. *)
Fixpoint forBullsM (primaryCowId : Js.Val) (bullRecordsArray : list PedigreeRecord)
    (animalMap : Pedigree) (calculator : Calculator) (results : list Pairing)
  : Js.Completion (list Pairing) :=
  match bullRecordsArray with
  | [] => Js.Normal results
  | primaryBullRecord :: rest =>
      let primaryBullId := Js.or (sId primaryBullRecord) (sid primaryBullRecord) in
      if negb (Js.truthy primaryBullId)
      then forBullsM primaryCowId rest animalMap calculator results
      else
        '(cowAnimal, animalMap) ←! getOrCreateAnimal animalMap primaryCowId;
        '(bullAnimal, animalMap) ←! getOrCreateAnimal animalMap primaryBullId;
        match cowAnimal, bullAnimal with
        | Some cow, Some bull =>
            '(inbreedingCoefficient, calculator) ←!
              Js.ofFuel (calculateOffspringInbreedingM localeCompare version animalMap
                           (Some bull) (Some cow) calculator);
            forBullsM primaryCowId rest animalMap calculator
              (results ++ [mkPairing bull cow (toFixed8 inbreedingCoefficient)])
        | _, _ => forBullsM primaryCowId rest animalMap calculator results
        end
  end.

Definition calculateBreedingInbreedingM (cowRecord : option PedigreeRecord)
    (bullRecordsArray : list PedigreeRecord) : Js.Completion (list Pairing) :=
  match cowRecord with
  | Some cow =>
      if invalidInput cowRecord bullRecordsArray then Js.Normal []
      else
        let primaryCowId := Js.or (sId cow) (sid cow) in
        let allPedigreeRecords := cow :: bullRecordsArray in
        animalMap ←! loadPedigreeFromJsonM allPedigreeRecords ∅;
        forBullsM primaryCowId bullRecordsArray animalMap newCalculator []
  | None => Js.Normal []
  end.

End MemoisedMain.

(** * Properties *)

(** ** Loops: invariants and termination *)

Section WhileRules.
Context {St Res : Type}.
Variable body : St → St + Res.
Variable Inv : St → Prop.
Hypothesis Inv_body : ∀ s s', Inv s → body s = inl s' → Inv s'.

Lemma while_continue_inv n s s' : Inv s → while body n s = inl s' → Inv s'.
Proof.
  revert s s'. induction n as [|n IH]; simpl; intros s s' Hs Hw; [by eauto|].
  destruct (while body n s) as [s1|] eqn:H1; [|done]. eauto.
Qed.

Lemma while_exit_inv (Post : Res → Prop) n s r :
  (∀ s r, Inv s → body s = inr r → Post r) →
  Inv s → while body n s = inr r → Post r.
Proof.
  intros Hexit. revert s. induction n as [|n IH]; simpl; intros s Hs Hw; [by eauto|].
  destruct (while body n s) as [s1|r1] eqn:H1.
  - eapply IH; [|done]. by eapply while_continue_inv.
  - simplify_eq. eauto.
Qed.

Variable measure : St → nat.
Hypothesis measure_body : ∀ s s', Inv s → body s = inl s' → measure s' < measure s.

Lemma while_continue_measure n s s' :
  Inv s → while body n s = inl s' → measure s' + 2 ^ n ≤ measure s.
Proof.
  revert s s'. induction n as [|n IH]; simpl; intros s s' Hs Hw.
  - apply measure_body in Hw; [lia|done].
  - destruct (while body n s) as [s1|] eqn:H1; [|done].
    pose proof (IH _ _ Hs H1).
    pose proof (IH _ _ (while_continue_inv _ _ _ Hs H1) Hw). lia.
Qed.

Lemma while_terminates n s :
  Inv s → measure s < 2 ^ n → ∃ r, while body n s = inr r.
Proof.
  revert s. induction n as [|n IH]; simpl; intros s Hs Hm.
  - destruct (body s) as [s'|r] eqn:Hb; [|by eauto].
    apply measure_body in Hb; [lia|done].
  - destruct (while body n s) as [s1|r1] eqn:H1; [|by eauto].
    pose proof (while_continue_measure _ _ _ Hs H1).
    apply IH; [by eapply while_continue_inv|lia].
Qed.

End WhileRules.

(** More fuel does not change the outcome of a loop that ended. *)
Lemma while_more_fuel {St Res} (body : St → St + Res) n m s r :
  n ≤ m → while body n s = inr r → while body m s = inr r.
Proof.
  intros Hle. induction Hle as [|m Hle IH]; [done|].
  intros Hw. simpl. by rewrite (IH Hw).
Qed.

Lemma runWhile_more_fuel {St Res} (body : St → St + Res) n m s r :
  n ≤ m → runWhile body n s = Some r → runWhile body m s = Some r.
Proof.
  unfold runWhile. intros Hle Hr.
  destruct (while body n s) as [|r'] eqn:Hw; [done|]. simplify_eq.
  by rewrite (while_more_fuel _ _ _ _ _ Hle Hw).
Qed.

(** ** The parent relation *)

Definition isParent (g : Pedigree) (child parent : string) : Prop :=
  getParent1 g child = Some parent ∨ getParent2 g child = Some parent.

(** [isAncestor g a x]: [x] is reached from [a] by one or more parent
    links. *)
Definition isAncestor (g : Pedigree) : relation string := tc (isParent g).

Definition Acyclic (g : Pedigree) : Prop := ∀ x, ¬ isAncestor g x x.

Lemma isParent_universe g c p : isParent g c p → p ∈ universe g.
Proof.
  unfold isParent, getParent1, getParent2, universe. intros H.
  apply elem_of_union_r, elem_of_union_list.
  destruct (g !! c) as [an|] eqn:Hc; [|naive_solver].
  exists (parentSet an). split.
  - apply list_elem_of_fmap. exists (c, an). split; [done|].
    by apply elem_of_map_to_list.
  - unfold parentSet. simpl in H.
    destruct H as [-> | ->]; set_solver.
Qed.

Lemma setAdd_elem x y l : y ∈ setAdd x l ↔ y = x ∨ y ∈ l.
Proof. unfold setAdd. case_decide; set_solver. Qed.

Lemma setAdd_NoDup x l : NoDup l → NoDup (setAdd x l).
Proof.
  unfold setAdd. case_decide; [done|]. intros.
  apply NoDup_app. repeat split; [done| |apply NoDup_singleton]. set_solver.
Qed.

(** ** [getAncestors] *)

Section Bfs.
Variable g : Pedigree.
Variable a : string.
Variable visited0 : gset string.

Definition bfsMeasure (st : BfsState) : nat :=
  length (queue st) + size (universe g ∖ visited st).

Record BfsInv (st : BfsState) : Prop := {
  bfs_nodup : NoDup (ancestors st);
  bfs_sound : ∀ x, x ∈ queue st ∨ x ∈ ancestors st → isAncestor g a x;
  bfs_seen : ∀ x, x ∈ visited st → x ∈ queue st ∨ x ∈ ancestors st ∨ x ∈ visited0;
  bfs_closed : ∀ x p, x ∈ ancestors st → isParent g x p → p ∈ visited st;
  bfs_first : ∀ p, isParent g a p → p ∈ visited st
}.

Lemma visit_ancestors p st : ancestors (visit p st) = ancestors st.
Proof. unfold visit. destruct p; [case_decide|]; done. Qed.

Lemma visit_queue p st x :
  x ∈ queue (visit p st) ↔ x ∈ queue st ∨ (p = Some x ∧ x ∉ visited st).
Proof.
  unfold visit. destruct p as [p|]; [case_decide|]; simpl; [naive_solver| |naive_solver].
  rewrite elem_of_app, list_elem_of_singleton. naive_solver.
Qed.

Lemma visit_visited p st x :
  x ∈ visited (visit p st) ↔ x ∈ visited st ∨ p = Some x.
Proof.
  unfold visit. destruct p as [p|]; [case_decide|]; simpl; set_solver.
Qed.

Lemma visit_measure p st :
  (∀ x, p = Some x → x ∈ universe g) →
  bfsMeasure (visit p st) ≤ bfsMeasure st.
Proof.
  unfold visit, bfsMeasure. intros Hp.
  destruct p as [p|]; [case_decide|]; simpl; [done| |done].
  rewrite length_app. simpl.
  assert (universe g ∖ visited st = {[p]} ∪ universe g ∖ ({[p]} ∪ visited st)) as ->.
  { apply set_eq. intros y. specialize (Hp p eq_refl).
    destruct (decide (y = p)); set_solver. }
  rewrite (size_union {[p]}) by set_solver. rewrite size_singleton. lia.
Qed.

Lemma bfsBody_inv st st' : BfsInv st → bfsBody g st = inl st' → BfsInv st'.
Proof.
  intros [Hnd Hsound Hseen Hclosed Hfirst]. unfold bfsBody.
  destruct (queue st) as [|current rest] eqn:Hq; [done|]. intros [= <-].
  assert (isAncestor g a current) as Hcur.
  { apply Hsound. left. apply elem_of_cons. by left. }
  split.
  - rewrite !visit_ancestors. simpl. by apply setAdd_NoDup.
  - intros x. rewrite !visit_ancestors, !visit_queue. simpl.
    rewrite setAdd_elem. intros [[[Hx|[Hx _]]|[Hx _]]|[->|Hx]]; try done.
    + apply Hsound. left. apply elem_of_cons. by right.
    + eapply tc_r; [done|]. by left.
    + eapply tc_r; [done|]. by right.
    + apply Hsound. by right.
  - intros x. rewrite !visit_ancestors, !visit_queue, !visit_visited. simpl.
    rewrite setAdd_elem. intros Hx.
    destruct (decide (x ∈ visited st)) as [Hv|Hv].
    + destruct (Hseen x Hv) as [Hx'|[Hx'|Hx']]; [|by auto..].
      apply elem_of_cons in Hx' as [->|Hx']; by auto.
    + destruct (decide (getParent1 g current = Some x)); [by auto 10|].
      destruct Hx as [[?|?]|?]; [done|done|]. left. right. naive_solver.
  - intros x p. rewrite !visit_ancestors, !visit_visited. simpl.
    rewrite setAdd_elem. intros [->|Hx] Hp; [|by eauto].
    destruct Hp; auto.
  - intros p Hp. rewrite !visit_visited. simpl. auto.
Qed.

Lemma bfsBody_measure st st' :
  BfsInv st → bfsBody g st = inl st' → bfsMeasure st' < bfsMeasure st.
Proof.
  intros _. unfold bfsBody.
  destruct (queue st) as [|current rest] eqn:Hq; [done|]. intros [= <-].
  eapply Nat.le_lt_trans; [apply visit_measure|].
  { intros x Hx. eapply isParent_universe. by right. }
  eapply Nat.le_lt_trans; [apply visit_measure|].
  { intros x Hx. eapply isParent_universe. by left. }
  unfold bfsMeasure. simpl. rewrite Hq. simpl. lia.
Qed.

Definition bfsStart : BfsState :=
  mkBfs (pushSome (getParent2 g a) (pushSome (getParent1 g a) []))
        (addSome (getParent2 g a) (addSome (getParent1 g a) visited0)) [].

Lemma bfsStart_inv : BfsInv bfsStart.
Proof.
  unfold bfsStart, pushSome, addSome. split; simpl.
  - apply NoDup_nil_2.
  - intros x [Hx|Hx]; [|by apply elem_of_nil in Hx].
    apply tc_once. unfold isParent.
    destruct (getParent1 g a), (getParent2 g a); set_solver.
  - intros x. destruct (getParent1 g a), (getParent2 g a); set_solver.
  - intros x p Hx. by apply elem_of_nil in Hx.
  - intros p [Hp|Hp]; rewrite Hp; destruct (getParent1 g a), (getParent2 g a); set_solver.
Qed.

Lemma pow2_bound n : n + 3 ≤ 2 ^ (S (S n)).
Proof. induction n as [|n IH]; simpl in *; lia. Qed.

Lemma bfsStart_measure : bfsMeasure bfsStart < 2 ^ loopFuel g.
Proof.
  unfold loopFuel. pose proof (pow2_bound (size (universe g))).
  assert (bfsMeasure bfsStart ≤ 2 + size (universe g)); [|lia].
  unfold bfsMeasure.
  assert (length (queue bfsStart) ≤ 2).
  { unfold bfsStart, pushSome. simpl.
    destruct (getParent1 g a), (getParent2 g a); simpl; lia. }
  assert (size (universe g ∖ visited bfsStart) ≤ size (universe g)).
  { apply subseteq_size. set_solver. }
  lia.
Qed.

(** The walk ends, and it yields exactly the proper ancestors of [a] (all
    but [a] itself when [a] is marked visited at the start). *)
Lemma getAncestorsFrom_spec :
  (∀ x, x ∈ visited0 → x = a) →
  ∃ l, getAncestorsFrom visited0 g a = Some l ∧ NoDup l ∧
       (∀ x, x ∈ l → isAncestor g a x) ∧
       (∀ x, isAncestor g a x → x ∈ l ∨ x = a).
Proof.
  intros Hv0. unfold getAncestorsFrom, runWhile. fold bfsStart.
  destruct (while_terminates (bfsBody g) BfsInv bfsBody_inv bfsMeasure
              bfsBody_measure (loopFuel g) bfsStart bfsStart_inv bfsStart_measure)
    as [l Hl].
  rewrite Hl. exists l. split; [done|].
  eapply (while_exit_inv (bfsBody g) BfsInv bfsBody_inv
            (λ l, NoDup l ∧ (∀ x, x ∈ l → isAncestor g a x) ∧
                  (∀ x, isAncestor g a x → x ∈ l ∨ x = a)));
    [|apply bfsStart_inv|exact Hl].
  clear l Hl. intros st l [Hnd Hsound Hseen Hclosed Hfirst]. unfold bfsBody.
  destruct (queue st) as [|current rest] eqn:Hq; [|done]. intros [= <-].
  split; [done|]. split; [by auto|].
  assert (∀ p, p ∈ visited st → p ∈ ancestors st ∨ p = a) as Hvis.
  { intros p Hp. destruct (Hseen p Hp) as [Hx|[Hx|Hx]]; [|by auto..].
    by apply elem_of_nil in Hx. }
  apply (tc_ind_r (λ x, x ∈ ancestors st ∨ x = a)).
  - intros x Hx. by apply Hvis, Hfirst.
  - intros y x _ Hyx IH.
    apply Hvis. destruct IH as [Hy| ->]; [by eapply Hclosed|by apply Hfirst].
Qed.

End Bfs.

(** ** [_findPathsToAncestorDFS] *)

(** Consecutive elements are linked child to parent. *)
Fixpoint isChain (g : Pedigree) (l : list string) : Prop :=
  match l with
  | x :: l' =>
      match l' with
      | y :: _ => isParent g x y ∧ isChain g l'
      | [] => True
      end
  | [] => True
  end.

(** A path from [start] up to [target] that repeats no animal. *)
Definition SimplePath (g : Pedigree) (start target : string) (p : list string) : Prop :=
  head p = Some start ∧ last p = Some target ∧ isChain g p ∧ NoDup p.

Lemma isChain_snoc g l x y :
  isChain g l → last l = Some x → isParent g x y → isChain g (l ++ [y]).
Proof.
  induction l as [|z l IH]; [done|]. intros Hc Hl Hp.
  destruct l as [|z' l]; simpl in *.
  - by simplify_eq.
  - destruct Hc as [? Hc]. split; [done|]. by apply IH.
Qed.

Lemma isChain_app_inv g l x y rest :
  isChain g (l ++ y :: rest) → last l = Some x → isParent g x y.
Proof.
  induction l as [|z l IH]; [done|]. intros Hc Hl.
  destruct l as [|z' l]; simpl in *.
  - simplify_eq. tauto.
  - destruct Hc as [? Hc]. by apply IH.
Qed.

Lemma isChain_universe g l x :
  isChain g l → x ∈ l → head l = Some x ∨ x ∈ universe g.
Proof.
  induction l as [|z l IH]; [by intros _ ?%elem_of_nil|].
  intros Hc [->|Hx]%elem_of_cons; [by left|]. right.
  destruct l as [|z' l]; [by apply elem_of_nil in Hx|].
  destruct Hc as [Hp Hc]. destruct (IH Hc Hx) as [Hh|?]; [|done].
  simpl in Hh. simplify_eq. by eapply isParent_universe.
Qed.

Lemma NoDup_length_size (l : list string) (X : gset string) :
  NoDup l → (∀ x, x ∈ l → x ∈ X) → length l ≤ size X.
Proof.
  intros Hnd Hsub. unfold size, set_size. simpl.
  apply submseteq_length, NoDup_submseteq; [done|].
  intros x Hx. by apply elem_of_elements, Hsub.
Qed.

Lemma existsb_equals x l : existsb (λ y, equals y x) l = bool_decide (x ∈ l).
Proof.
  unfold equals. induction l as [|z l IH]; simpl; [done|].
  rewrite IH. repeat case_bool_decide; set_solver.
Qed.

Section Dfs.
Variable g : Pedigree.
Variables start target : string.
Hypothesis start_ne_target : start ≠ target.

Definition dfsNodes : gset string := {[start]} ∪ universe g.

(** Iterations a stack entry can still cause. *)
Definition entryCost (e : string * list string) : nat :=
  2 ^ S (size dfsNodes - length e.2) - 1.

Definition dfsMeasure (st : DfsState) : nat := sum_list (entryCost <$> stack st).

Definition EntryOk (e : string * list string) : Prop :=
  head e.2 = Some start ∧ last e.2 = Some e.1 ∧ isChain g e.2 ∧ NoDup e.2 ∧
  target ∉ e.2.

Record DfsInv (st : DfsState) : Prop := {
  dfs_stack : ∀ e, e ∈ stack st → EntryOk e;
  dfs_sound : ∀ p, p ∈ paths st → SimplePath g start target p;
  dfs_complete : ∀ p, SimplePath g start target p →
    p ∈ paths st ∨ ∃ e rest, e ∈ stack st ∧ p = e.2 ++ rest ∧ rest ≠ []
}.

Lemma EntryOk_length e : EntryOk e → length e.2 ≤ size dfsNodes.
Proof.
  intros (Hh & Hl & Hc & Hnd & Ht). apply NoDup_length_size; [done|].
  intros x Hx. destruct (isChain_universe _ _ _ Hc Hx) as [Hx'|Hx'].
  - rewrite Hh in Hx'. simplify_eq. set_solver.
  - set_solver.
Qed.

Lemma EntryOk_push node path y :
  EntryOk (node, path) → isParent g node y → y ≠ target → y ∉ path →
  EntryOk (y, path ++ [y]).
Proof.
  intros (Hh & Hl & Hc & Hnd & Ht) Hp Hy Hyp. simpl in *. repeat split.
  - destruct path; [done|]. done.
  - apply last_snoc.
  - by eapply isChain_snoc.
  - apply NoDup_app. repeat split; [done| |apply NoDup_singleton]. set_solver.
  - set_solver.
Qed.

Lemma EntryOk_found node path :
  EntryOk (node, path) → isParent g node target →
  SimplePath g start target (path ++ [target]).
Proof.
  intros (Hh & Hl & Hc & Hnd & Ht) Hp. simpl in *. repeat split.
  - destruct path; [done|]. done.
  - apply last_snoc.
  - by eapply isChain_snoc.
  - apply NoDup_app. repeat split; [done| |apply NoDup_singleton]. set_solver.
Qed.

(** What one call of [_processParentForDFS] does. *)
Lemma processParentForDFS_cases y path st :
  let st' := processParentForDFS y target path st in
  (y = target ∧ stack st' = stack st ∧ paths st' = (paths st ++ [path ++ [y]]))
  ∨ (y ≠ target ∧ (y ∉ path) ∧ stack st' = ((y, path ++ [y]) :: stack st)
     ∧ paths st' = paths st)
  ∨ (y ≠ target ∧ y ∈ path ∧ st' = st).
Proof.
  unfold processParentForDFS. rewrite existsb_equals. unfold equals. simpl.
  repeat case_bool_decide; simpl; naive_solver.
Qed.

Lemma entryCost_push node path y :
  length (path ++ [y]) ≤ size dfsNodes →
  2 * entryCost (y, path ++ [y]) < entryCost (node, path).
Proof.
  unfold entryCost. cbn [snd]. rewrite length_app. cbn [length]. intros Hlen.
  replace (size dfsNodes - length path) with (S (size dfsNodes - (length path + 1))) by lia.
  generalize (size dfsNodes - (length path + 1)). intros k.
  rewrite (Nat.pow_succ_r' 2 (S k)).
  pose proof (Nat.pow_nonzero 2 (S k)). lia.
Qed.

Lemma entryCost_pos e : 1 ≤ entryCost e.
Proof.
  unfold entryCost. rewrite Nat.pow_succ_r'.
  pose proof (Nat.pow_nonzero 2 (size dfsNodes - length e.2)). lia.
Qed.

(** One [processSome]: invariant clauses and cost, relative to the entry
    [(node, path)] that was popped. *)
Lemma processSome_step node path p st :
  EntryOk (node, path) →
  (∀ y, p = Some y → isParent g node y) →
  (∀ e, e ∈ stack st → EntryOk e) →
  (∀ q, q ∈ paths st → SimplePath g start target q) →
  let st' := processSome p target path st in
  (∀ e, e ∈ stack st' → EntryOk e) ∧
  (∀ q, q ∈ paths st' → SimplePath g start target q) ∧
  (∀ e, e ∈ stack st → e ∈ stack st') ∧
  (∀ q, q ∈ paths st → q ∈ paths st') ∧
  (∀ y, p = Some y → y = target → path ++ [y] ∈ paths st') ∧
  (∀ y, p = Some y → y ≠ target → y ∉ path → (y, path ++ [y]) ∈ stack st') ∧
  (dfsMeasure st' = dfsMeasure st ∨
   (2 * (dfsMeasure st' - dfsMeasure st) < entryCost (node, path) ∧
    dfsMeasure st ≤ dfsMeasure st')).
Proof.
  intros Hok Hp Hst Hpa. destruct p as [y|]; cbn [processSome]; [|split_and!; try done; by auto].
  specialize (Hp y eq_refl).
  destruct (processParentForDFS_cases y path st) as
    [(-> & Hs & Hq)|[(Hne & Hnin & Hs & Hq)|(Hne & Hin & ->)]].
  - rewrite Hs, Hq. unfold dfsMeasure. rewrite Hs. split_and!; try by auto.
    + intros q [Hq'|Hq']%elem_of_app; [by auto|].
      apply list_elem_of_singleton in Hq' as ->. by eapply EntryOk_found.
    + intros q Hq'. apply elem_of_app. by left.
    + intros y' [= <-] _. apply elem_of_app. right. by apply list_elem_of_singleton.
    + by intros y' [= <-] ?.
  - rewrite Hs, Hq. unfold dfsMeasure. rewrite Hs.
    assert (EntryOk (y, path ++ [y])) as Hnew by by eapply EntryOk_push.
    split_and!; try by auto.
    + intros e [->|He]%elem_of_cons; by auto.
    + intros e He. apply elem_of_cons. by right.
    + by intros y' [= <-] ?.
    + intros y' [= <-] _ _. apply elem_of_cons. by left.
    + right. cbn [fmap list_fmap sum_list].
      pose proof (entryCost_push node path y (EntryOk_length _ Hnew)).
      unfold id. lia.
  - split_and!; try by auto.
    + by intros y' [= <-] ?.
    + by intros y' [= <-] ? ?.
Qed.

Lemma dfsBody_inv st st' : DfsInv st → dfsBody g target st = inl st' → DfsInv st'.
Proof.
  intros [Hst Hso Hco]. unfold dfsBody.
  destruct (stack st) as [|[node path] rest] eqn:Hs; [done|]. intros [= <-].
  assert (EntryOk (node, path)) as Hok by (apply Hst, elem_of_cons; by left).
  set (st0 := mkDfs rest (paths st)).
  destruct (processSome_step node path (getParent1 g node) st0 Hok)
    as (Hst1 & Hso1 & Hsub1 & Hpsub1 & Hfound1 & Hpush1 & _).
  { intros y Hy. by left. }
  { intros e He. apply Hst, elem_of_cons. by right. }
  { done. }
  set (st1 := processSome (getParent1 g node) target path st0) in *.
  destruct (processSome_step node path (getParent2 g node) st1 Hok)
    as (Hst2 & Hso2 & Hsub2 & Hpsub2 & Hfound2 & Hpush2 & _); [|done|done|].
  { intros y Hy. by right. }
  set (st2 := processSome (getParent2 g node) target path st1) in *.
  split; [done|done|].
  intros p Hp. destruct (Hco p Hp) as [Hin|(e & rest' & He & -> & Hrest)].
  { left. by apply Hpsub2, Hpsub1. }
  apply elem_of_cons in He as [->|He].
  2:{ right. exists e, rest'. split; [|done]. apply Hsub2, Hsub1. done. }
  simpl in *. destruct rest' as [|y rest']; [done|].
  destruct Hp as (Hh & Hl & Hc & Hnd).
  destruct Hok as (_ & Hlast & _).  simpl in Hlast.
  pose proof (isChain_app_inv _ _ _ _ _ Hc Hlast) as Hpar.
  apply NoDup_app in Hnd as (_ & Hdisj & Hnd').
  assert (y ∉ path) as Hy by (intros Hy; apply (Hdisj y Hy), elem_of_cons; by left).
  destruct (decide (y = target)) as [->|Hne].
  - assert (rest' = []) as ->.
    { destruct rest' as [|z rest'] using rev_ind; [done|].
      exfalso. rewrite last_app, last_cons, last_snoc in Hl.
      simplify_eq. apply NoDup_cons in Hnd' as [Hnd' _]. apply Hnd'.
      apply elem_of_app. right. by apply list_elem_of_singleton. }
    left. destruct Hpar as [Hpar|Hpar].
    + apply Hpsub2. by apply Hfound1.
    + by apply Hfound2.
  - right. exists (y, path ++ [y]), rest'. simpl. split; [|split].
    + destruct Hpar as [Hpar|Hpar]; [apply Hsub2|]; by auto.
    + by rewrite <-(assoc_L (++)).
    + intros ->. rewrite last_snoc in Hl. by simplify_eq.
Qed.

Lemma dfsBody_measure st st' :
  DfsInv st → dfsBody g target st = inl st' → dfsMeasure st' < dfsMeasure st.
Proof.
  intros [Hst Hso Hco]. unfold dfsBody.
  destruct (stack st) as [|[node path] rest] eqn:Hs; [done|]. intros [= <-].
  assert (EntryOk (node, path)) as Hok by (apply Hst, elem_of_cons; by left).
  set (st0 := mkDfs rest (paths st)).
  destruct (processSome_step node path (getParent1 g node) st0 Hok)
    as (Hst1 & Hso1 & _ & _ & _ & _ & Hm1).
  { intros y Hy. by left. }
  { intros e He. apply Hst, elem_of_cons. by right. }
  { done. }
  set (st1 := processSome (getParent1 g node) target path st0) in *.
  destruct (processSome_step node path (getParent2 g node) st1 Hok)
    as (_ & _ & _ & _ & _ & _ & Hm2); [|done|done|].
  { intros y Hy. by right. }
  set (st2 := processSome (getParent2 g node) target path st1) in *.
  assert (dfsMeasure st = entryCost (node, path) + dfsMeasure st0) as ->.
  { unfold dfsMeasure. by rewrite Hs. }
  pose proof (entryCost_pos (node, path)). lia.
Qed.

Definition dfsStart : DfsState := mkDfs [(start, [start])] [].

Lemma dfsStart_inv : DfsInv dfsStart.
Proof.
  split; simpl.
  - intros e ->%list_elem_of_singleton. repeat split; simpl; try done.
    + apply NoDup_singleton.
    + set_solver.
  - by intros p ?%elem_of_nil.
  - intros p (Hh & Hl & Hc & Hnd). right.
    destruct p as [|x p]; [done|]. simpl in Hh. simplify_eq.
    exists (start, [start]), p. split; [by apply list_elem_of_singleton|].
    split; [done|]. intros ->. simpl in Hl. by simplify_eq.
Qed.

Lemma dfsStart_measure : dfsMeasure dfsStart < 2 ^ loopFuel g.
Proof.
  unfold dfsMeasure, dfsStart, entryCost, loopFuel.
  cbn [stack fmap list_fmap sum_list sum_list_with snd length].
  assert (size dfsNodes ≤ S (size (universe g))) as Hn.
  { unfold dfsNodes. rewrite (size_union_alt {[start]}), size_singleton.
    assert (size (universe g ∖ {[start]}) ≤ size (universe g)); [|lia].
    apply subseteq_size. set_solver. }
  assert (1 ≤ size dfsNodes).
  { unfold dfsNodes. etrans; [|apply (subseteq_size {[start]})]; [|set_solver].
    by rewrite size_singleton. }
  replace (S (size dfsNodes - 1)) with (size dfsNodes) by lia.
  pose proof (Nat.pow_le_mono_r 2 (size dfsNodes) (S (size (universe g)))).
  pose proof (Nat.pow_nonzero 2 (size dfsNodes)).
  rewrite (Nat.pow_succ_r' 2 (S (size (universe g)))).
  unfold id. lia.
Qed.

Lemma dfs_spec :
  ∃ ps, runWhile (dfsBody g target) (loopFuel g) dfsStart = Some ps ∧
        ∀ p, p ∈ ps ↔ SimplePath g start target p.
Proof.
  unfold runWhile.
  destruct (while_terminates (dfsBody g target) DfsInv dfsBody_inv dfsMeasure
              dfsBody_measure (loopFuel g) dfsStart dfsStart_inv dfsStart_measure)
    as [ps Hps].
  rewrite Hps. exists ps. split; [done|].
  eapply (while_exit_inv (dfsBody g target) DfsInv dfsBody_inv
            (λ ps, ∀ p, p ∈ ps ↔ SimplePath g start target p));
    [|apply dfsStart_inv|exact Hps].
  clear ps Hps. intros st ps [Hst Hso Hco]. unfold dfsBody.
  destruct (stack st) as [|[node path] rest] eqn:Hs; [|done]. intros [= <-].
  intros p. split; [by auto|]. intros Hp.
  destruct (Hco p Hp) as [?|(e & ? & He & _)]; [done|].
  by apply elem_of_nil in He.
Qed.

End Dfs.

Lemma SimplePath_refl g x p : SimplePath g x x p ↔ p = [x].
Proof.
  split.
  - intros (Hh & Hl & _ & Hnd). destruct p as [|y p]; [done|].
    simpl in Hh. simplify_eq. destruct p as [|z p] using rev_ind; [done|].
    exfalso. rewrite app_comm_cons, last_snoc in Hl. simplify_eq.
    apply NoDup_cons in Hnd as [Hnd _]. apply Hnd, elem_of_app. right.
    by apply list_elem_of_singleton.
  - intros ->. repeat split; try done. apply NoDup_singleton.
Qed.

(** The search ends, and it finds exactly the simple paths. *)
Lemma findPathsToAncestorDFS_spec g start target :
  ∃ ps, findPathsToAncestorDFS g start target = Some ps ∧
        ∀ p, p ∈ ps ↔ SimplePath g start target p.
Proof.
  unfold findPathsToAncestorDFS, equals. case_bool_decide as Heq.
  - subst. exists [[target]]. split; [done|]. intros p.
    rewrite SimplePath_refl. apply list_elem_of_singleton.
  - by apply dfs_spec.
Qed.

(** ** Sums of coefficients *)

Definition sumQc (l : list Qc) : Qc := foldr Qcplus 0%Qc l.

Lemma sumQc_app l1 l2 : sumQc (l1 ++ l2) = (sumQc l1 + sumQc l2)%Qc.
Proof. induction l1 as [|x l1 IH]; simpl; [ring|]. rewrite IH. ring. Qed.

Lemma sumQc_nonneg l : Forall (λ x, (0 ≤ x)%Qc) l → (0 ≤ sumQc l)%Qc.
Proof.
  induction 1 as [|x l Hx Hl IH]; simpl; [done|].
  by apply Qcplus_nonneg_nonneg.
Qed.

Lemma fold_left_sumQc {A} (f : A → Qc) (l : list A) (t : Qc) :
  fold_left (λ t x, (t + f x)%Qc) l t = (t + sumQc (f <$> l))%Qc.
Proof.
  revert t. induction l as [|x l IH]; intros t; cbn [fold_left]; [simpl; ring|].
  rewrite IH, fmap_cons. unfold sumQc. cbn [foldr]. ring.
Qed.

(** The sum of a list of results, defined when each of them is. *)
Definition sumOpt (l : list (option Qc)) : option Qc :=
  foldr (λ o acc, x ← o; s ← acc; Some (x + s)%Qc) (Some 0%Qc) l.

Lemma sumOpt_Permutation l1 l2 : l1 ≡ₚ l2 → sumOpt l1 = sumOpt l2.
Proof.
  induction 1 as [|x l1 l2 _ IH|x y l|l1 l2 l3 _ IH1 _ IH2]; simpl.
  - done.
  - by rewrite IH.
  - destruct x as [x|], y as [y|], (sumOpt l) as [s|]; simpl; try done.
    f_equal. ring.
  - congruence.
Qed.

Lemma pow05_pos e : (e ≤ 1074)%Z → (0 < pow05 e)%Qc.
Proof.
  intros He. unfold pow05. destruct (Z.leb_spec e 1074); [|lia].
  unfold Qclt. cbn [this Q2Qc].
  rewrite (Qred_correct ((1 # 2) ^ e)). by apply Qpower_0_lt.
Qed.

Lemma pow05_nonneg e : (0 ≤ pow05 e)%Qc.
Proof.
  unfold pow05. destruct (Z.leb_spec e 1074) as [He|He]; [|done].
  apply Qclt_le_weak. unfold Qclt. cbn [this Q2Qc].
  rewrite (Qred_correct ((1 # 2) ^ e)). by apply Qpower_0_lt.
Qed.

(** ** The engines without their caches

    The recursion of the two memoised files with every cache access left
    out: [v110] gives the engine of version 0.0.6, [v130] the same engine
    with the independent-path filter. *)

Section Reference.
Variable version : Version.

Fixpoint forCommonAncestorsR (calculateInbreeding : option string → option Qc)
    (g : Pedigree) (p1 p2 : string) (commonAncestors : list string)
    (totalF : Qc) : option Qc :=
  match commonAncestors with
  | [] => Some totalF
  | ancestor :: rest =>
      fAncestor ← calculateInbreeding (Some ancestor);
      paths1 ← findPathsToAncestor g (Some p1) (Some ancestor);
      paths2 ← findPathsToAncestor g (Some p2) (Some ancestor);
      forCommonAncestorsR calculateInbreeding g p1 p2 rest
        (accumulateM version fAncestor paths1 paths2 totalF)
  end.

Definition commonAncestorsR (g : Pedigree) (p1 p2 : string) : option (list string) :=
  ancestors1 ← setAdd p1 <$> getAncestorsM version g p1;
  ancestors2 ← setAdd p2 <$> getAncestorsM version g p2;
  Some (filter (λ ancestor, ancestor ∈ ancestors2) ancestors1).

Definition offspringWithR (calculateInbreeding : option string → option Qc)
    (g : Pedigree) (parent1 parent2 : option string) : option Qc :=
  match parent1, parent2 with
  | Some p1, Some p2 =>
      commonAncestors ← commonAncestorsR g p1 p2;
      forCommonAncestorsR calculateInbreeding g p1 p2 commonAncestors 0%Qc
  | _, _ => Some 0%Qc
  end.

Fixpoint inbreedingR (n : nat) (g : Pedigree) (guard : gset string)
    (animal : option string) : option Qc :=
  match animal with
  | None => Some 0%Qc
  | Some id =>
      if decide (id ∈ guard) then Some 0%Qc
      else
        match n with
        | O => None
        | S n' =>
            match getParent1 g id, getParent2 g id with
            | Some p1, Some p2 =>
                offspringWithR (inbreedingR n' g ({[id]} ∪ guard)) g (Some p1) (Some p2)
            | _, _ => Some 0%Qc
            end
        end
  end.

Definition offspringR (n : nat) (g : Pedigree) (guard : gset string)
    (parent1 parent2 : option string) : option Qc :=
  offspringWithR (inbreedingR n g guard) g parent1 parent2.

End Reference.

Lemma V006_forCommonAncestors F g p1 p2 l t :
  V006.forCommonAncestors F g p1 p2 l t = forCommonAncestorsR v110 F g p1 p2 l t.
Proof. reflexivity. Qed.

Lemma V006_calculateOffspringInbreedingWith F g p1 p2 :
  V006.calculateOffspringInbreedingWith F g p1 p2 = offspringWithR v110 F g p1 p2.
Proof.
  destruct p1 as [p1|], p2 as [p2|]; try done. simpl.
  unfold commonAncestorsR, V006.getAncestors, getAncestorsM.
  destruct (getAncestorsFrom ∅ g p1); [|done]. simpl.
  destruct (getAncestorsFrom ∅ g p2); done.
Qed.

Lemma forCommonAncestorsR_ext version F F' g p1 p2 l t :
  (∀ x, x ∈ l → F (Some x) = F' (Some x)) →
  forCommonAncestorsR version F g p1 p2 l t = forCommonAncestorsR version F' g p1 p2 l t.
Proof.
  revert t. induction l as [|x l IH]; intros t HF; cbn [forCommonAncestorsR]; [done|].
  rewrite <-(HF x) by (apply elem_of_cons; by left).
  destruct (F (Some x)); [|done]. cbn [mbind option_bind].
  destruct (findPathsToAncestor g (Some p1) (Some x)); [|done]. cbn [mbind option_bind].
  destruct (findPathsToAncestor g (Some p2) (Some x)); [|done]. cbn [mbind option_bind].
  apply IH. intros y Hy. apply HF, elem_of_cons. by right.
Qed.

Lemma offspringWithR_ext version F F' g p1 p2 :
  (∀ x, F (Some x) = F' (Some x)) →
  offspringWithR version F g p1 p2 = offspringWithR version F' g p1 p2.
Proof.
  intros HF. destruct p1 as [p1|], p2 as [p2|]; try done. unfold offspringWithR.
  destruct (commonAncestorsR version g p1 p2) as [l|]; [|done]. cbn [mbind option_bind].
  apply forCommonAncestorsR_ext. auto.
Qed.

Lemma V006_calculateInbreedingAt n g guard a :
  V006.calculateInbreedingAt n g guard a = inbreedingR v110 n g guard a.
Proof.
  revert guard a. induction n as [|n IH]; intros guard [a|];
    cbn [V006.calculateInbreedingAt inbreedingR]; try done.
  case_decide; [done|].
  destruct (getParent1 g a) as [p1|]; [|done].
  destruct (getParent2 g a) as [p2|]; [|done].
  rewrite V006_calculateOffspringInbreedingWith.
  apply offspringWithR_ext. intros x. apply IH.
Qed.

Lemma V006_calculateOffspringInbreedingAt n g guard p1 p2 :
  V006.calculateOffspringInbreedingAt n g guard p1 p2 = offspringR v110 n g guard p1 p2.
Proof.
  unfold V006.calculateOffspringInbreedingAt, offspringR.
  rewrite V006_calculateOffspringInbreedingWith.
  apply offspringWithR_ext. intros x. apply V006_calculateInbreedingAt.
Qed.

(** ** The coefficient as a sum over common ancestors and path pairs *)

Definition pairWeight (path1 path2 : list string) : Qc :=
  pow05 (Z.of_nat (length path1) - 1 + (Z.of_nat (length path2) - 1) + 1).

(** Whether a version adds the contribution of a path pair. *)
Definition keeps (version : Version) (path1 path2 : list string) : bool :=
  match version with
  | v130 => arePathsIndependent path1 path2
  | v110 => true
  end.

Definition keptWeight (version : Version) (path1 path2 : list string) : Qc :=
  if keeps version path1 path2 then pairWeight path1 path2 else 0%Qc.

Definition weight (version : Version) (paths1 paths2 : list (list string)) : Qc :=
  sumQc ((λ path1, sumQc (keptWeight version path1 <$> paths2)) <$> paths1).

Lemma fold_left_step {A} (step : Qc → A → Qc) (h : A → Qc) (l : list A) (t : Qc) :
  (∀ t x, step t x = (t + h x)%Qc) →
  fold_left step l t = (t + sumQc (h <$> l))%Qc.
Proof.
  intros Hstep. revert t. induction l as [|x l IH]; intros t; cbn [fold_left].
  - simpl. ring.
  - rewrite IH, Hstep, fmap_cons. unfold sumQc. cbn [foldr]. ring.
Qed.

Lemma sumQc_scale (c : Qc) (l : list Qc) :
  sumQc ((λ x, x * c)%Qc <$> l) = (sumQc l * c)%Qc.
Proof.
  induction l as [|x l IH]; [simpl; ring|].
  rewrite !fmap_cons. unfold sumQc in *. cbn [foldr]. rewrite IH. ring.
Qed.

Lemma accumulateM_weight version f paths1 paths2 t :
  accumulateM version f paths1 paths2 t
  = (t + weight version paths1 paths2 * (1 + f))%Qc.
Proof.
  unfold accumulateM, weight.
  rewrite (fold_left_step _ (λ path1,
             sumQc (keptWeight version path1 <$> paths2) * (1 + f))%Qc).
  - f_equal. rewrite <-sumQc_scale, <-list_fmap_compose. done.
  - intros t' path1.
    rewrite (fold_left_step _ (λ path2, keptWeight version path1 path2 * (1 + f))%Qc).
    + f_equal. rewrite <-sumQc_scale, <-list_fmap_compose. done.
    + intros t'' path2. unfold keptWeight, keeps, contribution, pairWeight.
      destruct version; [done|]. destruct (arePathsIndependent path1 path2); ring.
Qed.

Lemma sumQc_plus {A} (f h : A → Qc) (l : list A) :
  sumQc ((λ x, f x + h x)%Qc <$> l) = (sumQc (f <$> l) + sumQc (h <$> l))%Qc.
Proof.
  induction l as [|x l IH]; [simpl; ring|].
  rewrite !fmap_cons. unfold sumQc in *. cbn [foldr]. rewrite IH. ring.
Qed.

Lemma sumQc_zero {A} (l : list A) : sumQc ((λ _, 0%Qc) <$> l) = 0%Qc.
Proof.
  induction l as [|x l IH]; [done|].
  rewrite fmap_cons. unfold sumQc in *. cbn [foldr]. rewrite IH. ring.
Qed.

Lemma sumQc_swap {A B} (f : A → B → Qc) (l1 : list A) (l2 : list B) :
  sumQc ((λ x, sumQc (f x <$> l2)) <$> l1)
  = sumQc ((λ y, sumQc ((λ x, f x y) <$> l1)) <$> l2).
Proof.
  induction l1 as [|x l1 IH].
  - simpl. by rewrite sumQc_zero.
  - rewrite fmap_cons. unfold sumQc at 1. cbn [foldr]. fold (sumQc).
    change (foldr Qcplus 0%Qc) with sumQc. rewrite IH.
    rewrite <-sumQc_plus. f_equal.
Qed.

Lemma sumQc_ext {A} (f h : A → Qc) (l : list A) :
  (∀ x, x ∈ l → f x = h x) → sumQc (f <$> l) = sumQc (h <$> l).
Proof.
  intros Hfh. f_equal. apply list_fmap_ext. intros i x Hx. apply Hfh.
  by eapply list_elem_of_lookup_2.
Qed.

Lemma sumQc_le {A} (f h : A → Qc) (l : list A) :
  (∀ x, x ∈ l → (f x ≤ h x)%Qc) → (sumQc (f <$> l) ≤ sumQc (h <$> l))%Qc.
Proof.
  induction l as [|x l IH]; intros Hfh; [done|].
  rewrite !fmap_cons. unfold sumQc in *. cbn [foldr].
  apply Qcplus_le_compat.
  - apply Hfh, elem_of_cons. by left.
  - apply IH. intros y Hy. apply Hfh, elem_of_cons. by right.
Qed.

Lemma midNodes_disjoint path1 path2 :
  arePathsIndependent path1 path2 = true ↔
  ∀ x, x ∈ midNodes path1 → x ∉ midNodes path2.
Proof.
  unfold arePathsIndependent. destruct (midNodes path1) as [|m l] eqn:Hm.
  - split; [|done]. by intros _ x ?%elem_of_nil.
  - rewrite forallb_forall. split.
    + intros H x Hx Hx2. apply list_elem_of_In, H in Hx2.
      apply negb_true_iff, bool_decide_eq_false in Hx2. apply Hx2.
      by apply elem_of_list_to_set.
    + intros H x Hx. apply negb_true_iff, bool_decide_eq_false.
      rewrite elem_of_list_to_set. intros Hx1. apply (H x Hx1).
      by apply list_elem_of_In.
Qed.

Lemma arePathsIndependent_sym path1 path2 :
  arePathsIndependent path1 path2 = arePathsIndependent path2 path1.
Proof.
  apply eq_true_iff_eq. rewrite !midNodes_disjoint. naive_solver.
Qed.

Lemma keptWeight_sym version path1 path2 :
  keptWeight version path1 path2 = keptWeight version path2 path1.
Proof.
  unfold keptWeight, keeps, pairWeight.
  replace (Z.of_nat (length path2) - 1 + (Z.of_nat (length path1) - 1) + 1)%Z
    with (Z.of_nat (length path1) - 1 + (Z.of_nat (length path2) - 1) + 1)%Z by lia.
  destruct version; [done|]. by rewrite arePathsIndependent_sym.
Qed.

Lemma weight_sym version paths1 paths2 :
  weight version paths1 paths2 = weight version paths2 paths1.
Proof.
  unfold weight. rewrite sumQc_swap. apply sumQc_ext. intros path2 _.
  apply sumQc_ext. intros path1 _. apply keptWeight_sym.
Qed.

Lemma keptWeight_nonneg version path1 path2 : (0 ≤ keptWeight version path1 path2)%Qc.
Proof.
  unfold keptWeight, pairWeight. destruct (keeps version path1 path2); [|done].
  apply pow05_nonneg.
Qed.

Lemma weight_nonneg version paths1 paths2 : (0 ≤ weight version paths1 paths2)%Qc.
Proof.
  unfold weight. apply sumQc_nonneg, Forall_fmap, Forall_forall. intros path1 _.
  apply sumQc_nonneg, Forall_fmap, Forall_forall. intros path2 _.
  apply keptWeight_nonneg.
Qed.

Lemma weight_version paths1 paths2 :
  (weight v130 paths1 paths2 ≤ weight v110 paths1 paths2)%Qc.
Proof.
  unfold weight. apply sumQc_le. intros path1 _. apply sumQc_le. intros path2 _.
  unfold keptWeight, keeps. destruct (arePathsIndependent path1 path2); [done|].
  apply pow05_nonneg.
Qed.

(** The share of one common ancestor in the coefficient of [p1] and [p2]. *)
Definition termR (version : Version) (F : option string → option Qc)
    (g : Pedigree) (p1 p2 ancestor : string) : option Qc :=
  fAncestor ← F (Some ancestor);
  paths1 ← findPathsToAncestor g (Some p1) (Some ancestor);
  paths2 ← findPathsToAncestor g (Some p2) (Some ancestor);
  Some (weight version paths1 paths2 * (1 + fAncestor))%Qc.

Lemma forCommonAncestorsR_sum version F g p1 p2 l t :
  forCommonAncestorsR version F g p1 p2 l t
  = Qcplus t <$> sumOpt (termR version F g p1 p2 <$> l).
Proof.
  revert t. induction l as [|x l IH]; intros t.
  - simpl. f_equal. ring.
  - rewrite fmap_cons. cbn [forCommonAncestorsR sumOpt foldr].
    change (foldr _ _ ?l) with (sumOpt l).
    set (rest := sumOpt (termR version F g p1 p2 <$> l)) in *.
    unfold termR.
    destruct (F (Some x)) as [f|]; [|done]. cbn [mbind option_bind].
    destruct (findPathsToAncestor g (Some p1) (Some x)) as [paths1|]; [|done].
    cbn [mbind option_bind].
    destruct (findPathsToAncestor g (Some p2) (Some x)) as [paths2|]; [|done].
    cbn [mbind option_bind]. rewrite IH, accumulateM_weight.
    destruct rest as [s|]; [|done].
    simpl. f_equal. ring.
Qed.

Lemma termR_sym version F g p1 p2 x :
  termR version F g p1 p2 x = termR version F g p2 p1 x.
Proof.
  unfold termR. destruct (F (Some x)) as [f|]; [|done]. cbn [mbind option_bind].
  destruct (findPathsToAncestor g (Some p1) (Some x)) as [paths1|],
    (findPathsToAncestor g (Some p2) (Some x)) as [paths2|]; try done.
  cbn [mbind option_bind]. by rewrite weight_sym.
Qed.

Lemma getAncestorsM_spec version g a :
  ∃ l, getAncestorsM version g a = Some l ∧ NoDup (setAdd a l) ∧
       ∀ x, x ∈ setAdd a l ↔ rtc (isParent g) a x.
Proof.
  destruct (getAncestorsFrom_spec g a
              (match version with v130 => {[a]} | v110 => ∅ end))
    as (l & Hl & Hnd & Hsound & Hcomplete).
  { destruct version; set_solver. }
  exists l. split; [done|]. split; [by apply setAdd_NoDup|].
  intros x. rewrite setAdd_elem, rtc_tc. unfold isAncestor in *. naive_solver.
Qed.

Lemma commonAncestorsR_spec version g p1 p2 :
  ∃ l, commonAncestorsR version g p1 p2 = Some l ∧ NoDup l ∧
       ∀ x, x ∈ l ↔ rtc (isParent g) p1 x ∧ rtc (isParent g) p2 x.
Proof.
  unfold commonAncestorsR.
  destruct (getAncestorsM_spec version g p1) as (l1 & -> & Hnd1 & Hl1).
  destruct (getAncestorsM_spec version g p2) as (l2 & -> & Hnd2 & Hl2).
  cbn [fmap option_fmap option_map mbind option_bind]. eexists. split; [done|].
  split; [by apply NoDup_filter|].
  intros x. rewrite list_elem_of_filter, Hl1, Hl2. tauto.
Qed.

Lemma commonAncestorsR_perm version version' g p1 p2 l l' :
  commonAncestorsR version g p1 p2 = Some l →
  commonAncestorsR version' g p2 p1 = Some l' → l ≡ₚ l'.
Proof.
  intros Hl Hl'.
  destruct (commonAncestorsR_spec version g p1 p2) as (? & ? & Hnd & Hin).
  destruct (commonAncestorsR_spec version' g p2 p1) as (? & ? & Hnd' & Hin').
  simplify_eq. apply NoDup_Permutation; [done..|].
  intros x. rewrite Hin, Hin'. tauto.
Qed.

Lemma offspringWithR_sum version F g p1 p2 :
  offspringWithR version F g (Some p1) (Some p2)
  = l ← commonAncestorsR version g p1 p2; sumOpt (termR version F g p1 p2 <$> l).
Proof.
  unfold offspringWithR. destruct (commonAncestorsR version g p1 p2) as [l|]; [|done].
  cbn [mbind option_bind]. rewrite forCommonAncestorsR_sum.
  destruct (sumOpt _) as [s|]; [|done]. simpl. f_equal. ring.
Qed.

(** The order of the two parents does not matter. *)
Lemma offspringWithR_sym version F g parent1 parent2 :
  offspringWithR version F g parent1 parent2
  = offspringWithR version F g parent2 parent1.
Proof.
  destruct parent1 as [p1|], parent2 as [p2|]; try done.
  rewrite !offspringWithR_sum.
  destruct (commonAncestorsR_spec version g p1 p2) as (l & Hl & _).
  destruct (commonAncestorsR_spec version g p2 p1) as (l' & Hl' & _).
  rewrite Hl, Hl'. cbn [mbind option_bind].
  rewrite (sumOpt_Permutation _ (termR version F g p1 p2 <$> l')).
  - f_equal. apply list_fmap_ext. intros _ x _. apply termR_sym.
  - apply fmap_Permutation. by eapply commonAncestorsR_perm.
Qed.

Lemma sumOpt_Some {A} (f : A → option Qc) (l : list A) s :
  sumOpt (f <$> l) = Some s →
  ∃ h : A → Qc, (∀ x, x ∈ l → f x = Some (h x)) ∧ s = sumQc (h <$> l).
Proof.
  revert s. induction l as [|x l IH]; intros s.
  - intros [= <-]. exists (λ _, 0%Qc). split; [|done]. by intros x ?%elem_of_nil.
  - rewrite fmap_cons. cbn [sumOpt foldr]. change (foldr _ _ ?l) with (sumOpt l).
    destruct (f x) as [a|] eqn:Hx; [|done]. cbn [mbind option_bind].
    destruct (sumOpt (f <$> l)) as [s'|]; [|done]. intros [= <-].
    destruct (IH s' eq_refl) as (h & Hh & ->).
    exists (λ y, default (h y) (f y)). split.
    + intros y [->|Hy]%elem_of_cons; [by rewrite Hx|]. by rewrite (Hh y Hy).
    + rewrite fmap_cons. unfold sumQc. cbn [foldr]. rewrite Hx. simpl. f_equal.
      apply sumQc_ext. intros y Hy. by rewrite (Hh y Hy).
Qed.

Lemma sumOpt_is_Some {A} (f : A → option Qc) (l : list A) :
  (∀ x, x ∈ l → is_Some (f x)) → is_Some (sumOpt (f <$> l)).
Proof.
  induction l as [|x l IH]; intros Hf; [by eexists|].
  rewrite fmap_cons. cbn [sumOpt foldr]. change (foldr _ _ ?l) with (sumOpt l).
  destruct (Hf x) as [a ->]; [apply elem_of_cons; by left|].
  destruct IH as [s ->]; [intros y Hy; apply Hf, elem_of_cons; by right|].
  by eexists.
Qed.

Lemma findPathsToAncestor_is_Some g s t : is_Some (findPathsToAncestor g s t).
Proof.
  destruct s as [s|], t as [t|]; try by eexists.
  destruct (findPathsToAncestorDFS_spec g s t) as (ps & Hps & _). by eexists.
Qed.

Lemma termR_is_Some version F g p1 p2 x :
  is_Some (F (Some x)) → is_Some (termR version F g p1 p2 x).
Proof.
  intros [f Hf]. unfold termR. rewrite Hf. cbn [mbind option_bind].
  destruct (findPathsToAncestor_is_Some g (Some p1) (Some x)) as [? ->].
  destruct (findPathsToAncestor_is_Some g (Some p2) (Some x)) as [? ->].
  by eexists.
Qed.

Lemma termR_Some version F g p1 p2 x t :
  termR version F g p1 p2 x = Some t →
  ∃ f paths1 paths2, F (Some x) = Some f ∧
    findPathsToAncestor g (Some p1) (Some x) = Some paths1 ∧
    findPathsToAncestor g (Some p2) (Some x) = Some paths2 ∧
    t = (weight version paths1 paths2 * (1 + f))%Qc.
Proof.
  unfold termR. destruct (F (Some x)) as [f|]; [|done]. cbn [mbind option_bind].
  destruct (findPathsToAncestor g (Some p1) (Some x)) as [paths1|]; [|done].
  cbn [mbind option_bind].
  destruct (findPathsToAncestor g (Some p2) (Some x)) as [paths2|]; [|done].
  intros [= <-]. by eauto 10.
Qed.

(** What the callback returns matters only on the common ancestors. *)
Lemma offspringWithR_mono version F F' g p1 p2 f :
  offspringWithR version F g (Some p1) (Some p2) = Some f →
  (∀ x fx, rtc (isParent g) p1 x → rtc (isParent g) p2 x →
           F (Some x) = Some fx → F' (Some x) = Some fx) →
  offspringWithR version F' g (Some p1) (Some p2) = Some f.
Proof.
  rewrite !offspringWithR_sum.
  destruct (commonAncestorsR_spec version g p1 p2) as (l & -> & _ & Hin).
  cbn [mbind option_bind]. intros Hs HF. rewrite <-Hs. f_equal.
  apply list_fmap_ext. intros _ x Hx%list_elem_of_lookup_2.
  destruct (sumOpt_Some _ _ _ Hs) as (h & Hh & _).
  destruct (termR_Some _ _ _ _ _ _ _ (Hh x Hx)) as (fx & ? & ? & Hfx & _).
  apply Hin in Hx as [??]. unfold termR. by rewrite Hfx, (HF x fx).
Qed.

(** ** Termination and sign *)

Lemma offspringWithR_is_Some version F g parent1 parent2 :
  (∀ p1 p2 x, parent1 = Some p1 → parent2 = Some p2 →
     rtc (isParent g) p1 x → rtc (isParent g) p2 x → is_Some (F (Some x))) →
  is_Some (offspringWithR version F g parent1 parent2).
Proof.
  intros HF. destruct parent1 as [p1|], parent2 as [p2|]; try by eexists.
  rewrite offspringWithR_sum.
  destruct (commonAncestorsR_spec version g p1 p2) as (l & -> & _ & Hin).
  cbn [mbind option_bind]. apply sumOpt_is_Some. intros x Hx.
  apply termR_is_Some. apply Hin in Hx as [??]. by eapply HF.
Qed.

Lemma getParent_dom g a p :
  getParent1 g a = Some p ∨ getParent2 g a = Some p → a ∈ dom g.
Proof.
  unfold getParent1, getParent2. intros H. apply elem_of_dom.
  destruct (g !! a); [by eexists|]. naive_solver.
Qed.

(** A recursion depth of one more than the number of animals outside the
    guard set is enough. *)
Lemma inbreedingR_is_Some version g n guard animal :
  size (universe g ∖ guard) < n → is_Some (inbreedingR version n g guard animal).
Proof.
  revert guard animal. induction n as [|n IH]; intros guard [a|] Hn;
    cbn [inbreedingR]; try by eexists.
  { lia. }
  case_decide as Hg; [by eexists|].
  destruct (getParent1 g a) as [p1|] eqn:Hp1; [|by eexists].
  destruct (getParent2 g a) as [p2|] eqn:Hp2; [|by eexists].
  apply offspringWithR_is_Some. intros _ _ x _ _ _ _. apply IH.
  assert (a ∈ universe g).
  { apply elem_of_union_l. eapply getParent_dom. eauto. }
  assert (universe g ∖ guard = {[a]} ∪ universe g ∖ ({[a]} ∪ guard)) as Heq.
  { apply set_eq. intros y. destruct (decide (y = a)); set_solver. }
  rewrite Heq, (size_union {[a]}), size_singleton in Hn by set_solver. lia.
Qed.

Lemma offspringR_is_Some version g guard parent1 parent2 :
  is_Some (offspringR version (depthFuel g) g guard parent1 parent2).
Proof.
  apply offspringWithR_is_Some. intros. apply inbreedingR_is_Some.
  unfold depthFuel. apply Nat.lt_succ_r, subseteq_size. set_solver.
Qed.

Lemma termR_nonneg version F g p1 p2 x t :
  (∀ f, F (Some x) = Some f → (0 ≤ f)%Qc) →
  termR version F g p1 p2 x = Some t → (0 ≤ t)%Qc.
Proof.
  intros HF (f & paths1 & paths2 & Hf & _ & _ & ->)%termR_Some.
  apply Qcmult_nonneg_nonneg; [apply weight_nonneg|].
  apply Qcplus_nonneg_nonneg; [done|]. by apply HF.
Qed.

Lemma offspringWithR_nonneg version F g parent1 parent2 f :
  (∀ x fx, F (Some x) = Some fx → (0 ≤ fx)%Qc) →
  offspringWithR version F g parent1 parent2 = Some f → (0 ≤ f)%Qc.
Proof.
  intros HF. destruct parent1 as [p1|], parent2 as [p2|]; try by intros [= <-].
  rewrite offspringWithR_sum.
  destruct (commonAncestorsR version g p1 p2) as [l|]; [|done].
  cbn [mbind option_bind]. intros (h & Hh & ->)%sumOpt_Some.
  apply sumQc_nonneg, Forall_fmap, Forall_forall. intros x Hx.
  eapply termR_nonneg; [|by apply Hh]. by apply HF.
Qed.

Lemma inbreedingR_nonneg version g n guard animal f :
  inbreedingR version n g guard animal = Some f → (0 ≤ f)%Qc.
Proof.
  revert guard animal f. induction n as [|n IH]; intros guard [a|] f;
    cbn [inbreedingR]; try by intros [= <-].
  { case_decide; [by intros [= <-]|done]. }
  case_decide; [by intros [= <-]|].
  destruct (getParent1 g a) as [p1|]; [|by intros [= <-]].
  destruct (getParent2 g a) as [p2|]; [|by intros [= <-]].
  apply offspringWithR_nonneg. intros x fx. apply IH.
Qed.

Lemma offspringR_nonneg version g n guard parent1 parent2 f :
  offspringR version n g guard parent1 parent2 = Some f → (0 ≤ f)%Qc.
Proof. apply offspringWithR_nonneg. intros x fx. apply inbreedingR_nonneg. Qed.

(** ** Acyclic pedigrees: the guard set and the fuel are immaterial *)

Lemma inbreedingR_canonical version g n guard a f m guard' :
  Acyclic g →
  inbreedingR version n g guard (Some a) = Some f →
  (∀ y, y ∈ guard → ¬ rtc (isParent g) a y) →
  n ≤ m → guard' ⊆ guard →
  inbreedingR version m g guard' (Some a) = Some f.
Proof.
  intros Hacyclic. revert guard a f m guard'.
  induction n as [|n IH]; intros guard a f m guard' Hf Hguard Hnm Hsub;
    cbn [inbreedingR] in Hf;
    (case_decide as Ha; [by destruct (Hguard a Ha)|]); [done|].
  destruct m as [|m]; [lia|]. cbn [inbreedingR].
  case_decide as Ha'; [set_solver|].
  destruct (getParent1 g a) as [p1|] eqn:Hp1; [|done].
  destruct (getParent2 g a) as [p2|] eqn:Hp2; [|done].
  eapply offspringWithR_mono; [exact Hf|].
  intros x fx Hx _ Hfx.
  assert (isAncestor g a x) as Hax.
  { eapply tc_rtc_r; [|done]. apply tc_once. by left. }
  eapply IH; [done| |lia|set_solver].
  intros y [->%elem_of_singleton|Hy]%elem_of_union Hxy.
  - apply (Hacyclic a). by eapply tc_rtc_r.
  - apply (Hguard y Hy). etrans; [|done]. by apply tc_rtc.
Qed.

(** ** Full accumulation against the independent-path filter *)

Lemma termR_version F130 F110 g p1 p2 x t130 t110 :
  (∀ f130 f110, F130 (Some x) = Some f130 → F110 (Some x) = Some f110 →
     (0 ≤ f130)%Qc ∧ (f130 ≤ f110)%Qc) →
  termR v130 F130 g p1 p2 x = Some t130 →
  termR v110 F110 g p1 p2 x = Some t110 →
  (t130 ≤ t110)%Qc.
Proof.
  intros HF (f130 & paths1 & paths2 & Hf130 & H1 & H2 & ->)%termR_Some
            (f110 & paths1' & paths2' & Hf110 & H1' & H2' & ->)%termR_Some.
  simplify_eq. destruct (HF _ _ Hf130 Hf110) as [H0 Hle].
  etrans; [apply Qcmult_le_compat_r; [apply weight_version|]|].
  { by apply Qcplus_nonneg_nonneg. }
  apply Qcmult_le_mono_nonneg_l; [apply weight_nonneg|].
  by apply Qcplus_le_mono_l.
Qed.

Lemma offspringWithR_version F130 F110 g parent1 parent2 f130 f110 :
  (∀ x a b, F130 (Some x) = Some a → F110 (Some x) = Some b →
     (0 ≤ a)%Qc ∧ (a ≤ b)%Qc) →
  offspringWithR v130 F130 g parent1 parent2 = Some f130 →
  offspringWithR v110 F110 g parent1 parent2 = Some f110 →
  (f130 ≤ f110)%Qc.
Proof.
  intros HF. destruct parent1 as [p1|], parent2 as [p2|];
    try by (intros [= <-] [= <-]).
  rewrite !offspringWithR_sum.
  destruct (commonAncestorsR_spec v130 g p1 p2) as (l & Hl & Hnd & Hin).
  destruct (commonAncestorsR_spec v110 g p1 p2) as (l' & Hl' & Hnd' & Hin').
  rewrite Hl, Hl'. cbn [mbind option_bind].
  rewrite (sumOpt_Permutation (_ <$> l') (termR v110 F110 g p1 p2 <$> l)).
  2:{ apply fmap_Permutation, NoDup_Permutation; [done..|].
      intros x. rewrite Hin, Hin'. tauto. }
  intros (h & Hh & ->)%sumOpt_Some (h' & Hh' & ->)%sumOpt_Some.
  apply sumQc_le. intros x Hx. eapply termR_version; [|by apply Hh|by apply Hh'].
  apply HF.
Qed.

Lemma inbreedingR_version g n guard animal f130 f110 :
  inbreedingR v130 n g guard animal = Some f130 →
  inbreedingR v110 n g guard animal = Some f110 →
  (f130 ≤ f110)%Qc.
Proof.
  revert guard animal f130 f110. induction n as [|n IH]; intros guard [a|] f130 f110;
    cbn [inbreedingR]; try by (intros [= <-] [= <-]).
  { case_decide; [by intros [= <-] [= <-]|done]. }
  case_decide; [by intros [= <-] [= <-]|].
  destruct (getParent1 g a) as [p1|]; [|by intros [= <-] [= <-]].
  destruct (getParent2 g a) as [p2|]; [|by intros [= <-] [= <-]].
  apply offspringWithR_version. intros x a' b Ha' Hb. split.
  - by eapply inbreedingR_nonneg.
  - by eapply IH.
Qed.

Lemma offspringR_version g n guard parent1 parent2 f130 f110 :
  offspringR v130 n g guard parent1 parent2 = Some f130 →
  offspringR v110 n g guard parent1 parent2 = Some f110 →
  (f130 ≤ f110)%Qc.
Proof.
  apply offspringWithR_version. intros x a b Ha Hb. split.
  - by eapply inbreedingR_nonneg.
  - by eapply inbreedingR_version.
Qed.

(** ** The caches are transparent on acyclic pedigrees *)

Lemma rtc_isParent_universe g a x : rtc (isParent g) a x → x = a ∨ x ∈ universe g.
Proof.
  intros [->|H]%rtc_tc; [by left|]. right. revert x H.
  apply (tc_ind_r (λ x, x ∈ universe g)); intros; by eapply isParent_universe.
Qed.

(** No two pairs of identifiers give the same cache key. *)
Definition KeysInjective (ids : gset string) : Prop :=
  ∀ a b a' b', a ∈ ids → b ∈ ids → a' ∈ ids → b' ∈ ids →
    (offspringKey a b = offspringKey a' b' → a = a' ∧ b = b') ∧
    (pathKeyOf a b = pathKeyOf a' b' → a = a' ∧ b = b').

Section MemoSound.
Variable localeCompare : string → string → Z.
Variable version : Version.
Variable g : Pedigree.
Variable ids : gset string.
Hypothesis acyclic : Acyclic g.
Hypothesis ids_universe : universe g ⊆ ids.
Hypothesis keys_injective : KeysInjective ids.

(** The value every cache entry must hold. *)
Definition valF (a : string) : option Qc :=
  inbreedingR version (depthFuel g) g ∅ (Some a).

Definition valOff (a b : string) : option Qc :=
  offspringR version (depthFuel g) g ∅ (Some a) (Some b).

Record Sound (c : Calculator) : Prop := {
  sound_inbreeding : ∀ id f, inbreedingCache c !! id = Some f → valF id = Some f;
  sound_offspring : ∀ key f, offspringInbreedingCache c !! key = Some f →
    ∃ a b, a ∈ ids ∧ b ∈ ids ∧ key = offspringKey a b ∧ valOff a b = Some f;
  sound_paths : ∀ key ps, pathCache c !! key = Some ps →
    ∃ s t, s ∈ ids ∧ t ∈ ids ∧ key = pathKeyOf s t ∧
           findPathsToAncestorDFS g s t = Some ps
}.

Lemma newCalculator_Sound : Sound newCalculator.
Proof. split; simpl; intros ??; by rewrite lookup_empty. Qed.

Lemma findPathsToAncestorWithCache_sound s t c ps :
  s ∈ ids → t ∈ ids → Sound c →
  findPathsToAncestorDFS g s t = Some ps →
  ∃ c', findPathsToAncestorWithCache g (Some s) (Some t) c = Some (ps, c') ∧ Sound c'.
Proof.
  intros Hs Ht Hc Hps. unfold findPathsToAncestorWithCache.
  destruct (pathCache c !! pathKeyOf s t) as [cached|] eqn:Hcache.
  - exists c. split; [|done]. do 2 f_equal.
    destruct (sound_paths c Hc _ _ Hcache) as (s' & t' & Hs' & Ht' & Hkey & Hdfs).
    apply keys_injective in Hkey as [<- <-]; [|done..]. congruence.
  - unfold mbindM, liftFuel, setPaths, ret. rewrite Hps. eexists. split; [done|].
    destruct Hc as [H1 H2 H3]. split; simpl; [done|done|].
    intros key ps' [[<- <-]|[_ Hl]]%lookup_insert_Some; [|by eauto].
    by exists s, t.
Qed.

Section Callback.
Variable FM : option string → Method Qc.
Variable FR : option string → option Qc.
Variables p1 p2 : string.
Hypothesis p1_ids : p1 ∈ ids.
Hypothesis p2_ids : p2 ∈ ids.

(** The callback, a memoised [calculateInbreeding], agrees with its
    cache-free counterpart on the common ancestors of [p1] and [p2]. *)
Hypothesis callback : ∀ x c fx,
  rtc (isParent g) p1 x → rtc (isParent g) p2 x → Sound c →
  FR (Some x) = Some fx → ∃ c', FM (Some x) c = Some (fx, c') ∧ Sound c'.

Hypothesis canonical : ∀ x fx,
  rtc (isParent g) p1 x → rtc (isParent g) p2 x →
  FR (Some x) = Some fx → valF x = Some fx.

Lemma common_ids x : rtc (isParent g) p1 x → x ∈ ids.
Proof. intros [->|?]%rtc_isParent_universe; [done|]. by apply ids_universe. Qed.

Lemma forCommonAncestorsM_sound q1 q2 l t c f :
  q1 ∈ ids → q2 ∈ ids →
  (∀ x, x ∈ l → rtc (isParent g) p1 x ∧ rtc (isParent g) p2 x) →
  Sound c →
  forCommonAncestorsR version FR g q1 q2 l t = Some f →
  ∃ c', forCommonAncestorsM version FM g q1 q2 l t c = Some (f, c') ∧ Sound c'.
Proof.
  intros Hq1 Hq2. revert t c. induction l as [|x l IH]; intros t c Hl Hc;
    cbn [forCommonAncestorsR forCommonAncestorsM].
  { intros [= <-]. by exists c. }
  destruct (Hl x) as [Hx1 Hx2]; [apply elem_of_cons; by left|].
  destruct (FR (Some x)) as [fx|] eqn:Hfx; [|done]. cbn [mbind option_bind].
  destruct (findPathsToAncestor g (Some q1) (Some x)) as [paths1|] eqn:H1; [|done].
  cbn [mbind option_bind].
  destruct (findPathsToAncestor g (Some q2) (Some x)) as [paths2|] eqn:H2; [|done].
  cbn [mbind option_bind]. intros Hf.
  destruct (callback x c fx Hx1 Hx2 Hc Hfx) as (c1 & HFM & Hc1).
  destruct (findPathsToAncestorWithCache_sound q1 x c1 paths1)
    as (c2 & HP1 & Hc2); [done|by apply common_ids|done|done|].
  destruct (findPathsToAncestorWithCache_sound q2 x c2 paths2)
    as (c3 & HP2 & Hc3); [done|by apply common_ids|done|done|].
  destruct (IH (accumulateM version fx paths1 paths2 t) c3) as (c4 & HM & Hc4);
    [|done|done|].
  { intros y Hy. apply Hl, elem_of_cons. by right. }
  exists c4. split; [|done].
  unfold mbindM at 1. rewrite HFM. unfold mbindM at 1. rewrite HP1.
  unfold mbindM at 1. rewrite HP2. done.
Qed.

Lemma valOff_canonical q1 q2 f :
  (∀ x, rtc (isParent g) q1 x ∧ rtc (isParent g) q2 x →
        rtc (isParent g) p1 x ∧ rtc (isParent g) p2 x) →
  offspringWithR version FR g (Some q1) (Some q2) = Some f →
  valOff q1 q2 = Some f.
Proof.
  intros Hq Hf. unfold valOff, offspringR. eapply offspringWithR_mono; [done|].
  intros x fx Hx1 Hx2 Hfx. destruct (Hq x) as [??]; [done|]. by apply canonical.
Qed.

Lemma calculateOffspringInbreedingWithM_sound c f :
  Sound c →
  offspringWithR version FR g (Some p1) (Some p2) = Some f →
  ∃ c', calculateOffspringInbreedingWithM localeCompare version FM g
          (Some p1) (Some p2) c = Some (f, c') ∧ Sound c'.
Proof.
  intros Hc Hf. unfold calculateOffspringInbreedingWithM.
  assert (∃ q1 q2,
    (if (0 <? localeCompare p1 p2)%Z then (p2, p1) else (p1, p2)) = (q1, q2) ∧
    q1 ∈ ids ∧ q2 ∈ ids ∧
    (∀ x, rtc (isParent g) q1 x ∧ rtc (isParent g) q2 x →
          rtc (isParent g) p1 x ∧ rtc (isParent g) p2 x) ∧
    offspringWithR version FR g (Some q1) (Some q2) = Some f)
    as (q1 & q2 & -> & Hq1 & Hq2 & Hq & Hf').
  { destruct (0 <? localeCompare p1 p2)%Z.
    - exists p2, p1. split_and!; try done; [tauto|]. by rewrite offspringWithR_sym.
    - exists p1, p2. split_and!; try done. }
  pose proof (valOff_canonical q1 q2 f Hq Hf') as Hval.
  destruct (offspringInbreedingCache c !! offspringKey q1 q2) as [cached|] eqn:Hcache.
  { exists c. split; [|done]. do 2 f_equal.
    destruct (sound_offspring c Hc _ _ Hcache) as (a & b & Ha & Hb & Hkey & Hab).
    apply keys_injective in Hkey as [<- <-]; [|done..]. congruence. }
  assert (∀ c0, Sound c0 →
            Sound (mkCalculator (inbreedingCache c0)
                     (<[offspringKey q1 q2 := f]> (offspringInbreedingCache c0))
                     (pathCache c0))) as Hset.
  { intros c0 [H1 H2 H3]. split; simpl; [done| |done].
    intros key f' [[<- <-]|[_ Hl]]%lookup_insert_Some; [|by eauto].
    by exists q1, q2. }
  rewrite offspringWithR_sum in Hf'. unfold commonAncestorsR in Hf'.
  destruct (getAncestorsM_spec version g q1) as (l1 & Hl1 & _ & Hin1).
  destruct (getAncestorsM_spec version g q2) as (l2 & Hl2 & _ & Hin2).
  rewrite Hl1, Hl2 in Hf'.
  cbn [fmap option_fmap option_map mbind option_bind] in Hf'.
  unfold mbindM at 1. unfold liftFuel at 1. rewrite Hl1.
  cbn [fmap option_fmap option_map].
  unfold mbindM at 1. unfold liftFuel at 1. rewrite Hl2.
  cbn [fmap option_fmap option_map].
  set (l := filter (λ ancestor, ancestor ∈ setAdd q2 l2) (setAdd q1 l1)) in *.
  assert (∀ x, x ∈ l → rtc (isParent g) p1 x ∧ rtc (isParent g) p2 x) as Hl.
  { intros x [Hx2 Hx1]%list_elem_of_filter. apply Hq. by rewrite <-Hin1, <-Hin2. }
  destruct (returnsEarly version l) eqn:Hearly.
  { unfold returnsEarly in Hearly. destruct version, l; try done.
    simpl in Hf'. simplify_eq.
    unfold mbindM, setOffspringInbreeding, ret. eexists. split; [done|].
    by apply Hset. }
  destruct (forCommonAncestorsM_sound q1 q2 l 0%Qc c f) as (c1 & HM & Hc1);
    [done|done|done|done| |].
  { rewrite forCommonAncestorsR_sum. rewrite Hf'. simpl. f_equal. ring. }
  unfold mbindM at 1. rewrite HM.
  unfold mbindM, setOffspringInbreeding, ret. eexists. split; [done|].
  by apply Hset.
Qed.

End Callback.

Lemma calculateInbreedingM_sound n guard a c f :
  n ≤ depthFuel g → a ∈ ids →
  (∀ y, y ∈ guard → ¬ rtc (isParent g) a y) →
  Sound c →
  inbreedingR version n g guard (Some a) = Some f →
  ∃ c', calculateInbreedingM localeCompare version n g guard (Some a) c
        = Some (f, c') ∧ Sound c'.
Proof.
  revert guard a c f. induction n as [|n IH]; intros guard a c f Hn Ha Hguard Hc Hf.
  all: assert (valF a = Some f) as Hval
    by (eapply inbreedingR_canonical; [done|exact Hf|done|done|set_solver]).
  all: cbn [calculateInbreedingM inbreedingR] in *.
  all: destruct (inbreedingCache c !! a) as [cached|] eqn:Hcache;
    [exists c; split; [|done]; rewrite (sound_inbreeding c Hc _ _ Hcache) in Hval;
     by simplify_eq|].
  all: case_decide as Hin; [by destruct (Hguard a Hin)|].
  { done. }
  assert (∀ c0, Sound c0 →
            Sound (mkCalculator (<[a := f]> (inbreedingCache c0))
                     (offspringInbreedingCache c0) (pathCache c0))) as Hset.
  { intros c0 [H1 H2 H3]. split; simpl; [|done|done].
    intros id f' [[<- <-]|[_ Hl]]%lookup_insert_Some; by eauto. }
  destruct (getParent1 g a) as [p1|] eqn:Hp1.
  2:{ simplify_eq. unfold mbindM, ret, setInbreeding. eexists. split; [done|]. auto. }
  destruct (getParent2 g a) as [p2|] eqn:Hp2.
  2:{ simplify_eq. unfold mbindM, ret, setInbreeding. eexists. split; [done|]. auto. }
  assert (∀ x, rtc (isParent g) p1 x →
            ∀ y, y ∈ {[a]} ∪ guard → ¬ rtc (isParent g) x y) as Hguard'.
  { intros x Hx y [->%elem_of_singleton|Hy]%elem_of_union Hxy.
    - apply (acyclic a). eapply tc_rtc_r; [apply tc_once; by left|].
      etrans; [exact Hx|exact Hxy].
    - apply (Hguard y Hy). etrans; [apply rtc_once; by left|].
      etrans; [exact Hx|exact Hxy]. }
  destruct (calculateOffspringInbreedingWithM_sound
              (calculateInbreedingM localeCompare version n g ({[a]} ∪ guard))
              (inbreedingR version n g ({[a]} ∪ guard)) p1 p2) with (c := c) (f := f)
    as (c1 & HM & Hc1); try done.
  - apply ids_universe. eapply isParent_universe. by left.
  - apply ids_universe. eapply isParent_universe. by right.
  - intros x c0 fx Hx1 Hx2 Hc0 Hfx. apply IH; try done; [lia| |by apply Hguard'].
    destruct (rtc_isParent_universe _ _ _ Hx1) as [->|?]; [|by apply ids_universe].
    apply ids_universe. eapply isParent_universe. by left.
  - intros x fx Hx1 Hx2 Hfx.
    eapply inbreedingR_canonical; [done|exact Hfx|by apply Hguard'|lia|set_solver].
  - unfold mbindM at 1. rewrite HM. unfold mbindM, ret, setInbreeding.
    eexists. split; [done|]. auto.
Qed.

Lemma calculateOffspringInbreedingM_sound p1 p2 c f :
  p1 ∈ ids → p2 ∈ ids → Sound c →
  offspringR version (depthFuel g) g ∅ (Some p1) (Some p2) = Some f →
  ∃ c', calculateOffspringInbreedingM localeCompare version g (Some p1) (Some p2) c
        = Some (f, c') ∧ Sound c'.
Proof.
  intros Hp1 Hp2 Hc Hf. unfold calculateOffspringInbreedingM.
  eapply calculateOffspringInbreedingWithM_sound; try done.
  - intros x c0 fx Hx1 Hx2 Hc0 Hfx.
    apply calculateInbreedingM_sound; try done.
    destruct (rtc_isParent_universe _ _ _ Hx1) as [->|?]; [done|by apply ids_universe].
Qed.

End MemoSound.

(** ** Checks that decide the hypotheses on a given pedigree *)

(** The ancestor closure of [a], itself included, as [getAncestors]
    computes it. *)
Definition closureOf (g : Pedigree) (a : string) : list string :=
  setAdd a (default [] (getAncestorsFrom ∅ g a)).

Lemma closureOf_spec g a x : x ∈ closureOf g a ↔ rtc (isParent g) a x.
Proof.
  unfold closureOf. destruct (getAncestorsM_spec v110 g a) as (l & Hl & _ & Hin).
  unfold getAncestorsM in Hl. rewrite Hl. apply Hin.
Qed.

(** A numbering of the animals in which every parent comes before its
    children. *)
Definition parentBelow (rank : string → nat) (child : string) (p : option string) : bool :=
  match p with
  | Some p => rank p <? rank child
  | None => true
  end.

Definition rankedBy (rank : string → nat) (g : Pedigree) : Prop :=
  map_Forall (λ child a,
    parentBelow rank child (parent1 a) && parentBelow rank child (parent2 a) = true) g.

Global Instance rankedBy_dec rank g : Decision (rankedBy rank g).
Proof. unfold rankedBy. apply _. Defined.

Lemma rankedBy_Acyclic rank g : rankedBy rank g → Acyclic g.
Proof.
  intros Hr.
  assert (∀ x y, isParent g x y → rank y < rank x) as Hstep.
  { intros x y. unfold isParent, getParent1, getParent2.
    destruct (g !! x) as [a|] eqn:Hx; simpl; [|naive_solver].
    pose proof (Hr x a Hx) as [H1 H2]%andb_true_iff. intros [Hp|Hp].
    - rewrite Hp in H1. by apply Nat.ltb_lt in H1.
    - rewrite Hp in H2. by apply Nat.ltb_lt in H2. }
  assert (∀ x y, isAncestor g x y → rank y < rank x) as Htc.
  { intros x y H. induction H as [x y H|x y z H _ IH].
    - by apply Hstep.
    - apply Hstep in H. lia. }
  intros x Hx. apply Htc in Hx. lia.
Qed.

Lemma Acyclic_check rank g : bool_decide (rankedBy rank g) = true → Acyclic g.
Proof. intros H%bool_decide_eq_true. by eapply rankedBy_Acyclic. Qed.

Definition keysInjectiveOn (ids : list string) : Prop :=
  Forall (λ a, Forall (λ b, Forall (λ a', Forall (λ b',
    (offspringKey a b = offspringKey a' b' → a = a' ∧ b = b') ∧
    (pathKeyOf a b = pathKeyOf a' b' → a = a' ∧ b = b')) ids) ids) ids) ids.

Global Instance keysInjectiveOn_dec ids : Decision (keysInjectiveOn ids).
Proof. unfold keysInjectiveOn. apply _. Defined.

Lemma keysInjectiveOn_elements (ids : gset string) :
  keysInjectiveOn (elements ids) → KeysInjective ids.
Proof.
  unfold keysInjectiveOn. rewrite Forall_forall. intros H a b a' b' Ha Hb Ha' Hb'.
  specialize (H a). rewrite elem_of_elements in H. specialize (H Ha).
  rewrite Forall_forall in H. specialize (H b). rewrite elem_of_elements in H.
  specialize (H Hb). rewrite Forall_forall in H. specialize (H a').
  rewrite elem_of_elements in H. specialize (H Ha'). rewrite Forall_forall in H.
  apply H. by apply elem_of_elements.
Qed.

Lemma KeysInjective_check (ids : gset string) :
  bool_decide (keysInjectiveOn (elements ids)) = true → KeysInjective ids.
Proof. intros H%bool_decide_eq_true. by apply keysInjectiveOn_elements. Qed.

(** ** Properties of the engine of version 0.0.6 *)

Lemma V006_calculateOffspringInbreeding g p1 p2 :
  V006.calculateOffspringInbreeding g p1 p2 = offspringR v110 (depthFuel g) g ∅ p1 p2.
Proof. apply V006_calculateOffspringInbreedingAt. Qed.

Lemma V006_calculateInbreeding g a :
  V006.calculateInbreeding g a = inbreedingR v110 (depthFuel g) g ∅ a.
Proof. apply V006_calculateInbreedingAt. Qed.

Lemma SimplePath_rtc g s t p : SimplePath g s t p → rtc (isParent g) s t.
Proof.
  intros (Hh & Hl & Hc & _). revert s Hh Hc.
  induction p as [|x p IH]; intros s Hh Hc; [done|]. simpl in Hh. simplify_eq.
  destruct p as [|y p]; [simpl in Hl; by simplify_eq|].
  destruct Hc as [Hp Hc]. eapply rtc_l; [exact Hp|]. apply IH; try done.
Qed.

(** C7.  The path enumeration ends and returns exactly the simple paths
    from [start] to [target] along parent links; it returns the single
    one-node path when both are the same animal, and no path when
    [target] is not reachable from [start]. *)
Theorem simplePaths_exact (g : Pedigree) (start target : string) :
  (∃ ps, findPathsToAncestorDFS g start target = Some ps ∧
         ∀ p, p ∈ ps ↔ SimplePath g start target p) ∧
  findPathsToAncestorDFS g start start = Some [[start]] ∧
  (findPathsToAncestorDFS g start target = Some [] ∨ rtc (isParent g) start target).
Proof.
  destruct (findPathsToAncestorDFS_spec g start target) as (ps & Hps & Hin).
  split; [by eauto|]. split.
  - unfold findPathsToAncestorDFS, equals. by rewrite bool_decide_eq_true_2.
  - destruct ps as [|p ps]; [by left|]. right.
    eapply SimplePath_rtc, Hin, elem_of_cons. by left.
Qed.

(** X28.  Two animals whose ancestor closures (each with the animal
    itself) share no member have an offspring coefficient of exactly 0: in
    the engine without caches, and in both memoised engines when the
    calculator is freshly created. *)
Theorem no_common_ancestor_zero (g : Pedigree) (a b : string)
    (localeCompare : string → string → Z) (version : Version) :
  (∀ x, rtc (isParent g) a x → rtc (isParent g) b x → False) →
  V006.calculateOffspringInbreeding g (Some a) (Some b) = Some 0%Qc ∧
  fst <$> calculateOffspringInbreedingM localeCompare version g (Some a) (Some b)
            newCalculator = Some 0%Qc.
Proof.
  intros Hdisj.
  assert (∀ v p1 p2, (p1 = a ∧ p2 = b) ∨ (p1 = b ∧ p2 = a) →
            commonAncestorsR v g p1 p2 = Some []) as Hnil.
  { intros v p1 p2 Hp. destruct (commonAncestorsR_spec v g p1 p2) as (l & -> & _ & Hin).
    f_equal. destruct l as [|x l]; [done|]. exfalso.
    destruct (Hin x) as [[H1 H2] _]; [apply elem_of_cons; by left|].
    destruct Hp as [[-> ->]|[-> ->]]; by eapply Hdisj. }
  split.
  - rewrite V006_calculateOffspringInbreeding. unfold offspringR.
    rewrite offspringWithR_sum, Hnil by auto. done.
  - unfold calculateOffspringInbreedingM, calculateOffspringInbreedingWithM.
    assert (∃ q1 q2,
      (if (0 <? localeCompare a b)%Z then (b, a) else (a, b)) = (q1, q2) ∧
      commonAncestorsR version g q1 q2 = Some []) as (q1 & q2 & -> & Hq).
    { destruct (0 <? localeCompare a b)%Z; eexists _, _; split; try done;
        apply Hnil; auto. }
    cbn [newCalculator offspringInbreedingCache]. rewrite lookup_empty.
    unfold commonAncestorsR in Hq.
    destruct (getAncestorsM version g q1) as [l1|]; [|done].
    destruct (getAncestorsM version g q2) as [l2|]; [|done].
    cbn [fmap option_fmap option_map mbind option_bind] in Hq.
    injection Hq as Hq.
    unfold mbindM, liftFuel. cbn [fmap option_fmap option_map]. rewrite Hq.
    by destruct version.
Qed.

Lemma sumQc_elem_le {A} (h : A → Qc) (l : list A) (x : A) :
  (∀ y, y ∈ l → (0 ≤ h y)%Qc) → x ∈ l → (h x ≤ sumQc (h <$> l))%Qc.
Proof.
  induction l as [|y l IH]; intros Hh Hx; [by apply elem_of_nil in Hx|].
  rewrite fmap_cons. unfold sumQc. cbn [foldr]. change (foldr _ _ ?l) with (sumQc l).
  assert (0 ≤ sumQc (h <$> l))%Qc as Hrest.
  { apply sumQc_nonneg, Forall_fmap, Forall_forall. intros z Hz.
    apply Hh, elem_of_cons. by right. }
  assert (0 ≤ h y)%Qc as Hy by (apply Hh, elem_of_cons; by left).
  apply elem_of_cons in Hx as [->|Hx].
  - rewrite <-(Qcplus_0_r (h y)) at 1. by apply Qcplus_le_mono_l.
  - etrans; [apply IH; [|done]|].
    { intros z Hz. apply Hh, elem_of_cons. by right. }
    rewrite <-(Qcplus_0_l (sumQc _)) at 1. by apply Qcplus_le_mono_r.
Qed.

Lemma self_pairing_R version g x :
  ∃ f fx,
    offspringR version (depthFuel g) g ∅ (Some x) (Some x) = Some f ∧
    inbreedingR version (depthFuel g) g ∅ (Some x) = Some fx ∧
    (Q2Qc (1 # 2) * (1 + fx) ≤ f)%Qc ∧ (Q2Qc (1 # 2) ≤ f)%Qc.
Proof.
  destruct (offspringR_is_Some version g ∅ (Some x) (Some x)) as [f Hf0].
  exists f. pose proof Hf0 as Hf.
  unfold offspringR in Hf. rewrite offspringWithR_sum in Hf.
  destruct (commonAncestorsR_spec version g x x) as (l & Hl & _ & Hin).
  rewrite Hl in Hf. cbn [mbind option_bind] in Hf.
  apply sumOpt_Some in Hf as (h & Hh & Hsum).
  assert (x ∈ l) as Hx by (by apply Hin).
  destruct (termR_Some _ _ _ _ _ _ _ (Hh x Hx))
    as (fx & paths1 & paths2 & Hfx & H1 & H2 & Hhx).
  simpl in H1, H2. unfold findPathsToAncestorDFS, equals in H1, H2.
  rewrite bool_decide_eq_true_2 in H1, H2 by done.
  injection H1 as <-. injection H2 as <-.
  exists fx. split; [done|]. split; [done|].
  assert (weight version [[x]] [[x]] = Q2Qc (1 # 2)) as Hw
    by (destruct version; by apply Qc_is_canon).
  assert (Q2Qc (1 # 2) * (1 + fx) ≤ f)%Qc as Hle.
  { rewrite <-Hw, <-Hhx, Hsum. apply sumQc_elem_le; [|done].
    intros y Hy. eapply termR_nonneg; [|by apply Hh].
    intros ?. apply inbreedingR_nonneg. }
  split; [done|]. etrans; [|exact Hle].
  rewrite <-(Qcmult_1_r (Q2Qc (1 # 2))) at 1.
  apply Qcmult_le_mono_nonneg_l; [done|].
  rewrite <-(Qcplus_0_r 1) at 1. apply Qcplus_le_mono_l.
  by eapply inbreedingR_nonneg.
Qed.

(** X29.  In version 0.0.6, pairing an animal with itself yields a
    coefficient of at least 0.5 on every pedigree: the animal is a common
    ancestor of the pair through the one-node path on both sides and
    contributes [0.5 * (1 + F)], [F] its own coefficient. *)
Theorem self_pairing_at_least_half (g : Pedigree) (x : string) :
  ∃ f fx,
    V006.calculateOffspringInbreeding g (Some x) (Some x) = Some f ∧
    V006.calculateInbreeding g (Some x) = Some fx ∧
    (Q2Qc (1 # 2) * (1 + fx) ≤ f)%Qc ∧ (Q2Qc (1 # 2) ≤ f)%Qc.
Proof.
  rewrite V006_calculateOffspringInbreeding, V006_calculateInbreeding.
  apply self_pairing_R.
Qed.

(** The same for a freshly created memoising calculator, where the caches
    are transparent. *)
Lemma self_pairing_memoised localeCompare version g x :
  Acyclic g → KeysInjective (universe g ∪ {[x]}) →
  ∃ f c, calculateOffspringInbreedingM localeCompare version g (Some x) (Some x)
           newCalculator = Some (f, c) ∧ (Q2Qc (1 # 2) ≤ f)%Qc.
Proof.
  intros Hacyclic Hkeys.
  destruct (self_pairing_R version g x) as (f & fx & Hf & _ & _ & Hle).
  destruct (calculateOffspringInbreedingM_sound localeCompare version g
              (universe g ∪ {[x]}) Hacyclic) with (p1 := x) (p2 := x)
              (c := newCalculator) (f := f) as (c & Hc & _);
    [set_solver|done|set_solver|set_solver|apply newCalculator_Sound|done|].
  by exists f, c.
Qed.

(** X26.  In the memoised engines the coefficient of a pair does not
    depend on the order of the two animals when [localeCompare] puts
    their identifiers in one order: on any pedigree and any cache
    content, the two calls return the same value and leave the same
    caches. *)
Theorem memoised_offspring_symmetric (g : Pedigree) (a b : string)
    (localeCompare : string → string → Z) (version : Version) (c : Calculator) :
  (0 <? localeCompare a b)%Z = negb (0 <? localeCompare b a)%Z →
  calculateOffspringInbreedingM localeCompare version g (Some a) (Some b) c
    = calculateOffspringInbreedingM localeCompare version g (Some b) (Some a) c.
Proof.
  intros Hcmp.
  unfold calculateOffspringInbreedingM, calculateOffspringInbreedingWithM.
  rewrite Hcmp. by destruct (0 <? localeCompare b a)%Z.
Qed.

(** A founder: neither parent is known. *)
Definition founder (g : Pedigree) (x : string) : Prop :=
  getParent1 g x = None ∧ getParent2 g x = None.

Lemma founder_closure g x y : founder g x → rtc (isParent g) x y → y = x.
Proof.
  intros [H1 H2] [->|(z & [Hz|Hz] & _)]%rtc_inv; [done|congruence..].
Qed.

Lemma child_closure g a dam sire x :
  getParent1 g a = Some dam → getParent2 g a = Some sire →
  founder g dam → founder g sire →
  rtc (isParent g) a x ↔ x = a ∨ x = dam ∨ x = sire.
Proof.
  intros Hd Hs Hfd Hfs. split.
  - intros [->|(z & [Hz|Hz] & Hzx)]%rtc_inv; [by left|..]; right.
    + rewrite Hd in Hz. simplify_eq. left. by eapply founder_closure.
    + rewrite Hs in Hz. simplify_eq. right. by eapply founder_closure.
  - intros [->|[->| ->]]; [done|apply rtc_once; by left|apply rtc_once; by right].
Qed.

Lemma dfsBody_pop g target node path rest ps :
  dfsBody g target (mkDfs ((node, path) :: rest) ps)
  = inl (processSome (getParent2 g node) target path
           (processSome (getParent1 g node) target path (mkDfs rest ps))).
Proof. done. Qed.

(** The paths from a child of two founders to either of them. *)
Lemma findPaths_child_dam g a dam sire :
  getParent1 g a = Some dam → getParent2 g a = Some sire →
  founder g dam → founder g sire → dam ≠ sire →
  findPathsToAncestorDFS g a dam = Some [[a; dam]].
Proof.
  intros Hd Hs [Hd1 Hd2] [Hs1 Hs2] Hne.
  assert (a ≠ dam) by congruence. assert (a ≠ sire) by congruence.
  unfold findPathsToAncestorDFS, equals. rewrite bool_decide_eq_false_2 by done.
  apply (runWhile_more_fuel _ 2); [unfold loopFuel; lia|].
  unfold runWhile. cbn [while]. rewrite dfsBody_pop, Hd, Hs.
  cbn [processSome]. unfold processParentForDFS at 2. unfold equals.
  rewrite bool_decide_eq_true_2 by done. cbn [stack paths].
  unfold processParentForDFS. rewrite existsb_equals. unfold equals.
  rewrite (bool_decide_eq_false_2 (sire = dam)) by done.
  rewrite (bool_decide_eq_false_2 (sire ∈ [a])) by set_solver.
  cbn [negb stack paths]. rewrite dfsBody_pop, Hs1, Hs2. done.
Qed.

Lemma findPaths_child_sire g a dam sire :
  getParent1 g a = Some dam → getParent2 g a = Some sire →
  founder g dam → founder g sire → dam ≠ sire →
  findPathsToAncestorDFS g a sire = Some [[a; sire]].
Proof.
  intros Hd Hs [Hd1 Hd2] [Hs1 Hs2] Hne.
  assert (a ≠ dam) by congruence. assert (a ≠ sire) by congruence.
  unfold findPathsToAncestorDFS, equals. rewrite bool_decide_eq_false_2 by done.
  apply (runWhile_more_fuel _ 2); [unfold loopFuel; lia|].
  unfold runWhile. cbn [while]. rewrite dfsBody_pop, Hd, Hs.
  cbn [processSome]. unfold processParentForDFS at 2.
  rewrite existsb_equals. unfold equals.
  rewrite (bool_decide_eq_false_2 (dam = sire)) by done.
  rewrite (bool_decide_eq_false_2 (dam ∈ [a])) by set_solver.
  cbn [negb stack paths]. unfold processParentForDFS. unfold equals.
  rewrite bool_decide_eq_true_2 by done.
  cbn [stack paths]. rewrite dfsBody_pop, Hd1, Hd2. done.
Qed.

Lemma founder_inbreedingR version g x :
  founder g x → inbreedingR version (depthFuel g) g ∅ (Some x) = Some 0%Qc.
Proof.
  intros [H1 H2]. unfold depthFuel. cbn [inbreedingR].
  rewrite decide_False by set_solver. by rewrite H1.
Qed.

Lemma full_siblings_R version g a b dam sire :
  a ≠ b → dam ≠ sire →
  getParent1 g a = Some dam → getParent2 g a = Some sire →
  getParent1 g b = Some dam → getParent2 g b = Some sire →
  founder g dam → founder g sire →
  offspringR version (depthFuel g) g ∅ (Some a) (Some b) = Some (Q2Qc (1 # 4)).
Proof.
  intros Hab Hds Had Has Hbd Hbs Hfd Hfs.
  unfold offspringR. rewrite offspringWithR_sum.
  destruct (commonAncestorsR_spec version g a b) as (l & -> & Hnd & Hin).
  cbn [mbind option_bind].
  assert (a ≠ dam ∧ a ≠ sire ∧ b ≠ dam ∧ b ≠ sire) as (? & ? & ? & ?).
  { destruct Hfd, Hfs. split_and!; congruence. }
  assert (l ≡ₚ [dam; sire]) as Hl.
  { apply NoDup_Permutation; [done| |].
    - apply NoDup_cons. split; [set_solver|apply NoDup_singleton].
    - intros x. rewrite Hin, (child_closure g a dam sire), (child_closure g b dam sire)
        by done. set_solver. }
  rewrite (sumOpt_Permutation _ _ (fmap_Permutation _ _ _ Hl)).
  cbn [fmap list_fmap sumOpt foldr]. unfold termR.
  rewrite !founder_inbreedingR by done. cbn [mbind option_bind findPathsToAncestor].
  rewrite (findPaths_child_dam g a dam sire), (findPaths_child_dam g b dam sire),
    (findPaths_child_sire g a dam sire), (findPaths_child_sire g b dam sire) by done.
  cbn [mbind option_bind]. f_equal. destruct version; by apply Qc_is_canon.
Qed.

(** X27.  In version 0.0.6, two distinct animals with the same dam and
    the same sire, both of them founders and not the same animal, have an
    offspring coefficient of 0.25. *)
Theorem full_siblings_quarter (g : Pedigree) (a b dam sire : string) :
  a ≠ b → dam ≠ sire →
  getParent1 g a = Some dam → getParent2 g a = Some sire →
  getParent1 g b = Some dam → getParent2 g b = Some sire →
  founder g dam → founder g sire →
  V006.calculateOffspringInbreeding g (Some a) (Some b) = Some (Q2Qc (1 # 4)).
Proof.
  intros. rewrite V006_calculateOffspringInbreeding. by eapply full_siblings_R.
Qed.

(** The same for a freshly created memoising calculator, where the caches
    are transparent. *)
Lemma full_siblings_memoised localeCompare version g a b dam sire :
  Acyclic g → KeysInjective (universe g ∪ {[a; b]}) →
  a ≠ b → dam ≠ sire →
  getParent1 g a = Some dam → getParent2 g a = Some sire →
  getParent1 g b = Some dam → getParent2 g b = Some sire →
  founder g dam → founder g sire →
  fst <$> calculateOffspringInbreedingM localeCompare version g (Some a) (Some b)
            newCalculator = Some (Q2Qc (1 # 4)).
Proof.
  intros Hacyclic Hkeys Hab Hds Had Has Hbd Hbs Hfd Hfs.
  destruct (calculateOffspringInbreedingM_sound localeCompare version g
              (universe g ∪ {[a; b]}) Hacyclic) with (p1 := a) (p2 := b)
              (c := newCalculator) (f := Q2Qc (1 # 4)) as (c & -> & _);
    [set_solver|done|set_solver|set_solver|apply newCalculator_Sound| |done].
  by eapply full_siblings_R.
Qed.

(** X30.  The same pair gets 0.25 from a freshly created calculator of
    version 1.1.0 or 1.3.0, on an acyclic pedigree whose identifiers give
    pairwise distinct cache keys. *)
Theorem full_siblings_memoised_quarter (localeCompare : string → string → Z)
    (version : Version) (g : Pedigree) (a b dam sire : string) :
  Acyclic g → KeysInjective (universe g ∪ {[a; b]}) →
  a ≠ b → dam ≠ sire →
  getParent1 g a = Some dam → getParent2 g a = Some sire →
  getParent1 g b = Some dam → getParent2 g b = Some sire →
  founder g dam → founder g sire →
  fst <$> calculateOffspringInbreedingM localeCompare version g (Some a) (Some b)
            newCalculator = Some (Q2Qc (1 # 4)).
Proof. apply full_siblings_memoised. Qed.

(** ** Example pedigrees and records *)

(** A record whose sixteen identifier fields hold the given strings, the
    empty string standing for an unknown ancestor as in src/test.js. *)
Definition recordOf (s m f mm mf fm ff mmm mmf mfm mff fmm fmf ffm fff : string)
  : PedigreeRecord :=
  mkRecord (Js.Str s) Js.Undefined (Js.Str m) (Js.Str f)
    (Js.Str mm) (Js.Str mf) (Js.Str fm) (Js.Str ff)
    (Js.Str mmm) (Js.Str mmf) (Js.Str mfm) (Js.Str mff)
    (Js.Str fmm) (Js.Str fmf) (Js.Str ffm) (Js.Str fff).

Definition animalOf (dam sire : string) : Animal :=
  mkAnimal (if String.eqb dam "" then None else Some dam)
           (if String.eqb sire "" then None else Some sire).

(** Full siblings [A] and [B] out of the founders [D] and [S]. *)
Definition siblings : Pedigree :=
  list_to_map [("A", animalOf "D" "S"); ("B", animalOf "D" "S");
               ("D", animalOf "" ""); ("S", animalOf "" "")].

Definition siblingsRank (x : string) : nat :=
  if String.eqb x "A" then 1 else if String.eqb x "B" then 1 else 0.

Lemma full_siblings_quarter_witness :
  V006.calculateOffspringInbreeding siblings (Some "A") (Some "B") = Some (Q2Qc (1 # 4)).
Proof.
  apply (full_siblings_quarter siblings "A" "B" "D" "S");
    [discriminate|discriminate|reflexivity..|split; reflexivity|split; reflexivity].
Defined.

Lemma full_siblings_memoised_quarter_witness :
  fst <$> calculateOffspringInbreedingM codeUnitCompare v130 siblings (Some "A") (Some "B")
            newCalculator = Some (Q2Qc (1 # 4)).
Proof.
  apply (full_siblings_memoised_quarter codeUnitCompare v130 siblings "A" "B" "D" "S");
    [apply (Acyclic_check siblingsRank); vm_compute; reflexivity
    |apply KeysInjective_check; vm_compute; reflexivity
    |discriminate|discriminate|reflexivity..|split; reflexivity|split; reflexivity].
Defined.

Lemma memoised_offspring_symmetric_witness :
  calculateOffspringInbreedingM codeUnitCompare v130 siblings (Some "A") (Some "B")
    newCalculator
  = calculateOffspringInbreedingM codeUnitCompare v130 siblings (Some "B") (Some "A")
      newCalculator.
Proof.
  apply (memoised_offspring_symmetric siblings "A" "B" codeUnitCompare v130 newCalculator).
  reflexivity.
Defined.

(** Whether two closures are disjoint, by running [getAncestors]. *)
Definition disjointClosures (g : Pedigree) (a b : string) : bool :=
  forallb (λ x, negb (bool_decide (x ∈ closureOf g b))) (closureOf g a).

Lemma disjointClosures_spec g a b :
  disjointClosures g a b = true →
  ∀ x, rtc (isParent g) a x → rtc (isParent g) b x → False.
Proof.
  unfold disjointClosures. rewrite forallb_forall.
  intros H x Ha%closureOf_spec Hb%closureOf_spec.
  apply list_elem_of_In, H, negb_true_iff, bool_decide_eq_false in Ha. done.
Qed.

(** [A] and [B] with separate, unrelated parents. *)
Definition strangers : Pedigree :=
  list_to_map [("A", animalOf "D" "S"); ("B", animalOf "E" "T");
               ("D", animalOf "" ""); ("S", animalOf "" "");
               ("E", animalOf "" ""); ("T", animalOf "" "")].

Lemma no_common_ancestor_zero_witness :
  V006.calculateOffspringInbreeding strangers (Some "A") (Some "B") = Some 0%Qc ∧
  fst <$> calculateOffspringInbreedingM codeUnitCompare v130 strangers
            (Some "A") (Some "B") newCalculator = Some 0%Qc.
Proof.
  apply (no_common_ancestor_zero strangers "A" "B" codeUnitCompare v130).
  apply disjointClosures_spec. vm_compute. reflexivity.
Defined.

(** ** The entry point of version 0.0.6 *)

Definition optionList {A} (o : option A) : list A :=
  match o with Some a => [a] | None => [] end.

Lemma forBulls_parts cow bulls results rs :
  V006Main.forBulls cow bulls results = Js.Normal rs →
  ∃ parts, Forall2 (λ b part, V006Main.pairing cow b = Js.Normal part) bulls parts ∧
           rs = results ++ concat (optionList <$> parts).
Proof.
  revert results. induction bulls as [|b bulls IH]; intros results; simpl.
  - intros [= <-]. exists []. split; [constructor|]. simpl. by rewrite app_nil_r.
  - destruct (V006Main.pairing cow b) as [part| |] eqn:Hb; [|done..]. simpl.
    intros (parts & Hparts & ->)%IH. exists (part :: parts).
    split; [by constructor|]. destruct part; simpl; [|done].
    by rewrite <-(assoc_L (++)).
Qed.

(** C9.  In the strict-pairing variant the result of a batch is the
    concatenation, partner by partner, of what the call returns for the
    cow and that partner alone: the tuple of a partner depends on no
    other partner record. *)
Theorem strict_pairing_isolation (cow : PedigreeRecord) (bulls : list PedigreeRecord)
    (rs : list Pairing) :
  V006Main.calculateBreedingInbreeding (Some cow) bulls = Js.Normal rs →
  ∃ parts,
    Forall2 (λ b part,
      V006Main.calculateBreedingInbreeding (Some cow) [b] = Js.Normal part)
      bulls parts ∧
    rs = concat parts.
Proof.
  unfold V006Main.calculateBreedingInbreeding, invalidInput.
  destruct (Js.truthy (Js.or (sId cow) (sid cow))); cbn [negb orb].
  - destruct bulls as [|b0 bulls0]; cbn [length Nat.eqb].
    { intros [= <-]. exists []. split; [constructor|done]. }
    generalize (b0 :: bulls0). clear b0 bulls0. intros bulls.
    intros (parts & Hparts & ->)%forBulls_parts. exists (optionList <$> parts).
    split; [|done]. apply Forall2_fmap_r.
    eapply Forall2_impl; [exact Hparts|]. intros b part Hb. simpl.
    rewrite Hb. simpl. by destruct part.
  - intros [= <-]. exists (replicate (length bulls) []). split.
    + induction bulls; simpl; by constructor.
    + induction bulls; simpl; done.
Qed.

(** The records of src/test.js. *)
Definition cowData : PedigreeRecord :=
  mkRecord Js.Undefined (Js.Str "C2") (Js.Str "B2") (Js.Str "B1")
    (Js.Str "P2") (Js.Str "P1") (Js.Str "P2") (Js.Str "P1")
    (Js.Str "M") (Js.Str "") (Js.Str "M") (Js.Str "")
    (Js.Str "M") (Js.Str "") (Js.Str "M") (Js.Str "").

Definition bullData : PedigreeRecord :=
  recordOf "C1" "" "B1" "" "" "P2" "P1" "" "" "" "" "" "" "M" "".

(** A second partner, without known ancestors. *)
Definition bullAlone : PedigreeRecord :=
  recordOf "B9" "" "" "" "" "" "" "" "" "" "" "" "" "" "".

Definition testBatch : list Pairing :=
  Eval vm_compute in
    match V006Main.calculateBreedingInbreeding (Some cowData) [bullData; bullAlone] with
    | Js.Normal rs => rs
    | _ => []
    end.

Lemma strict_pairing_isolation_witness :
  ∃ parts,
    Forall2 (λ b part,
      V006Main.calculateBreedingInbreeding (Some cowData) [b] = Js.Normal part)
      [bullData; bullAlone] parts ∧
    testBatch = concat parts.
Proof.
  apply (strict_pairing_isolation cowData [bullData; bullAlone]).
  vm_compute. reflexivity.
Defined.

Example testBatch_values :
  (λ r, (bullId r, cowId r, this (inbreedingCoefficient r))) <$> testBatch
  = [("C1", "C2", 21 # 64); ("B9", "C2", 0 # 1)]%Q.
Proof. reflexivity. Qed.

(** *** The batch against the single calls, in the other direction *)

Lemma forBulls_returns cow bulls parts results :
  Forall2 (λ b part, V006Main.pairing cow b = Js.Normal part) bulls parts →
  V006Main.forBulls cow bulls results
    = Js.Normal (results ++ concat (optionList <$> parts)).
Proof.
  intros Hparts. revert results.
  induction Hparts as [|b part bulls parts Hb _ IH]; intros results; simpl.
  - by rewrite app_nil_r.
  - rewrite Hb. simpl. rewrite IH. destruct part; simpl; [|done].
    by rewrite <-(assoc_L (++)).
Qed.

(** When every single-partner call returns, so does the batch. *)
Lemma batch_of_single_calls (cow : PedigreeRecord) (bulls : list PedigreeRecord)
    (parts : list (list Pairing)) :
  Forall2 (λ b part,
    V006Main.calculateBreedingInbreeding (Some cow) [b] = Js.Normal part) bulls parts →
  V006Main.calculateBreedingInbreeding (Some cow) bulls = Js.Normal (concat parts).
Proof.
  unfold V006Main.calculateBreedingInbreeding, invalidInput.
  destruct (Js.truthy (Js.or (sId cow) (sid cow))); cbn [negb orb length Nat.eqb].
  - intros Hparts. destruct bulls as [|b0 bulls0].
    { apply Forall2_nil_inv_l in Hparts as ->. done. }
    cbn [length Nat.eqb]. revert Hparts. generalize (b0 :: bulls0).
    clear b0 bulls0. intros bulls Hparts.
    assert (∃ pushed, Forall2 (λ b p, V006Main.pairing cow b = Js.Normal p) bulls pushed
                      ∧ parts = optionList <$> pushed) as (pushed & Hpushed & ->).
    { induction Hparts as [|b part bulls parts Hb _ (pushed & Hpushed & ->)].
      - exists []. split; [constructor|done].
      - simpl in Hb. destruct (V006Main.pairing cow b) as [p| |] eqn:Hp; [|done..].
        exists (p :: pushed). split; [by constructor|].
        simpl in Hb. injection Hb as <-. by destruct p. }
    by rewrite (forBulls_returns _ _ _ _ Hpushed).
  - intros Hparts. f_equal.
    induction Hparts as [|b part bulls parts Hb _ IH]; [done|].
    injection Hb as <-. done.
Qed.

(** *** The entry point ends *)

(** A call that returns or throws: the fuel of the embedding did not run
    out. *)
Definition ends {A} (c : Js.Completion A) : Prop := c ≠ Js.OutOfFuel.

Lemma bind_ends {A B} (m : Js.Completion A) (k : A → Js.Completion B) :
  ends m → (∀ a, m = Js.Normal a → ends (k a)) → ends (Js.bind m k).
Proof. intros Hm Hk. destruct m; simpl; [by apply Hk|done|done]. Qed.

Lemma getOrCreateAnimal_ends animalMap id : ends (getOrCreateAnimal animalMap id).
Proof.
  unfold getOrCreateAnimal, newAnimal.
  repeat (case_match; simpl; try done).
Qed.

Lemma createAll_ends allIds animalMap : ends (createAll allIds animalMap).
Proof.
  revert animalMap. induction allIds as [|id rest IH]; intros animalMap; [done|].
  cbn [createAll]. apply bind_ends; [apply getOrCreateAnimal_ends|]. intros [? ?] _. apply IH.
Qed.

Lemma forRelationships_ends attach rels animalMap :
  ends (forRelationships attach rels animalMap).
Proof.
  revert animalMap. induction rels as [|[childId [motherId fatherId]] rest IH];
    intros animalMap; [done|].
  cbn [forRelationships].
  apply bind_ends; [apply getOrCreateAnimal_ends|]. intros [[child|] ?] _; [|apply IH].
  apply bind_ends; [apply getOrCreateAnimal_ends|]. intros [? ?] _.
  apply bind_ends; [apply getOrCreateAnimal_ends|]. intros [? ?] _. apply IH.
Qed.

Lemma forRecords_ends load records animalMap :
  (∀ record m, ends (load record m)) → ends (forRecords load records animalMap).
Proof.
  intros Hload. revert animalMap.
  induction records as [|record rest IH]; intros animalMap; [done|].
  cbn [forRecords]. apply bind_ends; [apply Hload|]. intros ? _. apply IH.
Qed.

Lemma V006_loadPedigreeFromJson_ends records animalMap :
  ends (V006Main.loadPedigreeFromJson records animalMap).
Proof.
  apply bind_ends; [apply createAll_ends|]. intros ? _.
  apply forRecords_ends. intros. apply forRelationships_ends.
Qed.

Lemma V006_pairing_ends cow bull : ends (V006Main.pairing cow bull).
Proof.
  unfold V006Main.pairing. case_match; [done|].
  apply bind_ends; [apply V006_loadPedigreeFromJson_ends|]. intros animalMap _.
  apply bind_ends; [apply getOrCreateAnimal_ends|]. intros [cowAnimal animalMap1] _.
  apply bind_ends; [apply getOrCreateAnimal_ends|]. intros [bullAnimal g] _.
  destruct cowAnimal as [c|], bullAnimal as [b|]; try done.
  apply bind_ends; [|done].
  rewrite V006_calculateOffspringInbreeding.
  destruct (offspringR_is_Some v110 g ∅ (Some b) (Some c)) as [f ->]. done.
Qed.

(** [calculateBreedingInbreeding] of version 0.0.6 returns or throws on
    every input. *)
Lemma V006_calculateBreedingInbreeding_ends cowRecord bulls :
  ends (V006Main.calculateBreedingInbreeding cowRecord bulls).
Proof.
  unfold V006Main.calculateBreedingInbreeding.
  destruct cowRecord as [cow|]; [|done].
  destruct (invalidInput (Some cow) bulls); [done|].
  generalize (@nil Pairing). induction bulls as [|b rest IH]; intros results; [done|].
  cbn [V006Main.forBulls]. apply bind_ends; [apply V006_pairing_ends|]. intros ? _. apply IH.
Qed.

(** ** Missing-value tokens *)

(** A cow whose dam field holds the string ['null'], and a partner. *)
Definition cowNullDam : PedigreeRecord :=
  recordOf "C" "null" "" "" "" "" "" "" "" "" "" "" "" "" "".

Definition bullPlain : PedigreeRecord :=
  recordOf "B" "" "" "" "" "" "" "" "" "" "" "" "" "" "".

(** A record as the README allows it: unknown ancestors are [null]. *)
Definition cowNullFields : PedigreeRecord :=
  mkRecord (Js.Str "C") Js.Undefined Js.Null Js.Null Js.Null Js.Null Js.Null Js.Null
    Js.Null Js.Null Js.Null Js.Null Js.Null Js.Null Js.Null Js.Null.

(** C1 (fails on the code).  The input passes the validation at the head
    of [calculateBreedingInbreeding], and the call ends in a thrown
    [Error] in every version: [getOrCreateAnimal] hands the token to the
    [Animal] constructor, which rejects it. *)
Theorem missing_value_token_raises :
  invalidInput (Some cowNullDam) [bullPlain] = false ∧
  calculateBreedingInbreedingM codeUnitCompare v130 (Some cowNullDam) [bullPlain]
    = Js.Throw "null" ∧
  calculateBreedingInbreedingM codeUnitCompare v110 (Some cowNullDam) [bullPlain]
    = Js.Throw "null" ∧
  V006Main.calculateBreedingInbreeding (Some cowNullDam) [bullPlain] = Js.Throw "null" ∧
  invalidInput (Some cowNullFields) [bullPlain] = false ∧
  calculateBreedingInbreedingM codeUnitCompare v130 (Some cowNullFields) [bullPlain]
    = Js.Throw "null" ∧
  V006Main.calculateBreedingInbreeding (Some cowNullFields) [bullPlain] = Js.Throw "null".
Proof. vm_compute. repeat split. Qed.

(** ** A coefficient above 1 *)

(** A sire [A]; his daughter [B]; their son [C]; [D], daughter of [C] and
    [B]; [I], son of [C] and [D].  The cow is [D], the partner [I]. *)
Definition cowD : PedigreeRecord :=
  recordOf "D" "B" "C" "" "A" "B" "A" "" "" "" "" "" "A" "" "".

Definition bullI : PedigreeRecord :=
  recordOf "I" "D" "C" "B" "C" "B" "A" "" "A" "B" "A" "" "A" "" "".

Definition lineRank (x : string) : nat :=
  if String.eqb x "A" then 0 else if String.eqb x "B" then 1
  else if String.eqb x "C" then 2 else if String.eqb x "D" then 3 else 4.

(** C3 (fails on the code).  The two records describe an acyclic pedigree,
    and the coefficient reported for the pair is 267/256, above 1. *)
Theorem coefficient_above_one :
  (∃ animalMap,
     V006Main.loadPedigreeFromJson [cowD; bullI] ∅ = Js.Normal animalMap ∧
     Acyclic animalMap) ∧
  ∃ r, V006Main.calculateBreedingInbreeding (Some cowD) [bullI] = Js.Normal [r] ∧
       bullId r = "I" ∧ cowId r = "D" ∧
       this (inbreedingCoefficient r) = (267 # 256)%Q ∧
       (1 < inbreedingCoefficient r)%Qc.
Proof.
  split.
  - eexists. split; [vm_compute; reflexivity|].
    apply (Acyclic_check lineRank). vm_compute. reflexivity.
  - eexists. split; [vm_compute; reflexivity|]. repeat split.
Qed.

(** ** The two memoised engines side by side *)

(** Two loops that stay related step by step end together, with the same
    result. *)
Definition outcomesRelated {St1 St2 Res} (R : St1 → St2 → Prop)
    (o1 : St1 + Res) (o2 : St2 + Res) : Prop :=
  match o1, o2 with
  | inl s1, inl s2 => R s1 s2
  | inr r1, inr r2 => r1 = r2
  | _, _ => False
  end.

Lemma while_related {St1 St2 Res} (body1 : St1 → St1 + Res) (body2 : St2 → St2 + Res)
    (R : St1 → St2 → Prop) :
  (∀ s1 s2, R s1 s2 → outcomesRelated R (body1 s1) (body2 s2)) →
  ∀ n s1 s2, R s1 s2 → outcomesRelated R (while body1 n s1) (while body2 n s2).
Proof.
  intros Hbody. induction n as [|n IH]; intros s1 s2 HR; cbn [while]; [by apply Hbody|].
  pose proof (IH s1 s2 HR) as Hn.
  destruct (while body1 n s1) as [s1'|r1], (while body2 n s2) as [s2'|r2];
    simpl in Hn; try done.
  by apply IH.
Qed.

(** On an animal that is not its own ancestor, marking it visited at the
    start does not change the walk. *)
Definition bfsRelated (g : Pedigree) (a : string) (st1 st2 : BfsState) : Prop :=
  queue st1 = queue st2 ∧ ancestors st1 = ancestors st2 ∧
  visited st1 = {[a]} ∪ visited st2 ∧
  ∀ x, x ∈ queue st2 → isAncestor g a x.

Lemma visit_related g a p st1 st2 :
  (∀ x, p = Some x → isAncestor g a x ∧ x ≠ a) →
  bfsRelated g a st1 st2 → bfsRelated g a (visit p st1) (visit p st2).
Proof.
  intros Hp (Hq & Ha & Hv & Hanc). destruct p as [p|]; [|done].
  destruct (Hp p eq_refl) as [Hpa Hne]. unfold visit. rewrite Hv.
  destruct (decide (p ∈ visited st2)) as [Hin|Hin].
  - rewrite decide_True by set_solver. done.
  - rewrite decide_False by set_solver. split_and!; simpl.
    + by rewrite Hq.
    + done.
    + set_solver.
    + intros x [Hx| ->%list_elem_of_singleton]%elem_of_app; by auto.
Qed.

Lemma getAncestorsFrom_self g a :
  ¬ isAncestor g a a → getAncestorsFrom {[a]} g a = getAncestorsFrom ∅ g a.
Proof.
  intros Hacyclic.
  assert (∀ st1 st2, bfsRelated g a st1 st2 →
            outcomesRelated (bfsRelated g a) (bfsBody g st1) (bfsBody g st2)) as Hstep.
  { intros st1 st2 (Hq & Ha & Hv & Hanc). unfold bfsBody. rewrite Hq, Ha.
    destruct (queue st2) as [|current rest] eqn:Hq2; simpl; [done|].
    assert (isAncestor g a current) as Hcur by (apply Hanc, elem_of_cons; by left).
    apply visit_related.
    { intros x Hx. assert (isAncestor g a x) by (eapply tc_r; [done|by right]).
      split; [done|]. by intros ->. }
    apply visit_related.
    { intros x Hx. assert (isAncestor g a x) by (eapply tc_r; [done|by left]).
      split; [done|]. by intros ->. }
    split_and!; simpl; try done. intros x Hx. apply Hanc, elem_of_cons. by right. }
  assert (bfsRelated g a (bfsStart g a {[a]}) (bfsStart g a ∅)) as Hstart.
  { unfold bfsStart, bfsRelated, pushSome, addSome. simpl. split_and!; try done.
    - destruct (getParent1 g a), (getParent2 g a); set_solver.
    - intros x Hx. apply tc_once. unfold isParent.
      destruct (getParent1 g a), (getParent2 g a); set_solver. }
  pose proof (while_related _ _ _ Hstep (loopFuel g) _ _ Hstart) as Hrel.
  unfold getAncestorsFrom, runWhile. fold (bfsStart g a {[a]}) (bfsStart g a ∅).
  destruct (while (bfsBody g) (loopFuel g) (bfsStart g a {[a]})) as [?|r1],
    (while (bfsBody g) (loopFuel g) (bfsStart g a ∅)) as [?|r2];
    simpl in Hrel; try done. by rewrite Hrel.
Qed.

(** Cache contents of the two engines after the same calls: the same keys,
    and under each key a value of the independent-path engine that is
    non-negative and at most that of the full-accumulation engine. *)
Definition entriesRelated (m110 m130 : gmap string Qc) : Prop :=
  ∀ k, option_Forall2 (λ x y, (0 ≤ y)%Qc ∧ (y ≤ x)%Qc) (m110 !! k) (m130 !! k).

Record Related (c110 c130 : Calculator) : Prop := {
  rel_inbreeding : entriesRelated (inbreedingCache c110) (inbreedingCache c130);
  rel_offspring :
    entriesRelated (offspringInbreedingCache c110) (offspringInbreedingCache c130);
  rel_paths : pathCache c110 = pathCache c130
}.

Definition resultsRelated (r110 r130 : option (Qc * Calculator)) : Prop :=
  ∃ f110 f130 c110 c130,
    r110 = Some (f110, c110) ∧ r130 = Some (f130, c130) ∧ Related c110 c130 ∧
    (0 ≤ f130)%Qc ∧ (f130 ≤ f110)%Qc.

Lemma entriesRelated_insert m110 m130 k x y :
  entriesRelated m110 m130 → (0 ≤ y)%Qc → (y ≤ x)%Qc →
  entriesRelated (<[k := x]> m110) (<[k := y]> m130).
Proof.
  intros H Hy Hxy k'. destruct (decide (k = k')) as [->|Hne].
  - rewrite !lookup_insert_eq. by constructor.
  - rewrite !lookup_insert_ne by done. apply H.
Qed.

Lemma newCalculator_Related : Related newCalculator newCalculator.
Proof. split; simpl; [| |done]; intros k; rewrite lookup_empty; constructor. Qed.

Lemma findPathsToAncestorWithCache_related g s t c110 c130 :
  Related c110 c130 →
  ∃ ps c110' c130',
    findPathsToAncestorWithCache g (Some s) (Some t) c110 = Some (ps, c110') ∧
    findPathsToAncestorWithCache g (Some s) (Some t) c130 = Some (ps, c130') ∧
    Related c110' c130'.
Proof.
  intros Hc. unfold findPathsToAncestorWithCache. rewrite (rel_paths _ _ Hc).
  destruct (pathCache c130 !! pathKeyOf s t) as [cached|]; [by eauto 10|].
  destruct (findPathsToAncestorDFS_spec g s t) as (ps & Hps & _).
  unfold mbindM, liftFuel, setPaths, ret. rewrite Hps.
  eexists _, _, _. split_and!; try done. destruct Hc as [H1 H2 H3].
  split; simpl; [done|done|by rewrite H3].
Qed.

Lemma accumulateM_related f110 f130 paths1 paths2 t110 t130 :
  (0 ≤ f130)%Qc → (f130 ≤ f110)%Qc → (0 ≤ t130)%Qc → (t130 ≤ t110)%Qc →
  (0 ≤ accumulateM v130 f130 paths1 paths2 t130)%Qc ∧
  (accumulateM v130 f130 paths1 paths2 t130
   ≤ accumulateM v110 f110 paths1 paths2 t110)%Qc.
Proof.
  intros Hf Hff Ht Htt. rewrite !accumulateM_weight.
  assert (0 ≤ 1 + f130)%Qc by (by apply Qcplus_nonneg_nonneg).
  split.
  - apply Qcplus_nonneg_nonneg; [done|].
    apply Qcmult_nonneg_nonneg; [apply weight_nonneg|done].
  - apply Qcplus_le_compat; [done|].
    etrans; [apply Qcmult_le_compat_r; [apply weight_version|done]|].
    apply Qcmult_le_mono_nonneg_l; [apply weight_nonneg|].
    by apply Qcplus_le_mono_l.
Qed.

Lemma mbindM_liftFuel {A B} (x : A) (k : A → Method B) (c : Calculator) :
  mbindM (liftFuel (Some x)) k c = k x c.
Proof. done. Qed.

Section SideBySide.
Variable localeCompare : string → string → Z.
Variable g : Pedigree.
Hypothesis acyclic : Acyclic g.

Lemma getAncestorsM_versions a : getAncestorsM v130 g a = getAncestorsM v110 g a.
Proof. apply getAncestorsFrom_self, acyclic. Qed.

Section Callback.
Variables FM110 FM130 : option string → Method Qc.
Hypothesis callback : ∀ x c110 c130,
  Related c110 c130 → resultsRelated (FM110 (Some x) c110) (FM130 (Some x) c130).

Lemma forCommonAncestorsM_related p1 p2 l t110 t130 c110 c130 :
  Related c110 c130 → (0 ≤ t130)%Qc → (t130 ≤ t110)%Qc →
  resultsRelated (forCommonAncestorsM v110 FM110 g p1 p2 l t110 c110)
                 (forCommonAncestorsM v130 FM130 g p1 p2 l t130 c130).
Proof.
  revert t110 t130 c110 c130.
  induction l as [|x l IH]; intros t110 t130 c110 c130 Hc Ht Htt;
    cbn [forCommonAncestorsM].
  { by exists t110, t130, c110, c130. }
  destruct (callback x c110 c130 Hc) as (f110 & f130 & c1 & c1' & H1 & H1' & Hc1 & Hf & Hff).
  destruct (findPathsToAncestorWithCache_related g p1 x c1 c1' Hc1)
    as (paths1 & c2 & c2' & H2 & H2' & Hc2).
  destruct (findPathsToAncestorWithCache_related g p2 x c2 c2' Hc2)
    as (paths2 & c3 & c3' & H3 & H3' & Hc3).
  destruct (accumulateM_related f110 f130 paths1 paths2 t110 t130) as [Hacc Hacc'];
    try done.
  unfold mbindM at 1 4. rewrite H1, H1'. unfold mbindM at 1 3. rewrite H2, H2'.
  unfold mbindM at 1 2. rewrite H3, H3'. by apply IH.
Qed.

Lemma calculateOffspringInbreedingWithM_related parent1 parent2 c110 c130 :
  Related c110 c130 →
  resultsRelated
    (calculateOffspringInbreedingWithM localeCompare v110 FM110 g parent1 parent2 c110)
    (calculateOffspringInbreedingWithM localeCompare v130 FM130 g parent1 parent2 c130).
Proof.
  intros Hc. unfold calculateOffspringInbreedingWithM.
  destruct parent1 as [parent1|], parent2 as [parent2|];
    try by (exists 0%Qc, 0%Qc, c110, c130).
  destruct (if (0 <? localeCompare parent1 parent2)%Z then (parent2, parent1)
            else (parent1, parent2)) as [p1 p2].
  pose proof (rel_offspring _ _ Hc (offspringKey p1 p2)) as Hkey.
  destruct Hkey as [x y [Hy Hxy]|]; [by exists x, y, c110, c130|].
  rewrite !getAncestorsM_versions.
  destruct (getAncestorsM_spec v110 g p1) as (l1 & -> & _).
  destruct (getAncestorsM_spec v110 g p2) as (l2 & -> & _).
  cbn [fmap option_fmap option_map]. rewrite !mbindM_liftFuel.
  generalize (filter (λ ancestor, ancestor ∈ setAdd p2 l2) (setAdd p1 l1)).
  intros l.
  assert (∀ f110 f130 c c', Related c c' → (0 ≤ f130)%Qc → (f130 ≤ f110)%Qc →
            Related (mkCalculator (inbreedingCache c)
                       (<[offspringKey p1 p2 := f110]> (offspringInbreedingCache c))
                       (pathCache c))
                    (mkCalculator (inbreedingCache c')
                       (<[offspringKey p1 p2 := f130]> (offspringInbreedingCache c'))
                       (pathCache c'))) as Hset.
  { intros f110 f130 c c' [H1 H2 H3] Hf Hff. split; simpl; [done| |done].
    by apply entriesRelated_insert. }
  destruct (forCommonAncestorsM_related p1 p2 l 0%Qc 0%Qc c110 c130)
    as (f110 & f130 & c1 & c1' & H1 & H1' & Hc1 & Hf & Hff); try done.
  unfold returnsEarly. destruct l as [|x l'].
  - cbn [forCommonAncestorsM] in H1, H1'. unfold ret in H1, H1'. simplify_eq.
    unfold mbindM, setOffspringInbreeding, ret. cbn [forCommonAncestorsM].
    eexists _, _, _, _. split_and!; try done. by apply Hset.
  - unfold mbindM at 1 3. rewrite H1, H1'.
    unfold mbindM, setOffspringInbreeding, ret.
    eexists _, _, _, _. split_and!; try done. by apply Hset.
Qed.

End Callback.

Lemma calculateInbreedingM_related n guard animal c110 c130 :
  size (universe g ∖ guard) < n → Related c110 c130 →
  resultsRelated (calculateInbreedingM localeCompare v110 n g guard animal c110)
                 (calculateInbreedingM localeCompare v130 n g guard animal c130).
Proof.
  revert guard animal c110 c130.
  induction n as [|n IH]; intros guard [a|] c110 c130 Hn Hc;
    cbn [calculateInbreedingM]; try by (exists 0%Qc, 0%Qc, c110, c130).
  { lia. }
  pose proof (rel_inbreeding _ _ Hc a) as Hkey.
  destruct Hkey as [x y [Hy Hxy]|]; [by exists x, y, c110, c130|].
  case_decide as Hg; [by exists 0%Qc, 0%Qc, c110, c130|].
  assert (∀ f110 f130 c c', Related c c' → (0 ≤ f130)%Qc → (f130 ≤ f110)%Qc →
            Related (mkCalculator (<[a := f110]> (inbreedingCache c))
                       (offspringInbreedingCache c) (pathCache c))
                    (mkCalculator (<[a := f130]> (inbreedingCache c'))
                       (offspringInbreedingCache c') (pathCache c'))) as Hset.
  { intros f110 f130 c c' [H1 H2 H3] Hf Hff. split; simpl; [|done|done].
    by apply entriesRelated_insert. }
  destruct (getParent1 g a) as [p1|] eqn:Hp1.
  2:{ unfold mbindM, ret, setInbreeding. eexists _, _, _, _.
      split_and!; try done. by apply Hset. }
  destruct (getParent2 g a) as [p2|] eqn:Hp2.
  2:{ unfold mbindM, ret, setInbreeding. eexists _, _, _, _.
      split_and!; try done. by apply Hset. }
  destruct (calculateOffspringInbreedingWithM_related
              (calculateInbreedingM localeCompare v110 n g ({[a]} ∪ guard))
              (calculateInbreedingM localeCompare v130 n g ({[a]} ∪ guard)))
    with (parent1 := Some p1) (parent2 := Some p2) (c110 := c110) (c130 := c130)
    as (f110 & f130 & c1 & c1' & H1 & H1' & Hc1 & Hf & Hff); [|done|].
  { intros x c c' Hcc. apply IH; [|done].
    assert (a ∈ universe g).
    { apply elem_of_union_l. eapply getParent_dom. eauto. }
    assert (universe g ∖ guard = {[a]} ∪ universe g ∖ ({[a]} ∪ guard)) as Heq.
    { apply set_eq. intros y. destruct (decide (y = a)); set_solver. }
    rewrite Heq, (size_union {[a]}), size_singleton in Hn by set_solver. lia. }
  unfold mbindM at 1 3. rewrite H1, H1'. unfold mbindM, ret, setInbreeding.
  eexists _, _, _, _. split_and!; try done. by apply Hset.
Qed.

Lemma calculateOffspringInbreedingM_related parent1 parent2 c110 c130 :
  Related c110 c130 →
  resultsRelated
    (calculateOffspringInbreedingM localeCompare v110 g parent1 parent2 c110)
    (calculateOffspringInbreedingM localeCompare v130 g parent1 parent2 c130).
Proof.
  intros Hc. apply calculateOffspringInbreedingWithM_related; [|done].
  intros x c c' Hcc. apply calculateInbreedingM_related; [|done].
  unfold depthFuel. apply Nat.lt_succ_r, subseteq_size. set_solver.
Qed.

End SideBySide.

(** ** Memoisation scope *)





(** [calculateOffspringInbreeding] of the memoised versions swaps its
    arguments when [localeCompare] puts the second before the first, and
    then walks the common ancestors, and adds their contributions, in the
    order of the swapped pair.  [InCollationOrder] holds when no call
    swaps: the queried pairs, and the dam and sire of every animal, are
    in the order [localeCompare] gives them. *)
Definition InCollationOrder (localeCompare : string → string → Z) (g : Pedigree)
    (pairs : list (string * string)) : Prop :=
  (∀ a b, (a, b) ∈ pairs → (localeCompare a b ≤ 0)%Z) ∧
  (∀ x dam sire, getParent1 g x = Some dam → getParent2 g x = Some sire →
                 (localeCompare dam sire ≤ 0)%Z).

Lemma InCollationOrder_no_swap localeCompare g pairs :
  InCollationOrder localeCompare g pairs →
  (∀ a b, (a, b) ∈ pairs → (0 <? localeCompare a b)%Z = false) ∧
  (∀ x dam sire, getParent1 g x = Some dam → getParent2 g x = Some sire →
                 (0 <? localeCompare dam sire)%Z = false).
Proof.
  intros [Hpairs Hparents]. split.
  - intros a b Hab. apply Z.ltb_ge. by apply Hpairs.
  - intros x dam sire Hdam Hsire. apply Z.ltb_ge. by eapply Hparents.
Qed.




(** ** The two accumulation modes *)

Lemma weight_all_independent paths1 paths2 :
  (∀ p q, p ∈ paths1 → q ∈ paths2 → arePathsIndependent p q = true) →
  weight v130 paths1 paths2 = weight v110 paths1 paths2.
Proof.
  intros H. unfold weight. apply sumQc_ext. intros p Hp. apply sumQc_ext.
  intros q Hq. unfold keptWeight, keeps. by rewrite H.
Qed.

(** Without caches: the two modes agree on a pair when none of its common
    ancestors is inbred and the filter keeps every pair of paths. *)
Lemma offspringR_versions_agree g a b :
  (∀ x, rtc (isParent g) a x → rtc (isParent g) b x →
        inbreedingR v110 (depthFuel g) g ∅ (Some x) = Some 0%Qc) →
  (∀ x p q, SimplePath g a x p → SimplePath g b x q →
            arePathsIndependent p q = true) →
  offspringR v130 (depthFuel g) g ∅ (Some a) (Some b)
  = offspringR v110 (depthFuel g) g ∅ (Some a) (Some b).
Proof.
  intros Hzero Hindep. unfold offspringR. rewrite !offspringWithR_sum.
  destruct (commonAncestorsR_spec v130 g a b) as (l & Hl & Hnd & Hin).
  destruct (commonAncestorsR_spec v110 g a b) as (l' & Hl' & Hnd' & Hin').
  rewrite Hl, Hl'. cbn [mbind option_bind].
  rewrite (sumOpt_Permutation (_ <$> l') (termR v110 (inbreedingR v110 (depthFuel g) g ∅)
                                            g a b <$> l)).
  2:{ apply fmap_Permutation, NoDup_Permutation; [done..|].
      intros x. rewrite Hin, Hin'. tauto. }
  f_equal. apply list_fmap_ext. intros _ x Hx%list_elem_of_lookup_2.
  apply Hin in Hx as [Hxa Hxb]. unfold termR. rewrite (Hzero x Hxa Hxb).
  destruct (inbreedingR_is_Some v130 g (depthFuel g) ∅ (Some x)) as [f130 Hf130].
  { unfold depthFuel. apply Nat.lt_succ_r, subseteq_size. set_solver. }
  assert (f130 = 0%Qc) as ->.
  { apply Qcle_antisym; [|by eapply inbreedingR_nonneg].
    eapply inbreedingR_version; [done|by apply Hzero]. }
  rewrite Hf130. cbn [mbind option_bind findPathsToAncestor].
  destruct (findPathsToAncestorDFS_spec g a x) as (ps1 & -> & Hps1).
  destruct (findPathsToAncestorDFS_spec g b x) as (ps2 & -> & Hps2).
  cbn [mbind option_bind]. rewrite weight_all_independent; [done|].
  intros p q Hp%Hps1 Hq%Hps2. by eapply Hindep.
Qed.

(** C2, as amended.  On an acyclic pedigree the coefficient of full
    accumulation (version 1.1.0) is at least that of the independent-path
    mode (version 1.3.0).  The two are equal when, moreover, the
    identifiers give pairwise distinct cache keys, no common ancestor of
    the pair is inbred, and every path of one parent to a common ancestor
    is independent of every path of the other parent to it. *)
Theorem full_accumulation_dominates (localeCompare : string → string → Z)
    (g : Pedigree) (a b : string) :
  Acyclic g →
  ∃ full independent c110 c130,
    calculateOffspringInbreedingM localeCompare v110 g (Some a) (Some b) newCalculator
      = Some (full, c110) ∧
    calculateOffspringInbreedingM localeCompare v130 g (Some a) (Some b) newCalculator
      = Some (independent, c130) ∧
    (independent ≤ full)%Qc ∧
    (KeysInjective (universe g ∪ {[a; b]}) →
     (∀ x, rtc (isParent g) a x → rtc (isParent g) b x →
           V006.calculateInbreeding g (Some x) = Some 0%Qc) →
     (∀ x p q, SimplePath g a x p → SimplePath g b x q →
               arePathsIndependent p q = true) →
     full = independent).
Proof.
  intros Hacyclic.
  destruct (calculateOffspringInbreedingM_related localeCompare g Hacyclic
              (Some a) (Some b) newCalculator newCalculator newCalculator_Related)
    as (full & indep & c110 & c130 & H110 & H130 & _ & _ & Hle).
  exists full, indep, c110, c130. split_and!; try done.
  intros Hkeys Hzero Hpairs.
  destruct (offspringR_is_Some v110 g ∅ (Some a) (Some b)) as [fullR HfullR].
  destruct (offspringR_is_Some v130 g ∅ (Some a) (Some b)) as [indepR HindepR].
  destruct (calculateOffspringInbreedingM_sound localeCompare v110 g
              (universe g ∪ {[a; b]}) Hacyclic) with (p1 := a) (p2 := b)
              (c := newCalculator) (f := fullR) as (c110' & H110' & _);
    [set_solver|done|set_solver|set_solver|apply newCalculator_Sound|done|].
  destruct (calculateOffspringInbreedingM_sound localeCompare v130 g
              (universe g ∪ {[a; b]}) Hacyclic) with (p1 := a) (p2 := b)
              (c := newCalculator) (f := indepR) as (c130' & H130' & _);
    [set_solver|done|set_solver|set_solver|apply newCalculator_Sound|done|].
  rewrite offspringR_versions_agree in HindepR; [|
    intros y Hya Hyb; rewrite <-V006_calculateInbreeding; by apply Hzero|done].
  congruence.
Qed.

(** Whether every pair of paths to a common ancestor passes the filter, and
    whether no common ancestor is inbred, decided by running the code. *)
Definition pathsIndependentOn (g : Pedigree) (a b : string) : bool :=
  forallb (λ x,
    forallb (λ p,
      forallb (λ q, arePathsIndependent p q)
        (default [] (findPathsToAncestorDFS g b x)))
      (default [] (findPathsToAncestorDFS g a x)))
    (closureOf g a).

Lemma pathsIndependentOn_spec g a b :
  pathsIndependentOn g a b = true →
  ∀ x p q, SimplePath g a x p → SimplePath g b x q → arePathsIndependent p q = true.
Proof.
  unfold pathsIndependentOn. rewrite forallb_forall. intros H x p q Hp Hq.
  assert (x ∈ closureOf g a) as Hx by (eapply closureOf_spec, SimplePath_rtc; done).
  apply list_elem_of_In, H in Hx. rewrite forallb_forall in Hx.
  destruct (findPathsToAncestorDFS_spec g a x) as (ps1 & Hps1 & Hin1).
  destruct (findPathsToAncestorDFS_spec g b x) as (ps2 & Hps2 & Hin2).
  rewrite Hps1, Hps2 in Hx. simpl in Hx.
  apply Hin1, list_elem_of_In, Hx in Hp. rewrite forallb_forall in Hp.
  by apply Hp, list_elem_of_In, Hin2.
Qed.

Definition noneInbredOn (g : Pedigree) (a b : string) : bool :=
  forallb (λ x,
    negb (bool_decide (x ∈ closureOf g b))
    || match V006.calculateInbreeding g (Some x) with
       | Some f => Qeq_bool f 0
       | None => false
       end)
    (closureOf g a).

Lemma noneInbredOn_spec g a b :
  noneInbredOn g a b = true →
  ∀ x, rtc (isParent g) a x → rtc (isParent g) b x →
       V006.calculateInbreeding g (Some x) = Some 0%Qc.
Proof.
  unfold noneInbredOn. rewrite forallb_forall.
  intros H x Ha%closureOf_spec Hb%closureOf_spec.
  apply list_elem_of_In, H, orb_true_iff in Ha as [Ha|Ha].
  - apply negb_true_iff, bool_decide_eq_false in Ha. done.
  - destruct (V006.calculateInbreeding g (Some x)) as [f|]; [|done].
    f_equal. by apply Qc_is_canon, Qeq_bool_eq.
Qed.

Lemma full_accumulation_dominates_witness :
  ∃ full independent c110 c130,
    calculateOffspringInbreedingM codeUnitCompare v110 siblings (Some "A") (Some "B")
      newCalculator = Some (full, c110) ∧
    calculateOffspringInbreedingM codeUnitCompare v130 siblings (Some "A") (Some "B")
      newCalculator = Some (independent, c130) ∧
    (independent ≤ full)%Qc ∧ full = independent.
Proof.
  destruct (full_accumulation_dominates codeUnitCompare siblings "A" "B")
    as (full & independent & c110 & c130 & H110 & H130 & Hle & Heq).
  - apply (Acyclic_check siblingsRank). vm_compute. reflexivity.
  - exists full, independent, c110, c130. split_and!; try done. apply Heq.
    + apply KeysInjective_check. vm_compute. reflexivity.
    + apply noneInbredOn_spec. vm_compute. reflexivity.
    + apply pathsIndependentOn_spec. vm_compute. reflexivity.
Defined.

(** ** Pedigrees on which the modes, or the caches, make a difference *)

(** The coefficient a fresh memoising calculator returns, as a fraction. *)
Definition freshCoefficient (version : Version) (g : Pedigree) (a b : string)
  : option Q :=
  this ∘ fst <$>
    calculateOffspringInbreedingM codeUnitCompare version g (Some a) (Some b)
      newCalculator.


(** [X] and [Y] share the dam [M], whose dam is [G]. *)
Definition grandDam : Pedigree :=
  list_to_map [("X", animalOf "M" ""); ("Y", animalOf "M" "");
               ("M", animalOf "G" ""); ("G", animalOf "" "")].

Definition grandDamRank (x : string) : nat :=
  if String.eqb x "G" then 0 else if String.eqb x "M" then 1 else 2.

(** A pedigree with cycles: [A] out of [B] twice, [B] out of [A] and [C],
    [C] out of [A] and itself. *)
Definition loop3 : Pedigree :=
  list_to_map [("A", animalOf "B" "B"); ("B", animalOf "A" "C");
               ("C", animalOf "A" "C")].

(** C2 fails as stated.  On the acyclic pedigree [grandDam] the common
    ancestors of [X] and [Y] are [M] and [G], neither of them inbred, and
    the two modes differ: 5/32 against 1/8.  On the cyclic pedigree
    [loop3] the independent-path mode returns more than full
    accumulation. *)
Lemma full_vs_independent_counterexample :
  (Acyclic grandDam ∧
   commonAncestorsR v110 grandDam "X" "Y" = Some ["M"; "G"] ∧
   this <$> V006.calculateInbreeding grandDam (Some "M") = Some 0%Q ∧
   this <$> V006.calculateInbreeding grandDam (Some "G") = Some 0%Q ∧
   freshCoefficient v110 grandDam "X" "Y" = Some (5 # 32)%Q ∧
   freshCoefficient v130 grandDam "X" "Y" = Some (1 # 8)%Q) ∧
  (freshCoefficient v110 loop3 "A" "C" = Some (95 # 64)%Q ∧
   freshCoefficient v130 loop3 "A" "C" = Some (775 # 512)%Q ∧
   (95 # 64 < 775 # 512)%Q).
Proof.
  split; [split|].
  - apply (Acyclic_check grandDamRank). vm_compute. reflexivity.
  - vm_compute. repeat split.
  - vm_compute. repeat split.
Qed.






(** Identifiers whose cache keys collide: the paths from ["b"] to
    ["a->b"] and those from ["b->a"] to ["b"] share the key
    ["b->a->b"]. *)
Definition clash : Pedigree :=
  list_to_map [("a->b", animalOf "" ""); ("b", animalOf "" "a->b");
               ("b->a", animalOf "b" "b")].

Definition clashRank (x : string) : nat :=
  if String.eqb x "a->b" then 0 else if String.eqb x "b" then 1 else 2.

(** On such identifiers the caches change the result even without a
    cycle. *)
Example cache_key_collision :
  Acyclic clash ∧
  pathKeyOf "b" "a->b" = pathKeyOf "b->a" "b" ∧
  this <$> V006.calculateOffspringInbreeding clash (Some "b") (Some "b->a")
    = Some (5 # 8)%Q ∧
  freshCoefficient v110 clash "b" "b->a" = Some (3 # 8)%Q.
Proof.
  split.
  - apply (Acyclic_check clashRank). vm_compute. reflexivity.
  - vm_compute. repeat split.
Qed.

(** ** Identifiers whose cache keys collide *)

(** The rows of a result array: the two ids and the coefficient as a
    fraction. *)
Definition rows (result : Js.Completion (list Pairing))
  : option (list (string * string * Q)) :=
  match result with
  | Js.Normal rs => Some ((λ r, (bullId r, cowId r, this (inbreedingCoefficient r))) <$> rs)
  | _ => None
  end.

(** The cow ['a,b'] and the partner ['c'], full siblings out of the
    founders ['a'] and ['b,c']; the partner [k] is a son of the cow. *)
Definition cowAB : PedigreeRecord :=
  recordOf "a,b" "a" "b,c" "" "" "" "" "" "" "" "" "" "" "" "".

Definition bullK : PedigreeRecord :=
  recordOf "k" "a,b" "" "a" "b,c" "" "" "" "" "" "" "" "" "" "".

Definition bullC : PedigreeRecord :=
  recordOf "c" "a" "b,c" "" "" "" "" "" "" "" "" "" "" "" "".

Definition commaRank (x : string) : nat :=
  if String.eqb x "k" then 2
  else if String.eqb x "a,b" then 1 else if String.eqb x "c" then 1 else 0.

(** C6 (fails on the code).  The three records describe an acyclic
    pedigree in which ['c'] and ['a,b'] have the same dam and the same
    sire, both founders.  Version 1.3.0 keeps one calculator for the
    batch: for the partner [k] it computes the coefficient of the cow
    herself and stores 0 for her parents ['a'] and ['b,c'] under the key
    ['a,b,c'], which is the key of the pair ['a,b'] and ['c'] as well, so
    that the full siblings are reported with 0.  Version 0.0.6 reports
    1/4 for them, and so does version 1.3.0 when ['c'] is the only
    partner. *)
Theorem full_siblings_cached_zero :
  (∃ animalMap,
     loadPedigreeFromJsonM v130 [cowAB; bullK; bullC] ∅ = Js.Normal animalMap ∧
     Acyclic animalMap ∧
     getParent1 animalMap "a,b" = Some "a" ∧ getParent2 animalMap "a,b" = Some "b,c" ∧
     getParent1 animalMap "c" = Some "a" ∧ getParent2 animalMap "c" = Some "b,c" ∧
     founder animalMap "a" ∧ founder animalMap "b,c") ∧
  offspringKey "a" "b,c" = offspringKey "a,b" "c" ∧
  rows (calculateBreedingInbreedingM codeUnitCompare v130 (Some cowAB) [bullK; bullC])
    = Some [("k", "a,b", 3 # 8); ("c", "a,b", 0)]%Q ∧
  rows (V006Main.calculateBreedingInbreeding (Some cowAB) [bullK; bullC])
    = Some [("k", "a,b", 3 # 8); ("c", "a,b", 1 # 4)]%Q ∧
  rows (calculateBreedingInbreedingM codeUnitCompare v130 (Some cowAB) [bullC])
    = Some [("c", "a,b", 1 # 4)]%Q.
Proof.
  split.
  - eexists. split; [vm_compute; reflexivity|]. split.
    + apply (Acyclic_check commaRank). vm_compute. reflexivity.
    + vm_compute. repeat split.
  - vm_compute. repeat split.
Qed.

(** The cow ['a,b'] out of ['a'] and ['b,c'], which share the dam [g]; her
    son [k]; and the partner ['c'], of unknown parents. *)
Definition cowOfHalfSiblings : PedigreeRecord :=
  recordOf "a,b" "a" "b,c" "g" "" "g" "" "" "" "" "" "" "" "" "".

Definition bullKOfHalfSiblings : PedigreeRecord :=
  recordOf "k" "a,b" "" "a" "b,c" "" "" "g" "" "g" "" "" "" "" "".

Definition bullCAlone : PedigreeRecord :=
  recordOf "c" "" "" "" "" "" "" "" "" "" "" "" "" "" "".

Definition halfSiblingsRank (x : string) : nat :=
  if String.eqb x "k" then 3 else if String.eqb x "a,b" then 2
  else if String.eqb x "a" then 1 else if String.eqb x "b,c" then 1 else 0.

(** C8 (fails on the code).  The three records describe an acyclic
    pedigree in which the partner ['c'] is its own and only ancestor and
    no ancestor of the cow ['a,b'].  For the partner [k] version 1.3.0
    stores 1/8, the coefficient of the cow herself, under the key
    ['a,b,c'] of her parents; the pair ['a,b'] and ['c'] has the same key
    and is reported with 1/8.  Version 0.0.6 reports 0 for it, and so does
    version 1.3.0 when ['c'] is the only partner. *)
Theorem unrelated_pair_cached_eighth :
  (∃ animalMap,
     loadPedigreeFromJsonM v130 [cowOfHalfSiblings; bullKOfHalfSiblings; bullCAlone] ∅
       = Js.Normal animalMap ∧
     Acyclic animalMap ∧
     ∀ x, rtc (isParent animalMap) "c" x → rtc (isParent animalMap) "a,b" x → False) ∧
  offspringKey "a" "b,c" = offspringKey "a,b" "c" ∧
  rows (calculateBreedingInbreedingM codeUnitCompare v130 (Some cowOfHalfSiblings)
          [bullKOfHalfSiblings; bullCAlone])
    = Some [("k", "a,b", 7 # 16); ("c", "a,b", 1 # 8)]%Q ∧
  rows (V006Main.calculateBreedingInbreeding (Some cowOfHalfSiblings)
          [bullKOfHalfSiblings; bullCAlone])
    = Some [("k", "a,b", 15 # 32); ("c", "a,b", 0)]%Q ∧
  rows (calculateBreedingInbreedingM codeUnitCompare v130 (Some cowOfHalfSiblings)
          [bullCAlone])
    = Some [("c", "a,b", 0)]%Q.
Proof.
  split.
  - eexists. split; [vm_compute; reflexivity|]. split.
    + apply (Acyclic_check halfSiblingsRank). vm_compute. reflexivity.
    + apply disjointClosures_spec. vm_compute. reflexivity.
  - vm_compute. repeat split.
Qed.

(** The animal ['b->a'] out of [b] and [q], both out of the dam
    ['a->b->a']. *)
Definition cowArrow : PedigreeRecord :=
  recordOf "b->a" "b" "q" "a->b->a" "" "a->b->a" "" "" "" "" "" "" "" "" "".

Definition arrowRank (x : string) : nat :=
  if String.eqb x "b->a" then 2
  else if String.eqb x "b" then 1 else if String.eqb x "q" then 1 else 0.

(** C10 (fails on the code).  The record describes an acyclic pedigree,
    and the animal is paired with itself.  In version 1.3.0 the paths
    from [b] to ['a->b->a'], found while the coefficient of the animal
    itself is computed, are stored under the key ['b->a->b->a'], which is
    also the key of the paths from ['b->a'] to ['b->a']: instead of the
    one-node path the calculator uses a path of one link on both sides,
    and it returns 29/64, less than 1/2.  Version 0.0.6 returns 15/16. *)
Theorem self_pairing_below_half :
  (∃ animalMap,
     loadPedigreeFromJsonM v130 [cowArrow; cowArrow] ∅ = Js.Normal animalMap ∧
     Acyclic animalMap) ∧
  pathKeyOf "b" "a->b->a" = pathKeyOf "b->a" "b->a" ∧
  rows (calculateBreedingInbreedingM codeUnitCompare v130 (Some cowArrow) [cowArrow])
    = Some [("b->a", "b->a", 29 # 64)]%Q ∧
  (29 # 64 < 1 # 2)%Q ∧
  rows (V006Main.calculateBreedingInbreeding (Some cowArrow) [cowArrow])
    = Some [("b->a", "b->a", 15 # 16)]%Q.
Proof.
  split.
  - eexists. split; [vm_compute; reflexivity|].
    apply (Acyclic_check arrowRank). vm_compute. reflexivity.
  - vm_compute. repeat split.
Qed.

(** ** Identifiers that collate as equal *)

(** Two spellings of the same letter: U+00E9, and [e] followed by the
    combining accent U+0301. *)
Definition eAcute : string := String (ascii_of_nat 195) (String (ascii_of_nat 169) "").

Definition eWithAccent : string :=
  String "e" (String (ascii_of_nat 204) (String (ascii_of_nat 129) "")).

(** [localeCompare] on the identifiers of the records below.  The two
    spellings are canonically equivalent, and [localeCompare] returns 0 on
    canonically equivalent strings in every host (ECMA-262). *)
Definition canonicalCompare (a b : string) : Z :=
  if (String.eqb a eAcute || String.eqb a eWithAccent)
     && (String.eqb b eAcute || String.eqb b eWithAccent)
  then 0%Z
  else codeUnitCompare a b.

(** A pedigree of these two animals: the first out of the second and
    itself, the second out of the first as dam and as sire; the record of
    either animal tells all of it. *)
Definition recordAcute : PedigreeRecord :=
  recordOf eAcute eWithAccent eAcute eAcute eAcute eWithAccent eAcute
    eWithAccent eAcute eWithAccent eAcute eAcute eAcute eWithAccent eAcute.

Definition recordAccent : PedigreeRecord :=
  recordOf eWithAccent eAcute eAcute eWithAccent eAcute eWithAccent eAcute
    eAcute eAcute eWithAccent eAcute eAcute eAcute eWithAccent eAcute.

Definition tiedPair : Pedigree :=
  list_to_map [(eAcute, animalOf eWithAccent eAcute); (eWithAccent, animalOf eAcute eAcute)].

(** C5 (fails on the code).  The two identifiers are different strings
    that [localeCompare] reports as equal, so [calculateOffspringInbreeding]
    swaps them in neither order: the two orders use different cache keys
    and walk the common ancestors in different orders, and on this
    pedigree, which has cycles, the values cached under the cycle guard
    differ.  With the cow and the partner exchanged, versions 1.3.0 and
    1.1.0 report different coefficients for the same two animals: 87/64
    and 11/8. *)
Theorem tied_identifiers_order_matters :
  eAcute ≠ eWithAccent ∧
  canonicalCompare eAcute eWithAccent = 0%Z ∧
  canonicalCompare eWithAccent eAcute = 0%Z ∧
  loadPedigreeFromJsonM v130 [recordAcute; recordAccent] ∅ = Js.Normal tiedPair ∧
  loadPedigreeFromJsonM v130 [recordAccent; recordAcute] ∅ = Js.Normal tiedPair ∧
  rows (calculateBreedingInbreedingM canonicalCompare v130 (Some recordAcute) [recordAccent])
    = Some [(eWithAccent, eAcute, 87 # 64)]%Q ∧
  rows (calculateBreedingInbreedingM canonicalCompare v130 (Some recordAccent) [recordAcute])
    = Some [(eAcute, eWithAccent, 11 # 8)]%Q ∧
  rows (calculateBreedingInbreedingM canonicalCompare v110 (Some recordAcute) [recordAccent])
    = Some [(eWithAccent, eAcute, 87 # 64)]%Q ∧
  rows (calculateBreedingInbreedingM canonicalCompare v110 (Some recordAccent) [recordAcute])
    = Some [(eAcute, eWithAccent, 11 # 8)]%Q.
Proof. vm_compute. repeat split. discriminate. Qed.

(** * Further properties of the code *)

(** ** [getAncestors], exactly *)

Lemma getAncestorsFrom_exit (Inv : BfsState → Prop) (Post : list string → Prop)
    visited0 g a l :
  (∀ st st', Inv st → bfsBody g st = inl st' → Inv st') →
  Inv (bfsStart g a visited0) →
  (∀ st, Inv st → queue st = [] → Post (ancestors st)) →
  getAncestorsFrom visited0 g a = Some l → Post l.
Proof.
  intros Hbody Hstart Hexit. unfold getAncestorsFrom, runWhile. fold (bfsStart g a visited0).
  destruct (while (bfsBody g) (loopFuel g) (bfsStart g a visited0)) as [|l'] eqn:Hw; [done|].
  intros [= <-].
  eapply (while_exit_inv (bfsBody g) Inv Hbody Post); [|exact Hstart|exact Hw].
  intros st r Hst. unfold bfsBody.
  destruct (queue st) as [|current rest] eqn:Hq; [|done]. intros [= <-]. by apply Hexit.
Qed.

(** X1.  [getAncestors] of versions 0.0.6 and 1.1.0 ends and returns,
    each once, exactly the animals reached from [a] by one or more parent
    links; [a] itself is among them precisely when it is its own
    ancestor. *)
Theorem getAncestors_exact (g : Pedigree) (a : string) :
  ∃ l, V006.getAncestors g a = Some l ∧ getAncestorsM v110 g a = Some l ∧
       NoDup l ∧ ∀ x, x ∈ l ↔ isAncestor g a x.
Proof.
  destruct (getAncestorsFrom_spec g a ∅) as (l & Hl & Hnd & Hsound & _); [set_solver|].
  exists l. split_and!; try done. intros x. split; [by apply Hsound|].
  revert x.
  eapply (getAncestorsFrom_exit (BfsInv g a ∅) (λ l, ∀ x, isAncestor g a x → x ∈ l));
    [apply bfsBody_inv|apply bfsStart_inv| |exact Hl].
  intros st [_ _ Hseen Hclosed Hfirst] Hq.
  assert (∀ p, p ∈ visited st → p ∈ ancestors st) as Hvis.
  { intros p Hp. destruct (Hseen p Hp) as [Hx|[Hx|Hx]]; [|done|set_solver].
    rewrite Hq in Hx. by apply elem_of_nil in Hx. }
  apply (tc_ind_r (λ x, x ∈ ancestors st)).
  - intros x Hx. by apply Hvis, Hfirst.
  - intros y x _ Hyx IH. by eapply Hvis, Hclosed.
Qed.

(** In version 1.3.0 the animal the walk starts from is marked visited:
    it is met only if it is queued at the start, as its own dam or sire. *)
Definition selfSkipped (g : Pedigree) (a : string) (st : BfsState) : Prop :=
  a ∈ visited st ∧
  (isParent g a a → a ∈ queue st ∨ a ∈ ancestors st) ∧
  (¬ isParent g a a → (a ∉ queue st) ∧ (a ∉ ancestors st)).

Lemma visit_selfSkipped g a p st : selfSkipped g a st → selfSkipped g a (visit p st).
Proof.
  intros (Hv & Hin & Hout). unfold selfSkipped.
  rewrite visit_ancestors, visit_queue, visit_visited. naive_solver.
Qed.

Lemma bfsBody_selfSkipped g a st st' :
  selfSkipped g a st → bfsBody g st = inl st' → selfSkipped g a st'.
Proof.
  intros (Hv & Hin & Hout). unfold bfsBody.
  destruct (queue st) as [|current rest] eqn:Hcur; [done|]. intros [= <-].
  do 2 apply visit_selfSkipped. unfold selfSkipped. simpl.
  rewrite setAdd_elem. split; [done|]. split.
  - intros [[->|?]%elem_of_cons|?]%Hin; by auto.
  - intros (Hq & Ha)%Hout. rewrite not_elem_of_cons in Hq. naive_solver.
Qed.

Lemma bfsStart_selfSkipped g a : selfSkipped g a (bfsStart g a {[a]}).
Proof.
  unfold selfSkipped, bfsStart, pushSome, addSome, isParent. simpl.
  destruct (getParent1 g a) as [p1|], (getParent2 g a) as [p2|]; simpl;
    split_and!; set_unfold; naive_solver.
Qed.

(** X2.  [getAncestors] of version 1.3.0 ends and returns, each once,
    exactly the ancestors of [a], on cyclic pedigrees too; [a] itself is
    left out unless it is recorded as its own dam or sire. *)
Theorem getAncestors_without_self (g : Pedigree) (a : string) :
  ∃ l, getAncestorsM v130 g a = Some l ∧ NoDup l ∧
       ∀ x, x ∈ l ↔ isAncestor g a x ∧ (x = a → isParent g a a).
Proof.
  destruct (getAncestorsFrom_spec g a {[a]}) as (l & Hl & Hnd & Hsound & Hcomplete);
    [set_solver|].
  assert (a ∈ l ↔ isParent g a a) as Hself.
  { eapply (getAncestorsFrom_exit (selfSkipped g a) (λ l, a ∈ l ↔ isParent g a a));
      [apply bfsBody_selfSkipped|apply bfsStart_selfSkipped| |exact Hl].
    intros st (_ & Hin & Hout) Hq. rewrite Hq in Hin, Hout. split.
    - intros Ha. destruct (decide (isParent g a a)) as [|Hne]; [done|].
      by destruct (Hout Hne).
    - intros [Hnil|?]%Hin; [by apply elem_of_nil in Hnil|done]. }
  exists l. split_and!; try done. intros x. split.
  - intros Hx. split; [by apply Hsound|]. intros ->. by apply Hself.
  - intros [Hx Hp]. destruct (Hcomplete x Hx) as [Hin|Heq]; [done|]. subst x. by apply Hself, Hp.
Qed.

(** ** [_findPathsToAncestorDFS]: no path twice *)

(** No animal has one and the same animal as dam and as sire. *)
Definition DistinctParents (g : Pedigree) : Prop :=
  map_Forall (λ _ an, parent1 an = None ∨ parent1 an ≠ parent2 an) g.

Lemma DistinctParents_spec g x d s :
  DistinctParents g → getParent1 g x = Some d → getParent2 g x = Some s → d ≠ s.
Proof.
  unfold getParent1, getParent2. intros Hg Hd Hs.
  destruct (g !! x) as [an|] eqn:Hx; [|done]. simpl in *.
  destruct (Hg x an Hx); congruence.
Qed.

Lemma DistinctParents_check g : bool_decide (DistinctParents g) = true → DistinctParents g.
Proof. apply bool_decide_eq_true_1. Qed.

(** The paths found are pairwise distinct, so are the paths on the stack,
    and no path on the stack is the beginning of another path. *)
Record DfsSeparate (st : DfsState) : Prop := {
  sep_paths : NoDup (paths st);
  sep_stack : NoDup (stack st).*2;
  sep_found : ∀ e q, e ∈ stack st → q ∈ paths st → ¬ e.2 `prefix_of` q;
  sep_pending : ∀ e e', e ∈ stack st → e' ∈ stack st → e.2 `prefix_of` e'.2 → e.2 = e'.2
}.

(** The same while the parents [ys] of the popped entry have been
    processed: what extends [path] is [path] followed by one of them. *)
Record DfsSeparateAt (path : list string) (ys : list string) (st : DfsState) : Prop := {
  at_sep : DfsSeparate st;
  at_above : ∀ e, e ∈ stack st → ¬ e.2 `prefix_of` path;
  at_stack : ∀ e, e ∈ stack st → path `prefix_of` e.2 → ∃ y, y ∈ ys ∧ e.2 = path ++ [y];
  at_paths : ∀ q, q ∈ paths st → path `prefix_of` q → ∃ y, y ∈ ys ∧ q = path ++ [y]
}.

Lemma prefix_snoc_inv {A} (l path : list A) (y : A) :
  l `prefix_of` path ++ [y] → l `prefix_of` path ∨ l = path ++ [y].
Proof.
  intros [k Hk]. destruct k as [|z k] using rev_ind.
  - right. by rewrite app_nil_r in Hk.
  - left. rewrite (assoc_L (++)) in Hk. apply app_inj_tail in Hk as [-> _].
    by apply prefix_app_r.
Qed.

Lemma snoc_not_prefix {A} (path : list A) (y : A) : ¬ (path ++ [y]) `prefix_of` path.
Proof. intros H%prefix_length. rewrite length_app in H. simpl in H. lia. Qed.

Lemma processSome_separate target path ys p st :
  DfsSeparateAt path ys st → (∀ y, p = Some y → y ∉ ys) →
  DfsSeparateAt path (ys ++ option_list p) (processSome p target path st).
Proof.
  intros [[Hnp Hns Hf Hpe] Hab Hst Hpa] Hp.
  destruct p as [y|]; cbn [processSome option_list].
  2:{ rewrite app_nil_r. done. }
  specialize (Hp y eq_refl).
  assert (path ++ [y] ∉ paths st) as Hnew1.
  { intros (y' & Hy' & Heq)%Hpa; [|by apply prefix_app_r].
    apply app_inj_tail in Heq as [_ <-]. done. }
  assert (∀ e, e ∈ stack st → e.2 ≠ path ++ [y]) as Hnew2.
  { intros e He Heq. destruct (Hst e He) as (y' & Hy' & Heq').
    { rewrite Heq. by apply prefix_app_r. }
    rewrite Heq in Heq'. apply app_inj_tail in Heq' as [_ <-]. done. }
  destruct (processParentForDFS_cases target y path st) as
    [(-> & Hs & Hq)|[(Hne & Hnin & Hs & Hq)|(Hne & Hin & Heq)]];
    cbn zeta in *.
  - split; [split|..]; rewrite ?Hs, ?Hq.
    + apply NoDup_app. split_and!; [done| |apply NoDup_singleton].
      intros q Hq1 ->%list_elem_of_singleton. done.
    + done.
    + intros e q He [Hq'| ->%list_elem_of_singleton]%elem_of_app; [by apply Hf|].
      intros [Hpre|Heq]%prefix_snoc_inv; [by eapply Hab|by eapply Hnew2].
    + done.
    + done.
    + intros e He Hpre. destruct (Hst e He Hpre) as (y' & Hy' & ->).
      exists y'. split; [|done]. apply elem_of_app. by left.
    + intros q [Hq'| ->%list_elem_of_singleton]%elem_of_app Hpre.
      * destruct (Hpa q Hq' Hpre) as (y' & Hy' & ->).
        exists y'. split; [|done]. apply elem_of_app. by left.
      * exists target. split; [|done]. apply elem_of_app. right.
        by apply list_elem_of_singleton.
  - split; [split|..]; rewrite ?Hs, ?Hq.
    + done.
    + cbn [fmap list_fmap snd]. apply NoDup_cons. split; [|done].
      intros (e & Heq & He)%list_elem_of_fmap. by eapply Hnew2.
    + intros e q [->|He]%elem_of_cons Hq'; [|by apply Hf]. cbn [snd].
      intros Hpre. destruct (Hpa q Hq') as (y' & Hy' & ->).
      { etrans; [|exact Hpre]. by apply prefix_app_r. }
      apply prefix_length_eq in Hpre; [|by rewrite !length_app].
      apply Hnew1. by rewrite Hpre.
    + intros e e' [->|He]%elem_of_cons [->|He']%elem_of_cons; cbn [snd]; try done.
      * intros Hpre. destruct (Hst e' He') as (y' & Hy' & Heq).
        { etrans; [|exact Hpre]. by apply prefix_app_r. }
        rewrite Heq in Hpre |- *.
        apply prefix_length_eq in Hpre; [done|by rewrite !length_app].
      * intros [Hpre|Heq]%prefix_snoc_inv; [by destruct (Hab e He)|done].
      * by apply Hpe.
    + intros e [->|He]%elem_of_cons; [apply snoc_not_prefix|by apply Hab].
    + intros e [->|He]%elem_of_cons Hpre; cbn [snd].
      * exists y. split; [|done]. apply elem_of_app. right. by apply list_elem_of_singleton.
      * destruct (Hst e He Hpre) as (y' & Hy' & ->).
        exists y'. split; [|done]. apply elem_of_app. by left.
    + intros q Hq' Hpre. destruct (Hpa q Hq' Hpre) as (y' & Hy' & ->).
      exists y'. split; [|done]. apply elem_of_app. by left.
  - rewrite Heq. split; [done|done|..].
    + intros e He Hpre. destruct (Hst e He Hpre) as (y' & Hy' & ->).
      exists y'. split; [|done]. apply elem_of_app. by left.
    + intros q Hq' Hpre. destruct (Hpa q Hq' Hpre) as (y' & Hy' & ->).
      exists y'. split; [|done]. apply elem_of_app. by left.
Qed.

Lemma dfsBody_separate g target st st' :
  DistinctParents g → DfsSeparate st → dfsBody g target st = inl st' → DfsSeparate st'.
Proof.
  intros Hg [Hnp Hns Hf Hpe]. unfold dfsBody.
  destruct (stack st) as [|[node path] rest] eqn:Hs; [done|]. intros [= <-].
  cbn [fmap list_fmap snd] in Hns. apply NoDup_cons in Hns as [Hfresh Hns].
  assert (∀ e, e ∈ rest → e.2 ≠ path) as Hne.
  { intros e He Heq. apply Hfresh, list_elem_of_fmap. by exists e. }
  assert (DfsSeparateAt path [] (mkDfs rest (paths st))) as H0.
  { split; [split|..]; simpl.
    - done.
    - done.
    - intros e q He. apply Hf, elem_of_cons. by right.
    - intros e e' He He'. apply Hpe; apply elem_of_cons; by right.
    - intros e He Hpre. apply (Hne e He).
      apply (Hpe e (node, path)); [apply elem_of_cons; by right|apply elem_of_cons; by left|done].
    - intros e He Hpre. exfalso. apply (Hne e He). symmetry.
      apply (Hpe (node, path) e); [apply elem_of_cons; by left|apply elem_of_cons; by right|done].
    - intros q Hq Hpre. exfalso.
      apply (Hf (node, path) q); [apply elem_of_cons; by left|done|done]. }
  apply (processSome_separate target path [] (getParent1 g node)) in H0; [|set_solver].
  apply (processSome_separate target path _ (getParent2 g node)) in H0.
  - by destruct H0.
  - intros y Hy. cbn [app]. destruct (getParent1 g node) as [d|] eqn:Hd; cbn [option_list].
    + intros Heq%list_elem_of_singleton. subst d.
      by eapply (DistinctParents_spec g node y y).
    + apply not_elem_of_nil.
Qed.

(** X3.  When no animal has the same animal as dam and as sire, the path
    enumeration returns every simple path from [start] to [target]
    exactly once. *)
Theorem findPaths_each_once (g : Pedigree) (start target : string) :
  DistinctParents g →
  ∃ ps, findPathsToAncestorDFS g start target = Some ps ∧ NoDup ps ∧
        ∀ p, p ∈ ps ↔ SimplePath g start target p.
Proof.
  intros Hg. destruct (findPathsToAncestorDFS_spec g start target) as (ps & Hps & Hin).
  exists ps. split_and!; try done. revert Hps.
  unfold findPathsToAncestorDFS, runWhile. destruct (equals start target).
  { intros [= <-]. apply NoDup_singleton. }
  destruct (while _ _ _) as [|ps'] eqn:Hw; [done|]. intros [= ->].
  eapply (while_exit_inv (dfsBody g target) DfsSeparate
            (λ st st', dfsBody_separate g target st st' Hg) (λ ps, NoDup ps));
    [| |exact Hw].
  - intros st r [Hnp _ _ _]. unfold dfsBody.
    destruct (stack st) as [|[node path] rest]; [|done]. by intros [= <-].
  - split; simpl.
    + apply NoDup_nil_2.
    + apply NoDup_singleton.
    + by intros e q _ ?%elem_of_nil.
    + by intros e e' ->%list_elem_of_singleton ->%list_elem_of_singleton.
Qed.

(** The pedigree of two full siblings and their parents. *)
Lemma findPaths_each_once_witness :
  ∃ ps, findPathsToAncestorDFS siblings "A" "D" = Some ps ∧ NoDup ps ∧
        ∀ p, p ∈ ps ↔ SimplePath siblings "A" "D" p.
Proof.
  apply (findPaths_each_once siblings "A" "D").
  apply DistinctParents_check. vm_compute. reflexivity.
Defined.

(** ** [_arePathsIndependent] *)

(** [path.slice(1, -1)] holds the elements of [path] but the first and the
    last. *)
Lemma midNodes_lookup (path : list string) (x : string) :
  x ∈ midNodes path ↔ ∃ i, path !! S i = Some x ∧ S (S i) < length path.
Proof.
  unfold midNodes. rewrite removelast_firstn_len.
  destruct path as [|y path]; simpl.
  { split; [by intros ?%elem_of_nil|]. by intros (i & ? & _). }
  rewrite list_elem_of_lookup. split.
  - intros (i & Hi). apply lookup_take_Some in Hi as [Hi Hlt]. exists i. split; [done|].
    lia.
  - intros (i & Hi & Hlt). exists i. apply lookup_take_Some. split; [done|]. lia.
Qed.

(** X4.  Two paths are rejected by the filter of version 1.3.0 exactly
    when some animal stands in both of them at a place that is neither
    the first nor the last; the order of the two paths does not matter,
    and a path of at most two animals is independent of every path. *)
Theorem arePathsIndependent_exact (path1 path2 : list string) :
  (arePathsIndependent path1 path2 = false ↔
   ∃ i j x, path1 !! S i = Some x ∧ S (S i) < length path1 ∧
            path2 !! S j = Some x ∧ S (S j) < length path2) ∧
  arePathsIndependent path1 path2 = arePathsIndependent path2 path1 ∧
  (length path1 ≤ 2 → arePathsIndependent path1 path2 = true).
Proof.
  split_and!.
  - rewrite <-not_true_iff_false, midNodes_disjoint. split.
    + intros Hno.
      destruct (decide (Exists (λ x, x ∈ midNodes path2) (midNodes path1)))
        as [(x & (i & ? & ?)%midNodes_lookup & (j & ? & ?)%midNodes_lookup)%Exists_exists
           |Hnone].
      * by exists i, j, x.
      * destruct Hno. intros x Hx1 Hx2. apply Hnone, Exists_exists. by exists x.
    + intros (i & j & x & H1 & Hi & H2 & Hj) Hall.
      apply (Hall x); apply midNodes_lookup; by eauto.
  - apply arePathsIndependent_sym.
  - intros Hlen. apply midNodes_disjoint. intros x (i & _ & Hi)%midNodes_lookup. lia.
Qed.

(** ** The engine of version 0.0.6 *)

(** X5.  On every pedigree, cyclic ones included, both methods of the
    calculator of version 0.0.6 return a value, and the value is never
    negative. *)
Theorem coefficient_nonnegative (g : Pedigree) (animal parent1 parent2 : option string) :
  (∃ f, V006.calculateInbreeding g animal = Some f ∧ (0 ≤ f)%Qc) ∧
  (∃ f, V006.calculateOffspringInbreeding g parent1 parent2 = Some f ∧ (0 ≤ f)%Qc).
Proof.
  rewrite V006_calculateInbreeding, V006_calculateOffspringInbreeding. split.
  - destruct (inbreedingR_is_Some v110 g (depthFuel g) ∅ animal) as [f Hf].
    { unfold depthFuel. apply Nat.lt_succ_r, subseteq_size. set_solver. }
    exists f. split; [done|]. by eapply inbreedingR_nonneg.
  - destruct (offspringR_is_Some v110 g ∅ parent1 parent2) as [f Hf].
    exists f. split; [done|]. by eapply offspringR_nonneg.
Qed.

(** X7.  On an acyclic pedigree the coefficient of an animal with both
    parents known is the offspring coefficient of its parents. *)
Theorem inbreeding_is_parents_offspring (g : Pedigree) (x dam sire : string) :
  Acyclic g → getParent1 g x = Some dam → getParent2 g x = Some sire →
  V006.calculateInbreeding g (Some x)
  = V006.calculateOffspringInbreeding g (Some dam) (Some sire).
Proof.
  intros Hacyclic Hd Hs.
  rewrite V006_calculateInbreeding, V006_calculateOffspringInbreeding.
  destruct (offspringR_is_Some v110 g ∅ (Some dam) (Some sire)) as [f Hf].
  rewrite Hf. unfold depthFuel. cbn [inbreedingR].
  rewrite decide_False by set_solver. rewrite Hd, Hs.
  destruct (offspringWithR_is_Some v110
              (inbreedingR v110 (size (universe g)) g ({[x]} ∪ ∅)) g (Some dam) (Some sire))
    as [f' Hf'].
  { intros p1 p2 y [= <-] [= <-] Hy _. apply inbreedingR_is_Some.
    assert (x ∈ universe g).
    { apply elem_of_union_l. eapply getParent_dom. eauto. }
    assert (universe g = {[x]} ∪ universe g ∖ ({[x]} ∪ ∅)) as Heq.
    { apply set_eq. intros z. destruct (decide (z = x)); set_solver. }
    rewrite Heq at 2. rewrite (size_union {[x]}), size_singleton by set_solver. lia. }
  rewrite Hf'. f_equal. unfold offspringR in Hf.
  eapply offspringWithR_mono in Hf'; [rewrite Hf in Hf'; by injection Hf'|].
  intros y fy Hy _ Hfy.
  eapply (inbreedingR_canonical v110 g _ _ y fy (depthFuel g) ∅ Hacyclic Hfy);
    [|unfold depthFuel; lia|set_solver].
  intros z [->%elem_of_singleton|?]%elem_of_union; [|set_solver].
  intros Hyx. apply (Hacyclic x). eapply tc_rtc_r; [|exact Hyx].
  eapply tc_rtc_r; [|exact Hy]. apply tc_once. by left.
Qed.

(** [C] out of [A] and [B], the full siblings of the pedigree above. *)
Definition siblingsChild : Pedigree := <["C" := animalOf "A" "B"]> siblings.

Definition siblingsChildRank (x : string) : nat :=
  if String.eqb x "C" then 2 else siblingsRank x.

Lemma inbreeding_is_parents_offspring_witness :
  V006.calculateInbreeding siblingsChild (Some "C")
  = V006.calculateOffspringInbreeding siblingsChild (Some "A") (Some "B").
Proof.
  apply (inbreeding_is_parents_offspring siblingsChild "C" "A" "B").
  - apply (Acyclic_check siblingsChildRank). vm_compute. reflexivity.
  - reflexivity.
  - reflexivity.
Defined.

(** *** Standard matings *)

Lemma half_siblings_R version g a b dam sire1 sire2 :
  a ≠ b → dam ≠ sire1 → dam ≠ sire2 → sire1 ≠ sire2 →
  getParent1 g a = Some dam → getParent2 g a = Some sire1 →
  getParent1 g b = Some dam → getParent2 g b = Some sire2 →
  founder g dam → founder g sire1 → founder g sire2 →
  offspringR version (depthFuel g) g ∅ (Some a) (Some b) = Some (Q2Qc (1 # 8)).
Proof.
  intros Hab Hd1 Hd2 Hss Had Has Hbd Hbs Hfd Hf1 Hf2.
  unfold offspringR. rewrite offspringWithR_sum.
  destruct (commonAncestorsR_spec version g a b) as (l & -> & Hnd & Hin).
  cbn [mbind option_bind].
  assert (a ≠ dam ∧ a ≠ sire2 ∧ b ≠ dam ∧ b ≠ sire1) as (? & ? & ? & ?).
  { destruct Hfd, Hf1, Hf2. split_and!; congruence. }
  assert (l ≡ₚ [dam]) as Hl.
  { apply NoDup_Permutation; [done|apply NoDup_singleton|].
    intros x. rewrite Hin, (child_closure g a dam sire1), (child_closure g b dam sire2)
      by done. set_solver. }
  rewrite (sumOpt_Permutation _ _ (fmap_Permutation _ _ _ Hl)).
  cbn [fmap list_fmap sumOpt foldr]. unfold termR.
  rewrite !founder_inbreedingR by done. cbn [mbind option_bind findPathsToAncestor].
  rewrite (findPaths_child_dam g a dam sire1), (findPaths_child_dam g b dam sire2) by done.
  cbn [mbind option_bind]. f_equal. destruct version; by apply Qc_is_canon.
Qed.

(** X8.  Two distinct animals with the same dam and different sires, the
    three parents being founders, have an offspring coefficient of
    0.125. *)
Theorem half_siblings_eighth (g : Pedigree) (a b dam sire1 sire2 : string) :
  a ≠ b → dam ≠ sire1 → dam ≠ sire2 → sire1 ≠ sire2 →
  getParent1 g a = Some dam → getParent2 g a = Some sire1 →
  getParent1 g b = Some dam → getParent2 g b = Some sire2 →
  founder g dam → founder g sire1 → founder g sire2 →
  V006.calculateOffspringInbreeding g (Some a) (Some b) = Some (Q2Qc (1 # 8)).
Proof.
  intros. rewrite V006_calculateOffspringInbreeding.
  by apply (half_siblings_R v110 g a b dam sire1 sire2).
Qed.

(** [A] and [B] out of the dam [D], by the sires [S] and [T]. *)
Definition halfSiblings : Pedigree :=
  list_to_map [("A", animalOf "D" "S"); ("B", animalOf "D" "T");
               ("D", animalOf "" ""); ("S", animalOf "" ""); ("T", animalOf "" "")].

Lemma half_siblings_eighth_witness :
  V006.calculateOffspringInbreeding halfSiblings (Some "A") (Some "B")
  = Some (Q2Qc (1 # 8)).
Proof.
  apply (half_siblings_eighth halfSiblings "A" "B" "D" "S" "T");
    try done; by split.
Defined.

Lemma parent_offspring_R version g child dam sire :
  dam ≠ sire →
  getParent1 g child = Some dam → getParent2 g child = Some sire →
  founder g dam → founder g sire →
  offspringR version (depthFuel g) g ∅ (Some sire) (Some child) = Some (Q2Qc (1 # 4)) ∧
  offspringR version (depthFuel g) g ∅ (Some dam) (Some child) = Some (Q2Qc (1 # 4)).
Proof.
  intros Hds Hd Hs Hfd Hfs.
  assert (child ≠ dam ∧ child ≠ sire) as [? ?].
  { destruct Hfd, Hfs. split; congruence. }
  split; unfold offspringR; rewrite offspringWithR_sum.
  - destruct (commonAncestorsR_spec version g sire child) as (l & -> & Hnd & Hin).
    cbn [mbind option_bind].
    assert (l ≡ₚ [sire]) as Hl.
    { apply NoDup_Permutation; [done|apply NoDup_singleton|].
      intros x. rewrite Hin, (child_closure g child dam sire) by done.
      split.
      - intros [Hx _]. apply (founder_closure g sire) in Hx; [|done]. set_solver.
      - intros ->%list_elem_of_singleton. split; [done|by auto]. }
    rewrite (sumOpt_Permutation _ _ (fmap_Permutation _ _ _ Hl)).
    cbn [fmap list_fmap sumOpt foldr]. unfold termR.
    rewrite !founder_inbreedingR by done. cbn [mbind option_bind findPathsToAncestor].
    rewrite (findPaths_child_sire g child dam sire) by done.
    unfold findPathsToAncestorDFS, equals. rewrite bool_decide_eq_true_2 by done.
    cbn [mbind option_bind]. f_equal. destruct version; by apply Qc_is_canon.
  - destruct (commonAncestorsR_spec version g dam child) as (l & -> & Hnd & Hin).
    cbn [mbind option_bind].
    assert (l ≡ₚ [dam]) as Hl.
    { apply NoDup_Permutation; [done|apply NoDup_singleton|].
      intros x. rewrite Hin, (child_closure g child dam sire) by done.
      split.
      - intros [Hx _]. apply (founder_closure g dam) in Hx; [|done]. set_solver.
      - intros ->%list_elem_of_singleton. split; [done|by auto]. }
    rewrite (sumOpt_Permutation _ _ (fmap_Permutation _ _ _ Hl)).
    cbn [fmap list_fmap sumOpt foldr]. unfold termR.
    rewrite !founder_inbreedingR by done. cbn [mbind option_bind findPathsToAncestor].
    rewrite (findPaths_child_dam g child dam sire) by done.
    unfold findPathsToAncestorDFS, equals. rewrite bool_decide_eq_true_2 by done.
    cbn [mbind option_bind]. f_equal. destruct version; by apply Qc_is_canon.
Qed.

(** X9.  Mating an animal back to its sire, or to its dam, both parents
    being founders, gives an offspring coefficient of 0.25. *)
Theorem parent_offspring_quarter (g : Pedigree) (child dam sire : string) :
  dam ≠ sire →
  getParent1 g child = Some dam → getParent2 g child = Some sire →
  founder g dam → founder g sire →
  V006.calculateOffspringInbreeding g (Some sire) (Some child) = Some (Q2Qc (1 # 4)) ∧
  V006.calculateOffspringInbreeding g (Some dam) (Some child) = Some (Q2Qc (1 # 4)).
Proof.
  intros. rewrite !V006_calculateOffspringInbreeding.
  by apply (parent_offspring_R v110 g child dam sire).
Qed.

Lemma parent_offspring_quarter_witness :
  V006.calculateOffspringInbreeding siblings (Some "S") (Some "A") = Some (Q2Qc (1 # 4)) ∧
  V006.calculateOffspringInbreeding siblings (Some "D") (Some "A") = Some (Q2Qc (1 # 4)).
Proof.
  apply (parent_offspring_quarter siblings "A" "D" "S"); try done; by split.
Defined.

(** ** The memoised engines *)

(** *** A repeated query is answered from the cache *)

Lemma calculateOffspringInbreedingWithM_cached localeCompare version F g a b c f c' :
  calculateOffspringInbreedingWithM localeCompare version F g (Some a) (Some b) c
    = Some (f, c') →
  let '(p1, p2) := if (0 <? localeCompare a b)%Z then (b, a) else (a, b) in
  offspringInbreedingCache c' !! offspringKey p1 p2 = Some f.
Proof.
  unfold calculateOffspringInbreedingWithM.
  destruct (if (0 <? localeCompare a b)%Z then (b, a) else (a, b)) as [p1 p2].
  destruct (offspringInbreedingCache c !! offspringKey p1 p2) as [cached|] eqn:Hc.
  { by intros [= <- <-]. }
  unfold mbindM, liftFuel, setOffspringInbreeding, ret.
  destruct (setAdd p1 <$> getAncestorsM version g p1) as [ancestors1|]; [|done].
  destruct (setAdd p2 <$> getAncestorsM version g p2) as [ancestors2|]; [|done].
  destruct (returnsEarly _ _).
  - intros [= <- <-]. simpl. apply lookup_insert_eq.
  - destruct (forCommonAncestorsM _ _ _ _ _ _ _ _) as [[totalF c1]|]; [|done].
    intros [= <- <-]. simpl. apply lookup_insert_eq.
Qed.

(** X10.  Once [calculateOffspringInbreeding] of a memoising calculator
    has returned a coefficient for a pair, asking again, on any pedigree
    and with the two parents in either order, returns the same
    coefficient and leaves the calculator as it is. *)
Theorem offspring_query_repeats (localeCompare : string → string → Z) (version : Version)
    (g g' : Pedigree) (a b : string) (c c' : Calculator) (f : Qc) :
  calculateOffspringInbreedingM localeCompare version g (Some a) (Some b) c = Some (f, c') →
  calculateOffspringInbreedingM localeCompare version g' (Some a) (Some b) c' = Some (f, c') ∧
  ((0 <? localeCompare a b)%Z = negb (0 <? localeCompare b a)%Z →
   calculateOffspringInbreedingM localeCompare version g' (Some b) (Some a) c'
     = Some (f, c')).
Proof.
  intros Hcall%calculateOffspringInbreedingWithM_cached.
  unfold calculateOffspringInbreedingM, calculateOffspringInbreedingWithM. split.
  - destruct (if (0 <? localeCompare a b)%Z then (b, a) else (a, b)) as [p1 p2].
    by rewrite Hcall.
  - intros Horder. rewrite Horder in Hcall.
    destruct (0 <? localeCompare b a)%Z; simpl in Hcall; by rewrite Hcall.
Qed.

(** X11.  The same for [calculateInbreeding]: whatever the call returned
    (a cached value, 0 under the cycle guard, or a computed value it then
    cached), the next call with the same guard set returns it again and
    leaves the calculator as it is, on any pedigree. *)
Theorem inbreeding_query_repeats (localeCompare : string → string → Z) (version : Version)
    (n m : nat) (g g' : Pedigree) (currentlyCalculatingF : gset string) (x : string)
    (c c' : Calculator) (f : Qc) :
  calculateInbreedingM localeCompare version n g currentlyCalculatingF (Some x) c
    = Some (f, c') →
  calculateInbreedingM localeCompare version m g' currentlyCalculatingF (Some x) c'
    = Some (f, c').
Proof.
  destruct n as [|n]; cbn [calculateInbreedingM];
    destruct (inbreedingCache c !! x) as [cached|] eqn:Hc.
  1,3: intros [= <- <-]; destruct m; cbn [calculateInbreedingM]; by rewrite Hc.
  - case_decide as Hguard; [|done]. intros [= <- <-].
    destruct m; cbn [calculateInbreedingM]; rewrite Hc; by rewrite decide_True.
  - case_decide as Hguard.
    { intros [= <- <-].
      destruct m; cbn [calculateInbreedingM]; rewrite Hc; by rewrite decide_True. }
    unfold mbindM, setInbreeding, ret.
    destruct (getParent1 g x) as [p1|], (getParent2 g x) as [p2|];
      try (intros [= <- <-];
           destruct m; cbn [calculateInbreedingM]; simpl; by rewrite lookup_insert_eq).
    destruct (calculateOffspringInbreedingWithM _ _ _ _ _ _ c) as [[f0 c0]|]; [|done].
    intros [= <- <-].
    destruct m; cbn [calculateInbreedingM]; simpl; by rewrite lookup_insert_eq.
Qed.

(** *** The memoised engines end, with a coefficient that is not negative *)

(** No cached coefficient is negative. *)
Definition NonNegative (c : Calculator) : Prop :=
  map_Forall (λ _ f, (0 ≤ f)%Qc) (inbreedingCache c) ∧
  map_Forall (λ _ f, (0 ≤ f)%Qc) (offspringInbreedingCache c).

(** A method that returns, with a non-negative value, on every calculator
    whose caches hold no negative value, and keeps the caches so. *)
Definition Returns (m : Method Qc) : Prop :=
  ∀ c, NonNegative c → ∃ f c', m c = Some (f, c') ∧ (0 ≤ f)%Qc ∧ NonNegative c'.

Lemma findPathsToAncestorWithCache_returns g s t c :
  ∃ ps c', findPathsToAncestorWithCache g s t c = Some (ps, c') ∧
           inbreedingCache c' = inbreedingCache c ∧
           offspringInbreedingCache c' = offspringInbreedingCache c.
Proof.
  destruct s as [s|], t as [t|]; try (by eexists _, _).
  unfold findPathsToAncestorWithCache.
  destruct (pathCache c !! pathKeyOf s t) as [cached|]; [by eexists _, _|].
  destruct (findPathsToAncestorDFS_spec g s t) as (ps & Hps & _).
  unfold mbindM, liftFuel, setPaths, ret. rewrite Hps. by eexists _, _.
Qed.

Lemma accumulateM_nonneg version f paths1 paths2 t :
  (0 ≤ f)%Qc → (0 ≤ t)%Qc → (0 ≤ accumulateM version f paths1 paths2 t)%Qc.
Proof.
  intros Hf Ht. rewrite accumulateM_weight.
  apply Qcplus_nonneg_nonneg; [done|]. apply Qcmult_nonneg_nonneg.
  - apply weight_nonneg.
  - by apply Qcplus_nonneg_nonneg.
Qed.

Lemma forCommonAncestorsM_returns version (F : option string → Method Qc) g p1 p2 l t :
  (∀ x, Returns (F (Some x))) → (0 ≤ t)%Qc →
  Returns (forCommonAncestorsM version F g p1 p2 l t).
Proof.
  intros HF. revert t. induction l as [|x l IH]; intros t Ht c Hc.
  { exists t, c. done. }
  cbn [forCommonAncestorsM]. unfold mbindM.
  destruct (HF x c Hc) as (fx & c1 & -> & Hfx & Hc1).
  destruct (findPathsToAncestorWithCache_returns g (Some p1) (Some x) c1)
    as (ps & c2 & -> & Hi2 & Ho2).
  destruct (findPathsToAncestorWithCache_returns g (Some p2) (Some x) c2)
    as (qs & c3 & -> & Hi3 & Ho3).
  apply IH; [by apply accumulateM_nonneg|].
  unfold NonNegative. rewrite Hi3, Ho3, Hi2, Ho2. done.
Qed.

Lemma calculateOffspringInbreedingWithM_returns localeCompare version F g parent1 parent2 :
  (∀ x, Returns (F (Some x))) →
  Returns (calculateOffspringInbreedingWithM localeCompare version F g parent1 parent2).
Proof.
  intros HF c Hc. destruct parent1 as [a|], parent2 as [b|]; try (by exists 0%Qc, c).
  unfold calculateOffspringInbreedingWithM.
  destruct (if (0 <? localeCompare a b)%Z then (b, a) else (a, b)) as [p1 p2].
  destruct (offspringInbreedingCache c !! offspringKey p1 p2) as [cached|] eqn:Hcached.
  { exists cached, c. split_and!; [done| |done]. destruct Hc as [_ Ho]. by eapply Ho. }
  destruct (getAncestorsM_spec version g p1) as (l1 & Hl1 & _).
  destruct (getAncestorsM_spec version g p2) as (l2 & Hl2 & _).
  unfold mbindM, liftFuel. rewrite Hl1, Hl2. cbn [fmap option_fmap option_map].
  destruct (returnsEarly _ _).
  - eexists _, _. split; [done|]. split; [done|]. destruct Hc as [Hi Ho].
    split; simpl; [done|]. by apply map_Forall_insert_2.
  - destruct (forCommonAncestorsM_returns version F g p1 p2
                (filter (λ ancestor, ancestor ∈ setAdd p2 l2) (setAdd p1 l1)) 0%Qc HF)
      with (c := c) as (f & c1 & -> & Hf & [Hi Ho]); [done|done|].
    eexists _, _. split; [done|]. split; [done|].
    split; simpl; [done|]. by apply map_Forall_insert_2.
Qed.

Lemma calculateInbreedingM_returns localeCompare version n g guard animal :
  size (universe g ∖ guard) < n →
  Returns (calculateInbreedingM localeCompare version n g guard animal).
Proof.
  revert guard animal. induction n as [|n IH]; intros guard [a|] Hn c Hc;
    cbn [calculateInbreedingM]; try (by exists 0%Qc, c); [lia|].
  destruct (inbreedingCache c !! a) as [cached|] eqn:Hcached.
  { exists cached, c. split_and!; [done| |done]. destruct Hc as [Hi _]. by eapply Hi. }
  case_decide as Hg; [by exists 0%Qc, c|].
  assert (∀ f c1, (0 ≤ f)%Qc → NonNegative c1 →
            NonNegative (mkCalculator (<[a := f]> (inbreedingCache c1))
                           (offspringInbreedingCache c1) (pathCache c1))) as Hset.
  { intros f c1 Hf [Hi Ho]. split; simpl; [|done]. by apply map_Forall_insert_2. }
  destruct (getParent1 g a) as [p1|] eqn:Hp1;
    [destruct (getParent2 g a) as [p2|] eqn:Hp2|];
    unfold mbindM, setInbreeding, ret.
  2,3: eexists _, _; split; [done|]; split; [done|]; by apply Hset.
  destruct (calculateOffspringInbreedingWithM_returns localeCompare version
              (calculateInbreedingM localeCompare version n g ({[a]} ∪ guard)) g
              (Some p1) (Some p2)) with (c := c) as (f & c1 & -> & Hf & Hc1); [|done|].
  { intros x. apply IH.
    assert (a ∈ universe g).
    { apply elem_of_union_l. eapply getParent_dom. eauto. }
    assert (universe g ∖ guard = {[a]} ∪ universe g ∖ ({[a]} ∪ guard)) as Heq.
    { apply set_eq. intros y. destruct (decide (y = a)); set_solver. }
    rewrite Heq, (size_union {[a]}), size_singleton in Hn by set_solver. lia. }
  eexists _, _. split; [done|]. split; [done|]. by apply Hset.
Qed.

Lemma calculateOffspringInbreedingM_returns localeCompare version g parent1 parent2 :
  Returns (calculateOffspringInbreedingM localeCompare version g parent1 parent2).
Proof.
  apply calculateOffspringInbreedingWithM_returns.
  intros x. apply calculateInbreedingM_returns.
  unfold depthFuel. apply Nat.lt_succ_r, subseteq_size. set_solver.
Qed.

Lemma newCalculator_NonNegative : NonNegative newCalculator.
Proof. split; apply map_Forall_empty. Qed.

(** X12.  On every pedigree, cyclic ones included, and in both memoised
    versions, [calculateOffspringInbreeding] returns; when no cached
    coefficient is negative, neither is the one returned, nor any cached
    afterwards. *)
Theorem memoised_offspring_returns (localeCompare : string → string → Z)
    (version : Version) (g : Pedigree) (parent1 parent2 : option string)
    (c : Calculator) :
  NonNegative c →
  ∃ f c', calculateOffspringInbreedingM localeCompare version g parent1 parent2 c
            = Some (f, c') ∧ (0 ≤ f)%Qc ∧ NonNegative c'.
Proof. apply calculateOffspringInbreedingM_returns. Qed.

Lemma memoised_offspring_returns_witness :
  ∃ f c', calculateOffspringInbreedingM codeUnitCompare v130 loop3 (Some "A") (Some "C")
            newCalculator = Some (f, c') ∧ (0 ≤ f)%Qc ∧ NonNegative c'.
Proof.
  apply (memoised_offspring_returns codeUnitCompare v130 loop3 (Some "A") (Some "C")
           newCalculator).
  split; apply map_Forall_empty.
Defined.

(** *** The entry points end *)

Lemma loadPedigreeFromJsonM_ends version records animalMap :
  ends (loadPedigreeFromJsonM version records animalMap).
Proof.
  destruct version; cbn [loadPedigreeFromJsonM].
  - apply forRecords_ends. intros record m.
    apply bind_ends; [apply getOrCreateAnimal_ends|]. intros [[main|] ?] _; [|done].
    apply forRelationships_ends.
  - apply bind_ends; [apply createAll_ends|]. intros ? _.
    apply forRecords_ends. intros. apply forRelationships_ends.
Qed.

Lemma forBullsM_ends localeCompare version primaryCowId bulls animalMap calculator results :
  NonNegative calculator →
  ends (forBullsM localeCompare version primaryCowId bulls animalMap calculator results).
Proof.
  revert animalMap calculator results.
  induction bulls as [|bull rest IH]; intros animalMap calculator results Hc; [done|].
  cbn [forBullsM]. case_match; [by apply IH|].
  apply bind_ends; [apply getOrCreateAnimal_ends|]. intros [cowAnimal animalMap1] _.
  apply bind_ends; [apply getOrCreateAnimal_ends|]. intros [bullAnimal animalMap2] _.
  destruct cowAnimal as [cow|], bullAnimal as [b|]; try by apply IH.
  destruct (calculateOffspringInbreedingM_returns localeCompare version animalMap2
              (Some b) (Some cow) calculator Hc) as (f & c' & Hcall & _ & Hc').
  rewrite Hcall. cbn [Js.ofFuel Js.bind]. by apply IH.
Qed.

(** X13.  [calculateBreedingInbreeding] ends on every input, in each of
    the three versions: it returns a result array or throws. *)
Theorem entry_points_end (localeCompare : string → string → Z) (version : Version)
    (cowRecord : option PedigreeRecord) (bullRecordsArray : list PedigreeRecord) :
  ((∃ results, V006Main.calculateBreedingInbreeding cowRecord bullRecordsArray
                 = Js.Normal results) ∨
   (∃ e, V006Main.calculateBreedingInbreeding cowRecord bullRecordsArray = Js.Throw e)) ∧
  ((∃ results, calculateBreedingInbreedingM localeCompare version cowRecord bullRecordsArray
                 = Js.Normal results) ∨
   (∃ e, calculateBreedingInbreedingM localeCompare version cowRecord bullRecordsArray
           = Js.Throw e)).
Proof.
  assert (∀ c : Js.Completion (list Pairing), ends c →
            (∃ results, c = Js.Normal results) ∨ (∃ e, c = Js.Throw e)) as Hends.
  { intros [results|e|] Hc; [by eauto..|done]. }
  split; apply Hends.
  - apply V006_calculateBreedingInbreeding_ends.
  - unfold calculateBreedingInbreedingM. destruct cowRecord as [cow|]; [|done].
    case_match; [done|].
    apply bind_ends; [apply loadPedigreeFromJsonM_ends|]. intros animalMap _.
    apply forBullsM_ends, newCalculator_NonNegative.
Qed.

(** *** Repeated queries, on the pedigrees above *)

Lemma offspring_query_repeats_witness :
  ∃ f c',
    calculateOffspringInbreedingM codeUnitCompare v130 siblings (Some "A") (Some "B")
      newCalculator = Some (f, c') ∧
    calculateOffspringInbreedingM codeUnitCompare v130 ∅ (Some "A") (Some "B") c'
      = Some (f, c') ∧
    ((0 <? codeUnitCompare "A" "B")%Z = negb (0 <? codeUnitCompare "B" "A")%Z →
     calculateOffspringInbreedingM codeUnitCompare v130 ∅ (Some "B") (Some "A") c'
       = Some (f, c')).
Proof.
  destruct (calculateOffspringInbreedingM_returns codeUnitCompare v130 siblings
              (Some "A") (Some "B") newCalculator newCalculator_NonNegative)
    as (f & c' & Hcall & _).
  exists f, c'. split; [exact Hcall|].
  apply (offspring_query_repeats codeUnitCompare v130 siblings ∅ "A" "B" newCalculator).
  exact Hcall.
Defined.

Lemma inbreeding_query_repeats_witness :
  ∃ f c',
    calculateInbreedingM codeUnitCompare v130 (depthFuel siblingsChild) siblingsChild ∅
      (Some "C") newCalculator = Some (f, c') ∧
    calculateInbreedingM codeUnitCompare v130 0 ∅ ∅ (Some "C") c' = Some (f, c').
Proof.
  destruct (calculateInbreedingM_returns codeUnitCompare v130 (depthFuel siblingsChild)
              siblingsChild ∅ (Some "C")) with (c := newCalculator)
    as (f & c' & Hcall & _).
  - unfold depthFuel. apply Nat.lt_succ_r, subseteq_size. set_solver.
  - apply newCalculator_NonNegative.
  - exists f, c'. split; [exact Hcall|].
    apply (inbreeding_query_repeats codeUnitCompare v130 (depthFuel siblingsChild) 0
             siblingsChild ∅ ∅ "C" newCalculator).
    exact Hcall.
Defined.

(** ** The planner *)

(** *** [trim] leaves a trimmed string as it is *)

Lemma append_cons a (s t : string) : (String a s ++ t)%string = String a (s ++ t)%string.
Proof. done. Qed.

Lemma rev_app_snoc s c acc :
  String.rev_app (s ++ String c "")%string acc = String c (String.rev_app s acc).
Proof.
  revert acc. induction s as [|a s IH]; intros acc; [done|].
  rewrite append_cons. cbn [String.rev_app]. apply IH.
Qed.

Lemma append_assoc (s1 s2 s3 : string) : ((s1 ++ s2) ++ s3 = s1 ++ (s2 ++ s3))%string.
Proof. induction s1 as [|a s1 IH]; [done|]. by rewrite !append_cons, IH. Qed.

Lemma append_empty_r (s : string) : (s ++ "")%string = s.
Proof. induction s as [|a s IH]; [done|]. by rewrite append_cons, IH. Qed.

Lemma rev_app_append s acc : String.rev_app s acc = (String.rev s ++ acc)%string.
Proof.
  unfold String.rev. revert acc. induction s as [|a s IH]; intros acc; [done|].
  cbn [String.rev_app]. rewrite (IH (String a acc)), (IH (String a "")), append_assoc.
  done.
Qed.

Lemma rev_cons a s : String.rev (String a s) = (String.rev s ++ String a "")%string.
Proof. unfold String.rev at 1. cbn [String.rev_app]. apply rev_app_append. Qed.

Lemma rev_involutive s : String.rev (String.rev s) = s.
Proof.
  induction s as [|a s IH]; [done|].
  rewrite rev_cons. unfold String.rev at 1. rewrite rev_app_snoc.
  fold (String.rev (String.rev s)). by rewrite IH.
Qed.

Lemma rev_append (s t : string) :
  String.rev (s ++ t)%string = (String.rev t ++ String.rev s)%string.
Proof.
  induction s as [|a s IH].
  - change ("" ++ t)%string with t. by rewrite append_empty_r.
  - by rewrite append_cons, !rev_cons, IH, append_assoc.
Qed.

(** The rest of [s] behind one leading white-space character. *)
Definition stripWhiteSpace (back : bool) (s : string) : option string :=
  match s with
  | String c1 s1 =>
      if Js.isWhiteSpace c1 then Some s1
      else
        match s1 with
        | String c2 s2 =>
            if (if back then Js.isWhiteSpace2 c2 c1 else Js.isWhiteSpace2 c1 c2)
            then Some s2
            else
              match s2 with
              | String c3 s3 =>
                  if (if back then Js.isWhiteSpace3 c3 c2 c1 else Js.isWhiteSpace3 c1 c2 c3)
                  then Some s3
                  else None
              | EmptyString => None
              end
        | EmptyString => None
        end
  | EmptyString => None
  end.

Lemma dropWhiteSpace_unfold back s :
  Js.dropWhiteSpace back s
  = match stripWhiteSpace back s with
    | Some rest => Js.dropWhiteSpace back rest
    | None => s
    end.
Proof.
  destruct s as [|c1 [|c2 [|c3 s3]]]; cbn [Js.dropWhiteSpace stripWhiteSpace]; try done.
  - by destruct (Js.isWhiteSpace c1).
  - destruct (Js.isWhiteSpace c1); [done|].
    by destruct (if back then Js.isWhiteSpace2 c2 c1 else Js.isWhiteSpace2 c1 c2).
  - destruct (Js.isWhiteSpace c1); [done|].
    destruct (if back then Js.isWhiteSpace2 c2 c1 else Js.isWhiteSpace2 c1 c2); [done|].
    by destruct (if back then Js.isWhiteSpace3 c3 c2 c1 else Js.isWhiteSpace3 c1 c2 c3).
Qed.

Lemma stripWhiteSpace_split back s rest :
  stripWhiteSpace back s = Some rest →
  ∃ w, s = (w ++ rest)%string ∧ String.length rest < String.length s.
Proof.
  destruct s as [|c1 [|c2 [|c3 s3]]]; cbn [stripWhiteSpace]; try done.
  - destruct (Js.isWhiteSpace c1); [|done]. intros [= <-].
    exists (String c1 ""). split; [done|]. simpl. lia.
  - destruct (Js.isWhiteSpace c1).
    { intros [= <-]. exists (String c1 ""). split; [done|]. simpl. lia. }
    destruct (if back then Js.isWhiteSpace2 c2 c1 else Js.isWhiteSpace2 c1 c2); [|done].
    intros [= <-]. exists (String c1 (String c2 "")). split; [done|]. simpl. lia.
  - destruct (Js.isWhiteSpace c1).
    { intros [= <-]. exists (String c1 ""). split; [done|]. simpl. lia. }
    destruct (if back then Js.isWhiteSpace2 c2 c1 else Js.isWhiteSpace2 c1 c2).
    { intros [= <-]. exists (String c1 (String c2 "")). split; [done|]. simpl. lia. }
    destruct (if back then Js.isWhiteSpace3 c3 c2 c1 else Js.isWhiteSpace3 c1 c2 c3); [|done].
    intros [= <-]. exists (String c1 (String c2 (String c3 ""))). split; [done|]. simpl. lia.
Qed.

(** A string that starts with white space still does when it goes on. *)
Lemma stripWhiteSpace_append back s t rest :
  stripWhiteSpace back s = Some rest →
  stripWhiteSpace back (s ++ t)%string = Some (rest ++ t)%string.
Proof.
  destruct s as [|c1 [|c2 [|c3 s3]]]; cbn [stripWhiteSpace]; try done.
  - rewrite append_cons. cbn [stripWhiteSpace].
    destruct (Js.isWhiteSpace c1); [|done]. by intros [= <-].
  - rewrite !append_cons. cbn [stripWhiteSpace].
    destruct (Js.isWhiteSpace c1); [by intros [= <-]|].
    destruct (if back then Js.isWhiteSpace2 c2 c1 else Js.isWhiteSpace2 c1 c2); [|done].
    by intros [= <-].
  - rewrite !append_cons. cbn [stripWhiteSpace].
    destruct (Js.isWhiteSpace c1); [by intros [= <-]|].
    destruct (if back then Js.isWhiteSpace2 c2 c1 else Js.isWhiteSpace2 c1 c2);
      [by intros [= <-]|].
    destruct (if back then Js.isWhiteSpace3 c3 c2 c1 else Js.isWhiteSpace3 c1 c2 c3); [|done].
    by intros [= <-].
Qed.

Lemma dropWhiteSpace_spec back s :
  stripWhiteSpace back (Js.dropWhiteSpace back s) = None ∧
  ∃ w, s = (w ++ Js.dropWhiteSpace back s)%string.
Proof.
  remember (String.length s) as n eqn:Hn. revert s Hn.
  induction (lt_wf n) as [n _ IH]. intros s ->.
  rewrite dropWhiteSpace_unfold.
  destruct (stripWhiteSpace back s) as [rest|] eqn:Hs.
  - destruct (stripWhiteSpace_split _ _ _ Hs) as (w & -> & Hlen).
    destruct (IH _ Hlen rest eq_refl) as [Hnone [w' Hw']]. split; [done|].
    exists (w ++ w')%string. by rewrite append_assoc, <-Hw'.
  - split; [done|]. by exists "".
Qed.

Lemma dropWhiteSpace_fixed back s :
  stripWhiteSpace back s = None → Js.dropWhiteSpace back s = s.
Proof. intros Hs. by rewrite dropWhiteSpace_unfold, Hs. Qed.

Lemma trim_idempotent s : Js.trim (Js.trim s) = Js.trim s.
Proof.
  unfold Js.trim, Js.trimStart.
  destruct (dropWhiteSpace_spec false s) as [Hfront _].
  set (t := Js.dropWhiteSpace false s) in *.
  destruct (dropWhiteSpace_spec true (String.rev t)) as [Hback [w Hw]].
  set (u := Js.dropWhiteSpace true (String.rev t)) in *.
  assert (stripWhiteSpace false (String.rev u) = None) as Hu.
  { destruct (stripWhiteSpace false (String.rev u)) as [rest|] eqn:Hrest; [|done].
    apply (stripWhiteSpace_append _ _ (String.rev w)) in Hrest.
    rewrite <-rev_append, <-Hw, rev_involutive in Hrest. congruence. }
  by rewrite (dropWhiteSpace_fixed false), rev_involutive, (dropWhiteSpace_fixed true).
Qed.

(** U+00A0 and U+3000, two blanks outside ASCII. *)
Definition nbsp : string := String (ascii_of_nat 194) (String (ascii_of_nat 160) "").

Definition ideographicSpace : string :=
  String (ascii_of_nat 227) (String (ascii_of_nat 128) (String (ascii_of_nat 128) "")).

(** *** [getOrCreateAnimal] *)

(** What [getOrCreateAnimal] does, case by case. *)
Lemma getOrCreateAnimal_cases animalMap id :
  let t := Js.trim (Js.toString id) in
  if bool_decide (id = Js.Null ∨ id = Js.Undefined ∨ t = "") then
    getOrCreateAnimal animalMap id = Js.Normal (None, animalMap)
  else if bool_decide (is_Some (animalMap !! t)) then
    getOrCreateAnimal animalMap id = Js.Normal (Some t, animalMap)
  else if bool_decide (Js.toLowerCase t = "undefined" ∨ Js.toLowerCase t = "null") then
    getOrCreateAnimal animalMap id = Js.Throw t
  else
    getOrCreateAnimal animalMap id
    = Js.Normal (Some t, <[t := mkAnimal None None]> animalMap).
Proof.
  destruct id as [| |s]; cbn zeta; [by rewrite bool_decide_eq_true_2 by auto..|].
  cbn [Js.toString getOrCreateAnimal].
  destruct (String.eqb_spec (Js.trim s) "") as [Hblank|Hblank].
  { rewrite bool_decide_eq_true_2 by auto. done. }
  rewrite bool_decide_eq_false_2 by naive_solver.
  destruct (animalMap !! Js.trim s) as [an|] eqn:Hlookup.
  { rewrite bool_decide_eq_true_2 by done. done. }
  rewrite bool_decide_eq_false_2 by (by intros [? ?]).
  unfold newAnimal. rewrite trim_idempotent.
  destruct (String.eqb_spec (Js.trim s) "") as [|_]; [done|].
  destruct (String.eqb_spec (Js.toLowerCase (Js.trim s)) "undefined") as [Hu|Hu].
  { rewrite bool_decide_eq_true_2 by auto. done. }
  destruct (String.eqb_spec (Js.toLowerCase (Js.trim s)) "null") as [Hn|Hn].
  { rewrite bool_decide_eq_true_2 by auto. done. }
  rewrite bool_decide_eq_false_2 by naive_solver. done.
Qed.

(** X14.  [getOrCreateAnimal] throws exactly on a string that, once
    trimmed, reads [null] or [undefined] in any letter case and names no
    animal of the map; the error carries the trimmed string. *)
Theorem getOrCreateAnimal_throws (animalMap : Pedigree) (id : Js.Val) (e : string) :
  getOrCreateAnimal animalMap id = Js.Throw e ↔
  ∃ s, id = Js.Str s ∧ e = Js.trim s ∧ animalMap !! Js.trim s = None ∧
       (Js.toLowerCase (Js.trim s) = "undefined" ∨ Js.toLowerCase (Js.trim s) = "null").
Proof.
  pose proof (getOrCreateAnimal_cases animalMap id) as Hcases. cbn zeta in Hcases.
  repeat case_bool_decide; rewrite Hcases; split; try done.
  - intros (s & -> & _ & _ & Hlow). simpl in *.
    destruct H as [?|[?|Hblank]]; [done..|]. rewrite Hblank in Hlow. by destruct Hlow.
  - intros (s & -> & _ & Hnone & _). simpl in *. rewrite Hnone in H0. by destruct H0.
  - intros [= <-]. destruct id as [| |s]; [naive_solver..|]. simpl in *.
    exists s. split_and!; try done. by apply eq_None_not_Some.
  - intros (s & -> & -> & _). done.
  - intros (s & -> & _ & _ & Hlow). simpl in *. done.
Qed.

(** X15.  When [getOrCreateAnimal] returns an animal, its id is the
    trimmed argument and the map holds it; animals that were in the map
    are unchanged, a new one has no parents; and asking again returns the
    same animal without changing the map. *)
Theorem getOrCreateAnimal_round_trip (animalMap animalMap' : Pedigree) (id : Js.Val)
    (a : string) :
  getOrCreateAnimal animalMap id = Js.Normal (Some a, animalMap') →
  a = Js.trim (Js.toString id) ∧
  is_Some (animalMap' !! a) ∧
  (∀ k an, animalMap !! k = Some an → animalMap' !! k = Some an) ∧
  (∀ k, k ≠ a → animalMap' !! k = animalMap !! k) ∧
  (animalMap !! a = None → animalMap' !! a = Some (mkAnimal None None)) ∧
  getOrCreateAnimal animalMap' id = Js.Normal (Some a, animalMap').
Proof.
  pose proof (getOrCreateAnimal_cases animalMap id) as Hcases. cbn zeta in Hcases.
  repeat case_bool_decide; rewrite Hcases; try done; intros [= <- <-].
  - split_and!; try done. intros Hnone. rewrite Hnone in H0. by destruct H0.
  - pose proof (getOrCreateAnimal_cases
                  (<[Js.trim (Js.toString id) := mkAnimal None None]> animalMap) id)
      as Hagain. cbn zeta in Hagain.
    rewrite bool_decide_eq_false_2 in Hagain by done.
    rewrite bool_decide_eq_true_2 in Hagain by (rewrite lookup_insert_eq; by eexists).
    split_and!; try done.
    + rewrite lookup_insert_eq. by eexists.
    + intros k an Hk. rewrite lookup_insert_ne; [done|]. intros <-. apply H0. by eexists.
    + intros k Hk. by rewrite lookup_insert_ne.
    + intros _. apply lookup_insert_eq.
Qed.

Lemma getOrCreateAnimal_round_trip_witness :
  "A" = Js.trim (Js.toString (Js.Str (ideographicSpace ++ " A" ++ nbsp))) ∧
  is_Some (<["A" := mkAnimal None None]> (∅ : Pedigree) !! "A") ∧
  (∀ k an, (∅ : Pedigree) !! k = Some an →
           <["A" := mkAnimal None None]> (∅ : Pedigree) !! k = Some an) ∧
  (∀ k, k ≠ "A" →
        <["A" := mkAnimal None None]> (∅ : Pedigree) !! k = (∅ : Pedigree) !! k) ∧
  ((∅ : Pedigree) !! "A" = None →
   <["A" := mkAnimal None None]> (∅ : Pedigree) !! "A" = Some (mkAnimal None None)) ∧
  getOrCreateAnimal (<["A" := mkAnimal None None]> ∅)
    (Js.Str (ideographicSpace ++ " A" ++ nbsp))
  = Js.Normal (Some "A", <["A" := mkAnimal None None]> ∅).
Proof.
  apply (getOrCreateAnimal_round_trip ∅ (<["A" := mkAnimal None None]> ∅)
           (Js.Str (ideographicSpace ++ " A" ++ nbsp)) "A").
  vm_compute. reflexivity.
Defined.

(** *** [loadPedigreeFromJson] *)

Lemma bind_Normal {A B} (m : Js.Completion A) (k : A → Js.Completion B) b :
  Js.bind m k = Js.Normal b → ∃ a, m = Js.Normal a ∧ k a = Js.Normal b.
Proof. destruct m as [a| |]; simpl; [by eauto|done..]. Qed.

(** Every dam and sire is an animal of the map, and every id of the map is
    a trimmed, non-empty string other than [null] and [undefined]. *)
Record WellFormed (animalMap : Pedigree) : Prop := {
  wf_closed : ∀ child parent, isParent animalMap child parent → parent ∈ dom animalMap;
  wf_ids : ∀ id, id ∈ dom animalMap →
    Js.trim id = id ∧ id ≠ "" ∧
    Js.toLowerCase id ≠ "null" ∧ Js.toLowerCase id ≠ "undefined"
}.

Lemma getOrCreateAnimal_Normal animalMap id a animalMap' :
  getOrCreateAnimal animalMap id = Js.Normal (a, animalMap') →
  (a = None ∧ animalMap' = animalMap) ∨
  (∃ t, a = Some t ∧ t = Js.trim (Js.toString id) ∧
        ((is_Some (animalMap !! t) ∧ animalMap' = animalMap) ∨
         (animalMap !! t = None ∧ animalMap' = <[t := mkAnimal None None]> animalMap ∧
          t ≠ "" ∧ Js.toLowerCase t ≠ "null" ∧ Js.toLowerCase t ≠ "undefined"))).
Proof.
  pose proof (getOrCreateAnimal_cases animalMap id) as Hcases. cbn zeta in Hcases.
  repeat case_bool_decide; rewrite Hcases; try done; intros [= <- <-].
  - by left.
  - right. eexists. split_and!; try done. by left.
  - right. eexists. split_and!; try done. right. split_and!; try done.
    + by apply eq_None_not_Some.
    + naive_solver.
    + naive_solver.
    + naive_solver.
Qed.

Lemma isParent_insert_founder animalMap t child parent :
  animalMap !! t = None →
  isParent (<[t := mkAnimal None None]> animalMap) child parent →
  isParent animalMap child parent.
Proof.
  unfold isParent, getParent1, getParent2. intros Hnone.
  destruct (decide (child = t)) as [->|Hne].
  - rewrite lookup_insert_eq. simpl. by intros [|].
  - by rewrite lookup_insert_ne.
Qed.

Lemma getOrCreateAnimal_WellFormed animalMap id a animalMap' :
  WellFormed animalMap → getOrCreateAnimal animalMap id = Js.Normal (a, animalMap') →
  WellFormed animalMap' ∧ dom animalMap ⊆ dom animalMap' ∧
  (∀ t, a = Some t → t ∈ dom animalMap').
Proof.
  intros [Hclosed Hids] [[-> ->]|(t & -> & Ht & [[Hin ->]|(Hnone & -> & Hne & Hn & Hu)])]
    %getOrCreateAnimal_Normal.
  - done.
  - split_and!; try done. intros ? [= <-]. by apply elem_of_dom.
  - split_and!.
    + split.
      * intros child parent Hp%isParent_insert_founder; [|done].
        rewrite dom_insert_L. apply elem_of_union_r. by eapply Hclosed.
      * intros k. rewrite dom_insert_L. intros [->%elem_of_singleton|Hk]%elem_of_union;
          [|by apply Hids].
        split_and!; try done. rewrite Ht. apply trim_idempotent.
    + rewrite dom_insert_L. set_solver.
    + intros ? [= <-]. rewrite dom_insert_L. set_solver.
Qed.

Lemma isParent_alter animalMap f child x parent :
  isParent (alter f child animalMap) x parent →
  (x ≠ child ∧ isParent animalMap x parent) ∨
  (x = child ∧ ∃ an, animalMap !! child = Some an ∧
     (parent1 (f an) = Some parent ∨ parent2 (f an) = Some parent)).
Proof.
  unfold isParent, getParent1, getParent2.
  destruct (decide (x = child)) as [->|Hne].
  - rewrite lookup_alter_eq. destruct (animalMap !! child) as [an|]; simpl; [|by intros [|]].
    intros H. right. split; [done|]. by exists an.
  - rewrite lookup_alter_ne by done. by left.
Qed.

Lemma setParent_WellFormed animalMap child parent :
  WellFormed animalMap → parent ∈ dom animalMap →
  WellFormed (setParent1 child parent animalMap) ∧
  WellFormed (setParent2 child parent animalMap).
Proof.
  intros [Hclosed Hids] Hp. unfold setParent1, setParent2.
  split; split; try (intros id; rewrite dom_alter_L; by apply Hids).
  all: intros x p [[_ Hx]|(_ & an & Han & Hx)]%isParent_alter; rewrite dom_alter_L;
    [by eapply Hclosed|]; simpl in Hx.
  - destruct Hx as [[= <-]|Hx]; [done|]. apply (Hclosed child). right.
    unfold getParent2. by rewrite Han.
  - destruct Hx as [Hx|[= <-]]; [|done]. apply (Hclosed child). left.
    unfold getParent1. by rewrite Han.
Qed.

Lemma attach_WellFormed attach animalMap child mother father :
  attach = attachOverwrite ∨ attach = attachFirstWins →
  WellFormed animalMap →
  (∀ m, mother = Some m → m ∈ dom animalMap) →
  (∀ f, father = Some f → f ∈ dom animalMap) →
  WellFormed (attach child mother father animalMap) ∧
  dom (attach child mother father animalMap) = dom animalMap.
Proof.
  intros Hattach Hwf Hm Hf.
  assert (∀ m, WellFormed m → dom m = dom animalMap →
            ∀ p, (p = None ∨ ∃ x, p = Some x ∧ x ∈ dom animalMap) →
            (WellFormed (match p with Some x => setParent1 child x m | None => m end) ∧
             dom (match p with Some x => setParent1 child x m | None => m end)
               = dom animalMap) ∧
            (WellFormed (match p with Some x => setParent2 child x m | None => m end) ∧
             dom (match p with Some x => setParent2 child x m | None => m end)
               = dom animalMap)) as Hstep.
  { intros m Hwfm Hdom p [->|(x & -> & Hx)]; [done|].
    rewrite <-Hdom in Hx. destruct (setParent_WellFormed m child x Hwfm Hx).
    unfold setParent1, setParent2. rewrite !dom_alter_L. done. }
  assert (∀ p : option string, (∀ x, p = Some x → x ∈ dom animalMap) →
            p = None ∨ ∃ x, p = Some x ∧ x ∈ dom animalMap) as Hopt.
  { intros [x|] Hp; [right; exists x; by auto|by left]. }
  destruct Hattach as [-> | ->]; unfold attachOverwrite, attachFirstWins.
  - destruct (Hstep animalMap Hwf eq_refl mother (Hopt _ Hm)) as [[Hwf1 Hdom1] _].
    destruct (Hstep _ Hwf1 Hdom1 father (Hopt _ Hf)) as [_ [Hwf2 Hdom2]]. done.
  - set (m1 := match getParent1 animalMap child with
               | Some _ => animalMap
               | None => match mother with
                         | Some m => setParent1 child m animalMap
                         | None => animalMap
                         end
               end).
    assert (WellFormed m1 ∧ dom m1 = dom animalMap) as [Hwf1 Hdom1].
    { unfold m1. destruct (getParent1 animalMap child); [done|].
      by destruct (Hstep animalMap Hwf eq_refl mother (Hopt _ Hm)) as [? _]. }
    destruct (getParent2 m1 child); [done|].
    by destruct (Hstep _ Hwf1 Hdom1 father (Hopt _ Hf)) as [_ ?].
Qed.

Lemma forRelationships_WellFormed attach rels animalMap animalMap' :
  attach = attachOverwrite ∨ attach = attachFirstWins →
  WellFormed animalMap → forRelationships attach rels animalMap = Js.Normal animalMap' →
  WellFormed animalMap'.
Proof.
  intros Hattach. revert animalMap.
  induction rels as [|[childId [motherId fatherId]] rest IH]; intros animalMap Hwf.
  { by intros [= <-]. }
  cbn [forRelationships].
  intros ([childAnimal m1] & Hchild & Hrest)%bind_Normal.
  destruct (getOrCreateAnimal_WellFormed _ _ _ _ Hwf Hchild) as (Hwf1 & Hsub1 & Hin1).
  destruct childAnimal as [child|]; [|by eapply IH].
  apply bind_Normal in Hrest as ([mother m2] & Hmother & Hrest).
  destruct (getOrCreateAnimal_WellFormed _ _ _ _ Hwf1 Hmother) as (Hwf2 & Hsub2 & Hin2).
  apply bind_Normal in Hrest as ([father m3] & Hfather & Hrest).
  destruct (getOrCreateAnimal_WellFormed _ _ _ _ Hwf2 Hfather) as (Hwf3 & Hsub3 & Hin3).
  eapply IH; [|exact Hrest].
  apply attach_WellFormed; [done|done| |by auto].
  intros m Hm. by apply Hsub3, Hin2.
Qed.

Lemma createAll_WellFormed allIds animalMap animalMap' :
  WellFormed animalMap → createAll allIds animalMap = Js.Normal animalMap' →
  WellFormed animalMap'.
Proof.
  revert animalMap. induction allIds as [|id rest IH]; intros animalMap Hwf.
  { by intros [= <-]. }
  cbn [createAll]. intros ([a m1] & Ha & Hrest)%bind_Normal.
  destruct (getOrCreateAnimal_WellFormed _ _ _ _ Hwf Ha) as (Hwf1 & _). by eapply IH.
Qed.

Lemma forRecords_invariant (P : Pedigree → Prop) load records animalMap animalMap' :
  (∀ record m m', P m → load record m = Js.Normal m' → P m') →
  P animalMap → forRecords load records animalMap = Js.Normal animalMap' → P animalMap'.
Proof.
  intros Hload. revert animalMap.
  induction records as [|record rest IH]; intros animalMap HP.
  { by intros [= <-]. }
  cbn [forRecords]. intros (m1 & H1 & Hrest)%bind_Normal. eapply IH; [|exact Hrest].
  by eapply Hload.
Qed.

Lemma WellFormed_empty : WellFormed ∅.
Proof.
  split.
  - unfold isParent, getParent1, getParent2. intros child parent.
    rewrite lookup_empty. by intros [|].
  - intros id. by rewrite dom_empty_L, elem_of_empty.
Qed.

(** X16.  Whatever records are loaded, in each of the three versions, the
    map a returning [loadPedigreeFromJson] leaves holds every dam and sire
    it refers to, and each of its ids is a trimmed, non-empty string other
    than [null] and [undefined] in any letter case. *)
Theorem loaded_map_well_formed (version : Version) (records : list PedigreeRecord) :
  (∀ animalMap, V006Main.loadPedigreeFromJson records ∅ = Js.Normal animalMap →
                WellFormed animalMap) ∧
  (∀ animalMap, loadPedigreeFromJsonM version records ∅ = Js.Normal animalMap →
                WellFormed animalMap).
Proof.
  split; intros animalMap.
  - unfold V006Main.loadPedigreeFromJson. intros (m1 & H1 & Hrest)%bind_Normal.
    eapply (forRecords_invariant WellFormed); [| |exact Hrest].
    + intros record m m' Hm. apply forRelationships_WellFormed; by auto.
    + eapply createAll_WellFormed; [apply WellFormed_empty|exact H1].
  - destruct version; cbn [loadPedigreeFromJsonM].
    + apply (forRecords_invariant WellFormed); [|apply WellFormed_empty].
      intros record m m' Hm ([main m1] & Hmain & Hrest)%bind_Normal.
      destruct (getOrCreateAnimal_WellFormed _ _ _ _ Hm Hmain) as (Hwf1 & _).
      destruct main; [|by injection Hrest as <-].
      revert Hrest. apply forRelationships_WellFormed; by auto.
    + intros (m1 & H1 & Hrest)%bind_Normal.
      eapply (forRecords_invariant WellFormed); [| |exact Hrest].
      * intros record m m' Hm. apply forRelationships_WellFormed; by auto.
      * eapply createAll_WellFormed; [apply WellFormed_empty|exact H1].
Qed.

(** *** First-wins attachment (versions 1.1.0 and 1.3.0) *)

(** Every animal of the first map is in the second, with the dam and the
    sire it had, if it had one. *)
Definition LinksKept (animalMap animalMap' : Pedigree) : Prop :=
  dom animalMap ⊆ dom animalMap' ∧
  (∀ child dam, getParent1 animalMap child = Some dam →
                getParent1 animalMap' child = Some dam) ∧
  (∀ child sire, getParent2 animalMap child = Some sire →
                 getParent2 animalMap' child = Some sire).

Global Instance LinksKept_preorder : PreOrder LinksKept.
Proof.
  split.
  - done.
  - intros m1 m2 m3 (Hd & H1 & H2) (Hd' & H1' & H2'). split_and!; [set_solver|by auto..].
Qed.

Lemma getOrCreateAnimal_LinksKept animalMap id a animalMap' :
  getOrCreateAnimal animalMap id = Js.Normal (a, animalMap') → LinksKept animalMap animalMap'.
Proof.
  intros [[-> ->]|(t & -> & Ht & [[Hin ->]|(Hnone & -> & _)])]%getOrCreateAnimal_Normal;
    [done|done|].
  unfold LinksKept, getParent1, getParent2. split_and!.
  - rewrite dom_insert_L. set_solver.
  - intros child dam. destruct (decide (child = t)) as [->|Hne].
    + by rewrite Hnone.
    + by rewrite lookup_insert_ne.
  - intros child sire. destruct (decide (child = t)) as [->|Hne].
    + by rewrite Hnone.
    + by rewrite lookup_insert_ne.
Qed.

Lemma getParent_alter f animalMap child x :
  getParent1 (alter f child animalMap) x
  = (if decide (x = child) then animalMap !! child ≫= parent1 ∘ f
     else getParent1 animalMap x) ∧
  getParent2 (alter f child animalMap) x
  = (if decide (x = child) then animalMap !! child ≫= parent2 ∘ f
     else getParent2 animalMap x).
Proof.
  unfold getParent1, getParent2. case_decide as Hx.
  - subst. rewrite lookup_alter_eq. by destruct (animalMap !! child).
  - by rewrite lookup_alter_ne.
Qed.

Lemma attachFirstWins_LinksKept animalMap child mother father :
  LinksKept animalMap (attachFirstWins child mother father animalMap).
Proof.
  unfold attachFirstWins.
  set (m1 := match getParent1 animalMap child with
             | Some _ => animalMap
             | None => match mother with
                       | Some m => setParent1 child m animalMap
                       | None => animalMap
                       end
             end).
  assert (LinksKept animalMap m1) as H1.
  { unfold m1. destruct (getParent1 animalMap child) as [d|] eqn:Hd; [done|].
    destruct mother as [m|]; [|done]. unfold LinksKept, setParent1.
    rewrite dom_alter_L. split_and!; [done|..]; intros x p;
      destruct (getParent_alter (λ a, mkAnimal (Some m) (parent2 a)) animalMap child x)
        as [Hg1 Hg2]; rewrite ?Hg1, ?Hg2; case_decide as Hx; subst; try done;
      try (by rewrite Hd); unfold getParent2; by destruct (animalMap !! child). }
  etrans; [exact H1|]. destruct (getParent2 m1 child) as [s|] eqn:Hs; [done|].
  destruct father as [f|]; [|done]. unfold LinksKept, setParent2.
  rewrite dom_alter_L. split_and!; [done|..]; intros x p;
    destruct (getParent_alter (λ a, mkAnimal (parent1 a) (Some f)) m1 child x)
      as [Hg1 Hg2]; rewrite ?Hg1, ?Hg2; case_decide as Hx; subst; try done;
    try (by rewrite Hs); unfold getParent1; by destruct (m1 !! child).
Qed.

Lemma forRelationships_LinksKept rels animalMap animalMap' :
  forRelationships attachFirstWins rels animalMap = Js.Normal animalMap' →
  LinksKept animalMap animalMap'.
Proof.
  revert animalMap.
  induction rels as [|[childId [motherId fatherId]] rest IH]; intros animalMap.
  { by intros [= <-]. }
  cbn [forRelationships].
  intros ([childAnimal m1] & Hchild%getOrCreateAnimal_LinksKept & Hrest)%bind_Normal.
  etrans; [exact Hchild|].
  destruct childAnimal as [child|]; [|by apply IH].
  apply bind_Normal in Hrest as ([mother m2] & Hmother%getOrCreateAnimal_LinksKept & Hrest).
  apply bind_Normal in Hrest as ([father m3] & Hfather%getOrCreateAnimal_LinksKept & Hrest).
  etrans; [exact Hmother|]. etrans; [exact Hfather|].
  etrans; [apply attachFirstWins_LinksKept|]. by apply IH.
Qed.

Lemma createAll_LinksKept allIds animalMap animalMap' :
  createAll allIds animalMap = Js.Normal animalMap' → LinksKept animalMap animalMap'.
Proof.
  revert animalMap. induction allIds as [|id rest IH]; intros animalMap.
  { by intros [= <-]. }
  cbn [createAll]. intros ([a m1] & Ha%getOrCreateAnimal_LinksKept & Hrest)%bind_Normal.
  etrans; [exact Ha|]. by apply IH.
Qed.

Lemma forRecords_LinksKept load records animalMap animalMap' :
  (∀ record m m', load record m = Js.Normal m' → LinksKept m m') →
  forRecords load records animalMap = Js.Normal animalMap' → LinksKept animalMap animalMap'.
Proof.
  intros Hload. revert animalMap.
  induction records as [|record rest IH]; intros animalMap.
  { by intros [= <-]. }
  cbn [forRecords]. intros (m1 & H1%Hload & Hrest)%bind_Normal.
  etrans; [exact H1|]. by apply IH.
Qed.

(** X17.  In versions 1.1.0 and 1.3.0, loading records into a map never
    removes an animal and never changes a dam or a sire the map already
    records: the first record that names a parent wins. *)
Theorem first_parent_wins (version : Version) (records : list PedigreeRecord)
    (animalMap animalMap' : Pedigree) :
  loadPedigreeFromJsonM version records animalMap = Js.Normal animalMap' →
  dom animalMap ⊆ dom animalMap' ∧
  (∀ child dam, getParent1 animalMap child = Some dam →
                getParent1 animalMap' child = Some dam) ∧
  (∀ child sire, getParent2 animalMap child = Some sire →
                 getParent2 animalMap' child = Some sire).
Proof.
  destruct version; cbn [loadPedigreeFromJsonM].
  - apply forRecords_LinksKept.
    intros record m m' ([main m1] & Hmain%getOrCreateAnimal_LinksKept & Hrest)%bind_Normal.
    etrans; [exact Hmain|]. destruct main; [|by injection Hrest as <-].
    by eapply forRelationships_LinksKept.
  - intros (m1 & H1%createAll_LinksKept & Hrest)%bind_Normal.
    change (LinksKept animalMap animalMap'). etrans; [exact H1|]. revert Hrest.
    apply forRecords_LinksKept. intros record m m'. apply forRelationships_LinksKept.
Qed.

(** The pedigree of the full siblings, and a record that names other
    parents for [A]. *)
Definition recordOfA : PedigreeRecord :=
  recordOf "A" "X" "Y" "" "" "" "" "" "" "" "" "" "" "" "".

Definition siblingsReloaded : Pedigree :=
  Eval vm_compute in
    match loadPedigreeFromJsonM v130 [recordOfA] siblings with
    | Js.Normal animalMap => animalMap
    | _ => ∅
    end.

Lemma first_parent_wins_witness :
  dom siblings ⊆ dom siblingsReloaded ∧
  (∀ child dam, getParent1 siblings child = Some dam →
                getParent1 siblingsReloaded child = Some dam) ∧
  (∀ child sire, getParent2 siblings child = Some sire →
                 getParent2 siblingsReloaded child = Some sire).
Proof.
  apply (first_parent_wins v130 [recordOfA] siblings siblingsReloaded).
  vm_compute. reflexivity.
Defined.

(** ** The result array *)

(** [record.sId || record.sid] *)
Definition ownId (record : PedigreeRecord) : Js.Val := Js.or (sId record) (sid record).

(** The id under which a record's own animal takes part in a pairing: its
    own id trimmed, if that is a non-blank string. *)
Definition pairingId (record : PedigreeRecord) : option string :=
  let t := Js.trim (Js.toString (ownId record)) in
  if Js.truthy (ownId record) && negb (String.eqb t "") then Some t else None.

(** The pairs of ids of the result array: one per partner record with an
    id, in the order of the records. *)
Definition pairingIds (cowRecord : PedigreeRecord) (bullRecordsArray : list PedigreeRecord)
  : list (string * string) :=
  match pairingId cowRecord with
  | Some cow => (λ bull, (bull, cow)) <$> omap pairingId bullRecordsArray
  | None => []
  end.

Lemma getOrCreateAnimal_pairingId animalMap record a animalMap' :
  Js.truthy (ownId record) = true →
  getOrCreateAnimal animalMap (ownId record) = Js.Normal (a, animalMap') →
  a = pairingId record.
Proof.
  unfold pairingId. intros Htruthy Hcall. rewrite Htruthy. cbn [andb].
  destruct (ownId record) as [| |s]; try done.
  cbn [Js.toString getOrCreateAnimal] in *.
  destruct (String.eqb (Js.trim s) ""); cbn [negb].
  - by injection Hcall as <- _.
  - destruct (animalMap !! Js.trim s); [by injection Hcall as <- _|].
    apply bind_Normal in Hcall as (an & _ & Hcall). by injection Hcall as <- _.
Qed.

Lemma pairingId_falsy record : Js.truthy (ownId record) = false → pairingId record = None.
Proof. unfold pairingId. by intros ->. Qed.

Lemma V006_pairing_ids cow bull pushed :
  pairingId cow = None ∨ Js.truthy (ownId cow) = true →
  V006Main.pairing cow bull = Js.Normal pushed →
  (λ r, (bullId r, cowId r)) <$> optionList pushed = pairingIds cow [bull].
Proof.
  intros Hcow. unfold V006Main.pairing, pairingIds. fold (ownId cow) (ownId bull).
  cbn [omap list_omap].
  destruct (Js.truthy (ownId bull)) eqn:Hbull; cbn [negb].
  2:{ intros [= <-]. rewrite (pairingId_falsy bull Hbull). by destruct (pairingId cow). }
  intros (m0 & _ & Hrest)%bind_Normal.
  apply bind_Normal in Hrest as ([cowAnimal m1] & Hc & Hrest).
  apply bind_Normal in Hrest as ([bullAnimal m2] & Hb & Hrest).
  apply getOrCreateAnimal_pairingId in Hb as ->; [|done].
  assert (cowAnimal = pairingId cow) as ->.
  { destruct Hcow as [Hnone|Htruthy]; [|by eapply getOrCreateAnimal_pairingId].
    rewrite Hnone. unfold pairingId in Hnone.
    destruct (ownId cow) as [| |s]; cbn [getOrCreateAnimal] in Hc;
      [by injection Hc as <- _..|].
    cbn [Js.toString Js.truthy] in Hnone.
    destruct (String.eqb (Js.trim s) "") eqn:Hblank; [by injection Hc as <- _|].
    destruct (String.eqb s "") eqn:Hs; [|done].
    apply String.eqb_eq in Hs as ->. done. }
  destruct (pairingId cow) as [c|], (pairingId bull) as [b|];
    try (by injection Hrest as <-).
  apply bind_Normal in Hrest as (f & _ & Hrest). by injection Hrest as <-.
Qed.

Lemma pairingIds_cons cow bull bulls :
  pairingIds cow (bull :: bulls) = pairingIds cow [bull] ++ pairingIds cow bulls.
Proof.
  unfold pairingIds. destruct (pairingId cow) as [c|]; [|done].
  cbn [omap list_omap]. by destruct (pairingId bull).
Qed.

Lemma forBullsM_ids localeCompare version cow bulls animalMap calculator results rs :
  Js.truthy (ownId cow) = true →
  forBullsM localeCompare version (ownId cow) bulls animalMap calculator results
    = Js.Normal rs →
  (λ r, (bullId r, cowId r)) <$> rs
  = ((λ r, (bullId r, cowId r)) <$> results) ++ pairingIds cow bulls.
Proof.
  intros Hcow. revert animalMap calculator results.
  induction bulls as [|bull rest IH]; intros animalMap calculator results.
  { intros [= <-]. unfold pairingIds. destruct (pairingId cow); by rewrite app_nil_r. }
  cbn [forBullsM]. fold (ownId bull). rewrite pairingIds_cons.
  assert (∀ m c, forBullsM localeCompare version (ownId cow) rest m c results
                   = Js.Normal rs → pairingIds cow [bull] = [] →
            (λ r, (bullId r, cowId r)) <$> rs
            = ((λ r, (bullId r, cowId r)) <$> results)
                ++ pairingIds cow [bull] ++ pairingIds cow rest) as Hskip.
  { intros m c Hcall ->. by eapply IH. }
  destruct (Js.truthy (ownId bull)) eqn:Hbull; cbn [negb].
  2:{ intros Hcall. eapply Hskip; [exact Hcall|]. unfold pairingIds.
      cbn [omap list_omap]. rewrite (pairingId_falsy bull Hbull).
      by destruct (pairingId cow). }
  intros ([cowAnimal m1] & Hc & Hrest)%bind_Normal.
  apply bind_Normal in Hrest as ([bullAnimal m2] & Hb & Hrest).
  apply getOrCreateAnimal_pairingId in Hb as ->; [|done].
  apply getOrCreateAnimal_pairingId in Hc as ->; [|done].
  unfold pairingIds in *. cbn [omap list_omap] in *.
  destruct (pairingId cow) as [c|] eqn:Hpc, (pairingId bull) as [b|] eqn:Hpb;
    try (by eapply Hskip).
  apply bind_Normal in Hrest as ([f calculator'] & _ & Hrest).
  apply IH in Hrest. rewrite Hrest, fmap_app, <-(assoc_L (++)). done.
Qed.

(** X18.  The result array of [calculateBreedingInbreeding], in each of
    the three versions, holds one element per partner record that has an
    id which is not blank, in the order of the records; its [bullId] is
    that id trimmed, its [cowId] the trimmed id of the cow record.  It is
    empty when the cow's id is blank. *)
Theorem result_ids (localeCompare : string → string → Z) (version : Version)
    (cowRecord : PedigreeRecord) (bullRecordsArray : list PedigreeRecord) :
  (∀ results,
     V006Main.calculateBreedingInbreeding (Some cowRecord) bullRecordsArray
       = Js.Normal results →
     (λ r, (bullId r, cowId r)) <$> results = pairingIds cowRecord bullRecordsArray) ∧
  (∀ results,
     calculateBreedingInbreedingM localeCompare version (Some cowRecord) bullRecordsArray
       = Js.Normal results →
     (λ r, (bullId r, cowId r)) <$> results = pairingIds cowRecord bullRecordsArray).
Proof.
  assert (invalidInput (Some cowRecord) bullRecordsArray = true →
          pairingIds cowRecord bullRecordsArray = []) as Hinvalid.
  { unfold invalidInput, pairingIds. fold (ownId cowRecord).
    intros [Hcow|Hbulls]%orb_true_iff.
    - apply negb_true_iff in Hcow. by rewrite (pairingId_falsy cowRecord Hcow).
    - destruct bullRecordsArray; [|done]. by destruct (pairingId cowRecord). }
  assert (invalidInput (Some cowRecord) bullRecordsArray = false →
          Js.truthy (ownId cowRecord) = true) as Hvalid.
  { unfold invalidInput. fold (ownId cowRecord).
    intros [Hcow _]%orb_false_iff. by apply negb_false_iff in Hcow. }
  split; intros results.
  - unfold V006Main.calculateBreedingInbreeding.
    destruct (invalidInput (Some cowRecord) bullRecordsArray) eqn:Hinv.
    { intros [= <-]. by rewrite Hinvalid. }
    intros (parts & Hparts & ->)%forBulls_parts. cbn [app].
    clear Hinv Hinvalid. specialize (Hvalid eq_refl).
    induction Hparts as [|bull part bulls parts Hb _ IH]; cbn [fmap list_fmap concat].
    { unfold pairingIds. by destruct (pairingId cowRecord). }
    rewrite fmap_app, pairingIds_cons, IH. f_equal.
    apply V006_pairing_ids; by auto.
  - unfold calculateBreedingInbreedingM.
    destruct (invalidInput (Some cowRecord) bullRecordsArray) eqn:Hinv.
    { intros [= <-]. by rewrite Hinvalid. }
    intros (animalMap & _ & Hbulls)%bind_Normal.
    by apply forBullsM_ids in Hbulls; [|apply Hvalid].
Qed.

(** ** From a record to the links of the map *)

(** The animal a parent field of a record stands for. *)
Definition parentOf (v : Js.Val) : option string :=
  match v with
  | Js.Str s => if String.eqb (Js.trim s) "" then None else Some (Js.trim s)
  | _ => None
  end.

Lemma getOrCreateAnimal_parentOf animalMap v a animalMap' :
  getOrCreateAnimal animalMap v = Js.Normal (a, animalMap') → a = parentOf v.
Proof.
  destruct v as [| |s]; cbn [getOrCreateAnimal parentOf]; [by intros [= <- _]..|].
  destruct (String.eqb (Js.trim s) ""); [by intros [= <- _]|].
  destruct (animalMap !! Js.trim s); [by intros [= <- _]|].
  intros (an & _ & Hcall)%bind_Normal. by injection Hcall as <- _.
Qed.

(** *** The object literal and its enumeration *)

Lemma setProperty_elem {V} (k : string) (v : V) o kv :
  kv ∈ Js.setProperty k v o → kv = (k, v) ∨ kv ∈ o.
Proof.
  induction o as [|[k' v'] o IH]; cbn [Js.setProperty].
  - intros ->%list_elem_of_singleton. by left.
  - destruct (String.eqb k k').
    + intros [->|?]%elem_of_cons; [by left|]. right. apply elem_of_cons. by right.
    + intros [->|[->|?]%IH]%elem_of_cons; [right|by left|right]; apply elem_of_cons;
        by auto.
Qed.

Lemma setProperty_new {V} (k : string) (v : V) o : (k, v) ∈ Js.setProperty k v o.
Proof.
  induction o as [|[k' v'] o IH]; cbn [Js.setProperty].
  - by apply list_elem_of_singleton.
  - destruct (String.eqb k k'); apply elem_of_cons; by auto.
Qed.

Lemma setProperty_old {V} (k : string) (v : V) o kv :
  kv ∈ o → kv.1 ≠ k → kv ∈ Js.setProperty k v o.
Proof.
  intros Hin Hne. induction o as [|[k' v'] o IH]; [by apply elem_of_nil in Hin|].
  cbn [Js.setProperty]. destruct (String.eqb_spec k k') as [->|Hk].
  - apply elem_of_cons in Hin as [->|Hin]; [done|]. apply elem_of_cons. by right.
  - apply elem_of_cons in Hin as [->|Hin]; apply elem_of_cons; by auto.
Qed.

Lemma insertIndex_elem {V} n (kv : string * V) l x :
  x ∈ Js.insertIndex n kv l ↔ x = (n, kv) ∨ x ∈ l.
Proof.
  induction l as [|[m kv'] l IH]; cbn [Js.insertIndex].
  - rewrite list_elem_of_singleton. set_solver.
  - destruct (n <? m)%N.
    + by rewrite elem_of_cons.
    + rewrite !elem_of_cons, IH. naive_solver.
Qed.

(** [for ... in] visits the properties of the object, each of them. *)
Lemma ownProperties_elem {V} (o : list (string * V)) kv :
  kv ∈ Js.ownProperties o ↔ kv ∈ o.
Proof.
  unfold Js.ownProperties. rewrite elem_of_app, list_elem_of_filter.
  assert (∀ x, x ∈ foldr (λ kv acc, match Js.arrayIndex kv.1 with
                                     | Some n => Js.insertIndex n kv acc
                                     | None => acc
                                     end) [] o
               ↔ x.2 ∈ o ∧ Js.arrayIndex x.2.1 = Some x.1) as Hindexed.
  { induction o as [|kv' o IH]; intros x; cbn [foldr].
    - split; [by intros ?%elem_of_nil|]. by intros [?%elem_of_nil _].
    - destruct (Js.arrayIndex kv'.1) as [n|] eqn:Hn.
      + rewrite insertIndex_elem, IH, elem_of_cons. split.
        * intros [->|[? ?]]; [by auto|by auto].
        * intros [[Hx|Hx] Hi]; [|by auto]. left. destruct x as [m y]. simpl in *.
          subst. congruence.
      + rewrite IH, elem_of_cons. split; [naive_solver|].
        intros [[->|Hx] Hi]; [congruence|done]. }
  rewrite list_elem_of_fmap. split.
  - intros [(x & -> & Hx%Hindexed)|[_ Hin]]; [by destruct Hx|done].
  - intros Hin. destruct (Js.arrayIndex kv.1) as [n|] eqn:Hn; [|by right].
    left. exists (n, kv). split; [done|]. by apply Hindexed.
Qed.

(** The keys of [relationships]: the record's own id and six ancestor
    fields. *)
Definition childFields (record : PedigreeRecord) : list Js.Val :=
  [fId record; mId record; ffId record; fmId record; mfId record; mmId record].

Lemma relationships_elem record kv :
  kv ∈ relationships record →
  kv = (Js.toString (ownId record), (mId record, fId record)) ∨
  ∃ v, v ∈ childFields record ∧ kv.1 = Js.toString v.
Proof.
  unfold relationships, childFields. fold (ownId record).
  intros H. repeat (apply setProperty_elem in H as [->|H]).
  all: try (right; eexists; split; [|done]; set_solver).
  - by left.
  - by apply elem_of_nil in H.
Qed.

Lemma relationships_own record :
  (∀ v, v ∈ childFields record → Js.toString v ≠ Js.toString (ownId record)) →
  (Js.toString (ownId record), (mId record, fId record)) ∈ relationships record.
Proof.
  unfold relationships, childFields. fold (ownId record). intros Hne.
  repeat (apply setProperty_old; [|apply not_eq_sym, Hne; set_solver]).
  apply setProperty_new.
Qed.

(** *** The loop over [relationships] *)

Section Subject.
Variable s : string.
Variables motherId fatherId : Js.Val.

(** The dam and sire of [s] were not set before its entry is processed,
    and are those of the entry afterwards. *)
Definition SubjectLinks (processed : bool) (animalMap : Pedigree) : Prop :=
  if processed then
    getParent1 animalMap s = parentOf motherId ∧ getParent2 animalMap s = parentOf fatherId
  else getParent1 animalMap s = None ∧ getParent2 animalMap s = None.

Lemma getOrCreateAnimal_SubjectLinks processed animalMap id a animalMap' :
  getOrCreateAnimal animalMap id = Js.Normal (a, animalMap') →
  SubjectLinks processed animalMap → SubjectLinks processed animalMap'.
Proof.
  intros [[-> ->]|(t & -> & Ht & [[Hin ->]|(Hnone & -> & _)])]%getOrCreateAnimal_Normal;
    [done|done|].
  unfold SubjectLinks, getParent1, getParent2.
  destruct (decide (s = t)) as [->|Hne]; [|by rewrite lookup_insert_ne].
  rewrite lookup_insert_eq, Hnone. by destruct processed.
Qed.

Variable attach : string → option string → option string → Pedigree → Pedigree.
Hypothesis attach_policy : attach = attachOverwrite ∨ attach = attachFirstWins.

Lemma setParent_other child p animalMap :
  child ≠ s →
  getParent1 (setParent1 child p animalMap) s = getParent1 animalMap s ∧
  getParent2 (setParent1 child p animalMap) s = getParent2 animalMap s ∧
  getParent1 (setParent2 child p animalMap) s = getParent1 animalMap s ∧
  getParent2 (setParent2 child p animalMap) s = getParent2 animalMap s.
Proof.
  intros Hne. unfold setParent1, setParent2, getParent1, getParent2.
  by rewrite !lookup_alter_ne.
Qed.

Lemma attach_other processed animalMap child mother father :
  child ≠ s → SubjectLinks processed animalMap →
  SubjectLinks processed (attach child mother father animalMap).
Proof.
  intros Hne.
  assert (getParent1 (attach child mother father animalMap) s = getParent1 animalMap s ∧
          getParent2 (attach child mother father animalMap) s = getParent2 animalMap s)
    as [H1 H2].
  { destruct attach_policy as [-> | ->]; unfold attachOverwrite, attachFirstWins.
    - destruct mother as [m|], father as [f|];
        repeat match goal with
          | |- context [setParent1 child ?p ?m] =>
              destruct (setParent_other child p m Hne) as (-> & -> & _ & _)
          | |- context [setParent2 child ?p ?m] =>
              destruct (setParent_other child p m Hne) as (_ & _ & -> & ->)
          end; done.
    - destruct (getParent1 animalMap child), mother as [m|];
        match goal with |- context [getParent2 ?m child] => destruct (getParent2 m child) end;
        destruct father as [f|];
        repeat match goal with
          | |- context [setParent2 child ?p ?m] =>
              destruct (setParent_other child p m Hne) as (_ & _ & -> & ->)
          | |- context [setParent1 child ?p ?m] =>
              destruct (setParent_other child p m Hne) as (-> & -> & _ & _)
          end; done. }
  unfold SubjectLinks. by rewrite H1, H2.
Qed.

Lemma setParent_self p animalMap :
  s ∈ dom animalMap →
  getParent1 (setParent1 s p animalMap) s = Some p ∧
  getParent2 (setParent1 s p animalMap) s = getParent2 animalMap s ∧
  getParent1 (setParent2 s p animalMap) s = getParent1 animalMap s ∧
  getParent2 (setParent2 s p animalMap) s = Some p ∧
  s ∈ dom (setParent1 s p animalMap) ∧ s ∈ dom (setParent2 s p animalMap).
Proof.
  intros Hs. unfold setParent1, setParent2, getParent1, getParent2.
  rewrite !dom_alter_L, !lookup_alter_eq. pose proof Hs as [an Han]%elem_of_dom.
  rewrite Han. done.
Qed.

Lemma attachOverwrite_self animalMap mother father :
  s ∈ dom animalMap →
  getParent1 (attachOverwrite s mother father animalMap) s
  = from_option Some (getParent1 animalMap s) mother ∧
  getParent2 (attachOverwrite s mother father animalMap) s
  = from_option Some (getParent2 animalMap s) father.
Proof.
  intros Hs. unfold attachOverwrite. destruct mother as [m|], father as [f|];
    cbn [from_option].
  - destruct (setParent_self m animalMap Hs) as (H1 & H2 & _ & _ & Hs1 & _).
    destruct (setParent_self f _ Hs1) as (_ & _ & -> & -> & _). by rewrite H1.
  - by destruct (setParent_self m animalMap Hs) as (-> & -> & _).
  - by destruct (setParent_self f animalMap Hs) as (_ & _ & -> & -> & _).
  - done.
Qed.

Lemma attachFirstWins_self animalMap mother father :
  s ∈ dom animalMap →
  getParent1 (attachFirstWins s mother father animalMap) s
  = from_option Some mother (getParent1 animalMap s) ∧
  getParent2 (attachFirstWins s mother father animalMap) s
  = from_option Some father (getParent2 animalMap s).
Proof.
  intros Hs. unfold attachFirstWins.
  set (m1 := match getParent1 animalMap s with
             | Some _ => animalMap
             | None => match mother with
                       | Some m => setParent1 s m animalMap
                       | None => animalMap
                       end
             end).
  assert (getParent1 m1 s = from_option Some mother (getParent1 animalMap s) ∧
          getParent2 m1 s = getParent2 animalMap s ∧ s ∈ dom m1) as (H1 & H2 & Hs1).
  { unfold m1. destruct (getParent1 animalMap s) as [d|] eqn:Hd; [done|].
    destruct mother as [m|]; [|done].
    by destruct (setParent_self m animalMap Hs) as (-> & -> & _ & _ & ? & _). }
  destruct (getParent2 m1 s) as [x|] eqn:Hx.
  { by rewrite H1, Hx, <-H2. }
  destruct father as [f|].
  - destruct (setParent_self f m1 Hs1) as (_ & _ & -> & -> & _).
    by rewrite H1, <-H2.
  - by rewrite H1, Hx, <-H2.
Qed.

Lemma attach_subject animalMap mother father :
  s ∈ dom animalMap → mother = parentOf motherId → father = parentOf fatherId →
  (SubjectLinks false animalMap ∨ SubjectLinks true animalMap) →
  SubjectLinks true (attach s mother father animalMap).
Proof.
  intros Hs -> -> Hbefore. unfold SubjectLinks in *.
  destruct attach_policy as [-> | ->].
  - destruct (attachOverwrite_self animalMap (parentOf motherId) (parentOf fatherId) Hs)
      as [-> ->].
    destruct Hbefore as [[-> ->]|[-> ->]];
      by destruct (parentOf motherId), (parentOf fatherId).
  - destruct (attachFirstWins_self animalMap (parentOf motherId) (parentOf fatherId) Hs)
      as [-> ->].
    destruct Hbefore as [[-> ->]|[-> ->]];
      by destruct (parentOf motherId), (parentOf fatherId).
Qed.

Hypothesis s_not_blank : s ≠ "".

(** The loop, when every entry whose key names [s] is the entry
    [(key, (motherId, fatherId))]. *)
Lemma forRelationships_subject rels processed animalMap animalMap' :
  (∀ k v, (k, v) ∈ rels → Js.trim k = s → v = (motherId, fatherId)) →
  SubjectLinks processed animalMap →
  forRelationships attach rels animalMap = Js.Normal animalMap' →
  (SubjectLinks processed animalMap' ∧ ∀ k v, (k, v) ∈ rels → Js.trim k ≠ s) ∨
  SubjectLinks true animalMap'.
Proof.
  revert processed animalMap.
  induction rels as [|[childId [mo fa]] rest IH]; intros processed animalMap Hrels Hlinks.
  { intros [= <-]. left. split; [done|]. by intros k v ?%elem_of_nil. }
  cbn [forRelationships].
  intros ([childAnimal m1] & Hchild & Hrest)%bind_Normal.
  pose proof (getOrCreateAnimal_SubjectLinks _ _ _ _ _ Hchild Hlinks) as Hlinks1.
  assert (∀ k v, (k, v) ∈ rest → Js.trim k = s → v = (motherId, fatherId)) as Hrels'.
  { intros k v Hin. apply Hrels, elem_of_cons. by right. }
  pose proof (getOrCreateAnimal_parentOf _ _ _ _ Hchild) as Hc. cbn [parentOf] in Hc.
  destruct (decide (Js.trim childId = s)) as [Hs|Hne].
  - (* the entry of [s] *)
    assert ((mo, fa) = (motherId, fatherId)) as [= -> ->].
    { apply (Hrels childId); [apply elem_of_cons; by left|done]. }
    destruct (String.eqb_spec (Js.trim childId) "") as [Hblank|_]; [congruence|].
    subst childAnimal. rewrite Hs in *.
    apply bind_Normal in Hrest as ([mother m2] & Hmother & Hrest).
    apply bind_Normal in Hrest as ([father m3] & Hfather & Hrest).
    pose proof (getOrCreateAnimal_SubjectLinks _ _ _ _ _ Hmother Hlinks1) as Hlinks2.
    pose proof (getOrCreateAnimal_SubjectLinks _ _ _ _ _ Hfather Hlinks2) as Hlinks3.
    assert (s ∈ dom m3) as Hdom.
    { destruct (getOrCreateAnimal_LinksKept _ _ _ _ Hmother) as [Hd2 _].
      destruct (getOrCreateAnimal_LinksKept _ _ _ _ Hfather) as [Hd3 _].
      apply Hd3, Hd2.
      apply getOrCreateAnimal_Normal in Hchild
        as [[? _]|(t & [= <-] & _ & [[Hin ->]|(_ & -> & _)])]; [done| |].
      - by apply elem_of_dom.
      - rewrite dom_insert_L. set_solver. }
    right.
    assert (SubjectLinks true (attach s mother father m3)) as Hdone.
    { apply attach_subject; [done|by eapply getOrCreateAnimal_parentOf..|].
      destruct processed; by auto. }
    destruct (IH true _ Hrels' Hdone Hrest) as [[? _]|?]; done.
  - (* another entry *)
    assert (∀ m, SubjectLinks processed m →
              forRelationships attach rest m = Js.Normal animalMap' →
              (SubjectLinks processed animalMap' ∧
               ∀ k v, (k, v) ∈ (childId, (mo, fa)) :: rest → Js.trim k ≠ s) ∨
              SubjectLinks true animalMap') as Hnext.
    { intros m Hm Hcall. destruct (IH processed m Hrels' Hm Hcall) as [[? Hnot]|?];
        [|by right].
      left. split; [done|]. intros k v [[= -> ->]|Hin]%elem_of_cons; [done|].
      by eapply Hnot. }
    destruct childAnimal as [child|]; [|by apply (Hnext m1)].
    destruct (String.eqb_spec (Js.trim childId) ""); [done|]. injection Hc as ->.
    apply bind_Normal in Hrest as ([mother m2] & Hmother & Hrest).
    apply bind_Normal in Hrest as ([father m3] & Hfather & Hrest).
    pose proof (getOrCreateAnimal_SubjectLinks _ _ _ _ _ Hmother Hlinks1) as Hlinks2.
    pose proof (getOrCreateAnimal_SubjectLinks _ _ _ _ _ Hfather Hlinks2) as Hlinks3.
    apply (Hnext (attach (Js.trim childId) mother father m3)); [|done].
    by apply attach_other.
Qed.

End Subject.

Lemma createAll_no_links s motherId fatherId allIds animalMap animalMap' :
  SubjectLinks s motherId fatherId false animalMap →
  createAll allIds animalMap = Js.Normal animalMap' →
  SubjectLinks s motherId fatherId false animalMap'.
Proof.
  revert animalMap. induction allIds as [|id rest IH]; intros animalMap Hlinks.
  { by intros [= <-]. }
  cbn [createAll]. intros ([a m1] & Ha & Hrest)%bind_Normal.
  eapply IH; [|exact Hrest].
  by apply (getOrCreateAnimal_SubjectLinks s motherId fatherId false animalMap
              (Js.Str id) a m1).
Qed.

Lemma loadRecord_subject attach record s animalMap animalMap' :
  attach = attachOverwrite ∨ attach = attachFirstWins →
  pairingId record = Some s →
  (∀ v, v ∈ childFields record → Js.trim (Js.toString v) ≠ s) →
  SubjectLinks s (mId record) (fId record) false animalMap →
  loadRecord attach record animalMap = Js.Normal animalMap' →
  SubjectLinks s (mId record) (fId record) true animalMap'.
Proof.
  intros Hattach Hs Hfields Hlinks Hload.
  assert (s ≠ "" ∧ Js.trim (Js.toString (ownId record)) = s) as [Hne Hown].
  { unfold pairingId in Hs. destruct (Js.truthy (ownId record)); [|done].
    destruct (String.eqb_spec (Js.trim (Js.toString (ownId record))) ""); [done|].
    simpl in Hs. by injection Hs as <-. }
  destruct (forRelationships_subject s (mId record) (fId record) attach Hattach Hne
              (Js.ownProperties (relationships record)) false animalMap animalMap')
    as [[_ Hnot]|?]; [|done|exact Hload| |done].
  - intros k v Hin%ownProperties_elem%relationships_elem Hk.
    destruct Hin as [[= -> ->]|(field & Hfield & Hkey)]; [done|].
    simpl in Hkey. subst k. by destruct (Hfields field Hfield).
  - exfalso. apply (Hnot (Js.toString (ownId record)) (mId record, fId record)); [|done].
    apply ownProperties_elem, relationships_own.
    intros v Hv Heq. apply (Hfields v Hv). by rewrite Heq.
Qed.

(** The loops and loaders, one step at a time. *)
Lemma forRecords_nil load animalMap : forRecords load [] animalMap = Js.Normal animalMap.
Proof. done. Qed.

Lemma forRecords_cons load record rest animalMap :
  forRecords load (record :: rest) animalMap
  = Js.bind (load record animalMap) (λ animalMap, forRecords load rest animalMap).
Proof. done. Qed.

Lemma V006_loadPedigreeFromJson_unfold records animalMap :
  V006Main.loadPedigreeFromJson records animalMap
  = Js.bind (createAll (collectIds records) animalMap)
      (forRecords (loadRecord attachOverwrite) records).
Proof. done. Qed.

Lemma loadPedigreeFromJsonM_v130 records animalMap :
  loadPedigreeFromJsonM v130 records animalMap
  = Js.bind (createAll (collectIds records) animalMap)
      (forRecords (loadRecord attachFirstWins) records).
Proof. done. Qed.

(** What version 1.1.0 does with one record. *)
Definition loadRecord110 (record : PedigreeRecord) (animalMap : Pedigree)
  : Js.Completion Pedigree :=
  Js.bind (getOrCreateAnimal animalMap (ownId record))
    (λ '(mainAnimal, animalMap),
       match mainAnimal with
       | None => Js.Normal animalMap
       | Some _ => loadRecord attachFirstWins record animalMap
       end).

Lemma loadPedigreeFromJsonM_v110 records animalMap :
  loadPedigreeFromJsonM v110 records animalMap = forRecords loadRecord110 records animalMap.
Proof. done. Qed.

Lemma forRecords_one load record animalMap animalMap' :
  forRecords load [record] animalMap = Js.Normal animalMap' →
  load record animalMap = Js.Normal animalMap'.
Proof.
  rewrite forRecords_cons. intros (m & Hrecord & Hnil)%bind_Normal.
  rewrite forRecords_nil in Hnil. by injection Hnil as <-.
Qed.

Lemma SubjectLinks_empty s motherId fatherId : SubjectLinks s motherId fatherId false ∅.
Proof. unfold SubjectLinks, getParent1, getParent2. by rewrite lookup_empty. Qed.

Lemma SubjectLinks_true s motherId fatherId animalMap :
  SubjectLinks s motherId fatherId true animalMap →
  getParent1 animalMap s = parentOf motherId ∧ getParent2 animalMap s = parentOf fatherId.
Proof. done. Qed.

(** X19.  Loading one record into an empty map, in each of the three
    versions: when the record's own id is usable, [mId] and [fId] are
    strings, and none of its six ancestor fields that key [relationships]
    names the same animal, the animal gets the trimmed [mId] as dam and
    the trimmed [fId] as sire, and no dam or sire where the string is
    blank. *)
Theorem record_sets_parents (version : Version) (record : PedigreeRecord)
    (s motherId fatherId : string) (animalMap : Pedigree) :
  pairingId record = Some s →
  mId record = Js.Str motherId → fId record = Js.Str fatherId →
  (∀ v, v ∈ childFields record → Js.trim (Js.toString v) ≠ s) →
  V006Main.loadPedigreeFromJson [record] ∅ = Js.Normal animalMap ∨
  loadPedigreeFromJsonM version [record] ∅ = Js.Normal animalMap →
  getParent1 animalMap s
  = (if String.eqb (Js.trim motherId) "" then None else Some (Js.trim motherId)) ∧
  getParent2 animalMap s
  = (if String.eqb (Js.trim fatherId) "" then None else Some (Js.trim fatherId)).
Proof.
  intros Hs Hmother Hfather Hfields Hload.
  change (getParent1 animalMap s = parentOf (Js.Str motherId) ∧
          getParent2 animalMap s = parentOf (Js.Str fatherId)).
  rewrite <-Hmother, <-Hfather. clear motherId fatherId Hmother Hfather.
  apply SubjectLinks_true.
  pose proof (SubjectLinks_empty s (mId record) (fId record)) as Hempty.
  destruct Hload as [Hload|Hload].
  - rewrite V006_loadPedigreeFromJson_unfold in Hload.
    apply bind_Normal in Hload as (m1 & H1 & Hrest%forRecords_one).
    apply (loadRecord_subject attachOverwrite record s m1); [by left|done|done| |done].
    exact (createAll_no_links s (mId record) (fId record) _ ∅ m1 Hempty H1).
  - destruct version.
    + rewrite loadPedigreeFromJsonM_v110 in Hload. apply forRecords_one in Hload.
      unfold loadRecord110 in Hload.
      apply bind_Normal in Hload as ([main m1] & Hmain & Hrec).
      pose proof (getOrCreateAnimal_SubjectLinks s (mId record) (fId record) false
                    ∅ _ _ _ Hmain Hempty) as Hm1.
      destruct main as [main|].
      * by apply (loadRecord_subject attachFirstWins record s m1); [right|..].
      * exfalso. apply getOrCreateAnimal_pairingId in Hmain; [congruence|].
        unfold pairingId in Hs. by destruct (Js.truthy (ownId record)).
    + rewrite loadPedigreeFromJsonM_v130 in Hload.
      apply bind_Normal in Hload as (m1 & H1 & Hrest%forRecords_one).
      apply (loadRecord_subject attachFirstWins record s m1); [by right|done|done| |done].
      exact (createAll_no_links s (mId record) (fId record) _ ∅ m1 Hempty H1).
Qed.

(** A record whose dam is written with blanks around the id and whose sire
    is a blank. *)
Definition cowBlanks : PedigreeRecord :=
  recordOf "S" (ideographicSpace ++ "M" ++ nbsp) " " "" "" "" "" "" "" "" "" "" "" "" "".

Definition cowBlanksMap : Pedigree :=
  Eval vm_compute in
    match V006Main.loadPedigreeFromJson [cowBlanks] ∅ with
    | Js.Normal animalMap => animalMap
    | _ => ∅
    end.

Lemma record_sets_parents_witness :
  getParent1 cowBlanksMap "S"
  = (if String.eqb (Js.trim (ideographicSpace ++ "M" ++ nbsp)) "" then None
     else Some (Js.trim (ideographicSpace ++ "M" ++ nbsp))) ∧
  getParent2 cowBlanksMap "S"
  = (if String.eqb (Js.trim " ") "" then None else Some (Js.trim " ")).
Proof.
  apply (record_sets_parents v130 cowBlanks "S" (ideographicSpace ++ "M" ++ nbsp) " "
           cowBlanksMap).
  - reflexivity.
  - reflexivity.
  - reflexivity.
  - intros v Hv. vm_compute in Hv.
    repeat (apply elem_of_cons in Hv as [->|Hv]; [by vm_compute|]).
    by apply elem_of_nil in Hv.
  - left. vm_compute. reflexivity.
Defined.

(** ** Lower bounds *)

Lemma weight_elem_le version paths1 paths2 path1 path2 :
  path1 ∈ paths1 → path2 ∈ paths2 →
  (keptWeight version path1 path2 ≤ weight version paths1 paths2)%Qc.
Proof.
  intros H1 H2. unfold weight.
  etrans; [|apply (sumQc_elem_le
                     (λ path1, sumQc (keptWeight version path1 <$> paths2)) paths1 path1)];
    [| |done].
  - apply (sumQc_elem_le (keptWeight version path1)); [|done].
    intros ? _. apply keptWeight_nonneg.
  - intros ? _. apply sumQc_nonneg, Forall_fmap, Forall_forall. intros ? _.
    apply keptWeight_nonneg.
Qed.

Lemma path_pair_bound g a b x path1 path2 :
  SimplePath g a x path1 → SimplePath g b x path2 →
  ∃ f, V006.calculateOffspringInbreeding g (Some a) (Some b) = Some f ∧
       (pairWeight path1 path2 ≤ f)%Qc.
Proof.
  intros Hp Hq. rewrite V006_calculateOffspringInbreeding.
  destruct (offspringR_is_Some v110 g ∅ (Some a) (Some b)) as [f Hf].
  exists f. split; [done|].
  unfold offspringR in Hf. rewrite offspringWithR_sum in Hf.
  destruct (commonAncestorsR_spec v110 g a b) as (l & Hl & _ & Hin).
  rewrite Hl in Hf. cbn [mbind option_bind] in Hf.
  apply sumOpt_Some in Hf as (h & Hh & ->).
  assert (x ∈ l) as Hx by (apply Hin; split; by eapply SimplePath_rtc).
  etrans; [|apply sumQc_elem_le; [|exact Hx]].
  2:{ intros y Hy. eapply termR_nonneg; [|by apply Hh].
      intros ?. apply inbreedingR_nonneg. }
  destruct (termR_Some _ _ _ _ _ _ _ (Hh x Hx)) as (fx & ps & qs & Hfx & Hps & Hqs & ->).
  cbn [findPathsToAncestor] in Hps, Hqs.
  destruct (findPathsToAncestorDFS_spec g a x) as (ps' & Hps' & Hinp).
  destruct (findPathsToAncestorDFS_spec g b x) as (qs' & Hqs' & Hinq).
  simplify_eq.
  etrans; [apply (weight_elem_le v110 ps qs path1 path2); [by apply Hinp|by apply Hinq]|].
  rewrite <-(Qcmult_1_r (weight v110 ps qs)) at 1.
  apply Qcmult_le_mono_nonneg_l; [apply weight_nonneg|].
  rewrite <-(Qcplus_0_r 1) at 1. apply Qcplus_le_mono_l. by eapply inbreedingR_nonneg.
Qed.

(** X21.  Every pair of a path from one parent and a path from the other
    to a common ancestor bounds the coefficient of version 0.0.6 from
    below by [0.5 ^ (n1 + n2 + 1)], [n1] and [n2] the numbers of links of
    the two paths. *)
Theorem coefficient_at_least_path_pair (g : Pedigree) (a b x : string)
    (path1 path2 : list string) :
  SimplePath g a x path1 → SimplePath g b x path2 →
  ∃ f, V006.calculateOffspringInbreeding g (Some a) (Some b) = Some f ∧
       (pow05 (Z.of_nat (length path1) - 1 + (Z.of_nat (length path2) - 1) + 1) ≤ f)%Qc.
Proof. apply path_pair_bound. Qed.

Lemma SimplePath_check g start target path :
  head path = Some start → last path = Some target →
  bool_decide (NoDup path) = true →
  forallb (λ i, match path !! i, path !! S i with
                | Some x, Some y =>
                    bool_decide (getParent1 g x = Some y ∨ getParent2 g x = Some y)
                | _, _ => true
                end) (seq 0 (length path)) = true →
  SimplePath g start target path.
Proof.
  intros Hh Hl Hnd%bool_decide_eq_true_1 Hc. split_and!; try done.
  clear Hh Hl Hnd. rewrite forallb_forall in Hc.
  assert (∀ i x y, path !! i = Some x → path !! S i = Some y → isParent g x y) as Hlinks.
  { intros i x y Hx Hy. specialize (Hc i). rewrite Hx, Hy in Hc.
    eapply bool_decide_eq_true, Hc, in_seq. apply lookup_lt_Some in Hx. lia. }
  clear Hc. induction path as [|x path IH]; [done|].
  destruct path as [|y path]; [done|]. split.
  - by apply (Hlinks 0).
  - apply IH. intros i. apply (Hlinks (S i)).
Qed.

Lemma coefficient_at_least_path_pair_witness :
  ∃ f, V006.calculateOffspringInbreeding grandDam (Some "X") (Some "Y") = Some f ∧
       (pow05 (Z.of_nat (length ["X"; "M"; "G"]) - 1
               + (Z.of_nat (length ["Y"; "M"; "G"]) - 1) + 1) ≤ f)%Qc.
Proof.
  apply (coefficient_at_least_path_pair grandDam "X" "Y" "G" ["X"; "M"; "G"] ["Y"; "M"; "G"]);
    apply SimplePath_check; vm_compute; reflexivity.
Defined.

(** *** Related parents *)

Lemma isChain_suffix g l1 l2 : isChain g (l1 ++ l2) → isChain g l2.
Proof.
  induction l1 as [|x l1 IH]; [done|]. intros Hc. apply IH.
  destruct l1 as [|y l1]; simpl in *.
  - by destruct l2 as [|z l2]; [|destruct Hc].
  - by destruct Hc.
Qed.

(** An ancestor is reached by a path that repeats no animal. *)
Lemma rtc_SimplePath g a x : rtc (isParent g) a x → ∃ path, SimplePath g a x path.
Proof.
  intros Hax. induction Hax as [a|a y x Hay Hyx (path & Hh & Hl & Hc & Hnd)].
  { exists [a]. by apply SimplePath_refl. }
  destruct (decide (a ∈ path)) as [Hin|Hnin].
  - apply list_elem_of_split in Hin as (l1 & l2 & ->). exists (a :: l2). split_and!.
    + done.
    + rewrite last_app in Hl. destruct (last (a :: l2)) as [z|] eqn:Hz; [done|].
      by apply last_None in Hz.
    + by eapply isChain_suffix.
    + by apply NoDup_app in Hnd as (_ & _ & ?).
  - exists (a :: path). destruct path as [|y' path]; [done|].
    injection Hh as ->. split_and!; try done. by apply NoDup_cons.
Qed.

Lemma SimplePath_length g start target path :
  SimplePath g start target path → length path ≤ S (size (universe g)).
Proof.
  intros (Hh & _ & Hc & Hnd). destruct path as [|x path]; [done|].
  cbn [length]. apply le_n_S, NoDup_length_size.
  - by apply NoDup_cons in Hnd as [_ ?].
  - intros y Hy.
    destruct (isChain_universe g (x :: path) y Hc) as [Hhead|?]; [| |done].
    + apply elem_of_cons. by right.
    + injection Hhead as ->. by apply NoDup_cons in Hnd as [? _].
Qed.

(** X22.  On a pedigree of at most 536 animals, where no path pair has an
    exponent [Math.pow] underflows on, the coefficient version 0.0.6
    returns for two parents is positive exactly when they have a common
    ancestor (either of them counting as its own ancestor), and 0
    otherwise. *)
Theorem positive_iff_related (g : Pedigree) (a b : string) :
  size (universe g) ≤ 536 →
  ∃ f, V006.calculateOffspringInbreeding g (Some a) (Some b) = Some f ∧
       ((0 < f)%Qc ↔ ∃ x, rtc (isParent g) a x ∧ rtc (isParent g) b x) ∧
       (f = 0%Qc ↔ ¬ ∃ x, rtc (isParent g) a x ∧ rtc (isParent g) b x).
Proof.
  intros Hsize.
  pose proof (V006_calculateOffspringInbreeding g (Some a) (Some b)) as Heq.
  destruct (offspringR_is_Some v110 g ∅ (Some a) (Some b)) as [f Hf].
  rewrite Hf in Heq. exists f. split; [done|].
  assert (0 ≤ f)%Qc as Hnonneg by (by eapply offspringR_nonneg).
  assert ((∃ x, rtc (isParent g) a x ∧ rtc (isParent g) b x) → (0 < f)%Qc) as Hpos.
  { intros (x & [p Hp]%rtc_SimplePath & [q Hq]%rtc_SimplePath).
    destruct (path_pair_bound g a b x p q Hp Hq) as (f' & Hf' & Hle).
    rewrite Heq in Hf'. injection Hf' as <-.
    eapply Qclt_le_trans; [|exact Hle]. apply pow05_pos.
    apply SimplePath_length in Hp, Hq. lia. }
  assert ((∃ x, rtc (isParent g) a x ∧ rtc (isParent g) b x) ∨
          (f = 0%Qc ∧ ¬ ∃ x, rtc (isParent g) a x ∧ rtc (isParent g) b x)) as Hcases.
  { unfold offspringR in Hf. rewrite offspringWithR_sum in Hf.
    destruct (commonAncestorsR_spec v110 g a b) as (l & Hl & _ & Hin).
    rewrite Hl in Hf. cbn [mbind option_bind] in Hf. destruct l as [|x l].
    - right. split; [by injection Hf as <-|]. intros (x & Hx%Hin).
      by apply elem_of_nil in Hx.
    - left. exists x. apply Hin, elem_of_cons. by left. }
  destruct Hcases as [Hrel|[-> Hnone]].
  - pose proof (Hpos Hrel) as Hf0. split; split; try done.
    intros ->. done.
  - split; split; try done.
Qed.

Lemma positive_iff_related_witness :
  ∃ f, V006.calculateOffspringInbreeding grandDam (Some "X") (Some "Y") = Some f ∧
       ((0 < f)%Qc ↔ ∃ x, rtc (isParent grandDam) "X" x ∧ rtc (isParent grandDam) "Y" x) ∧
       (f = 0%Qc ↔ ¬ ∃ x, rtc (isParent grandDam) "X" x ∧ rtc (isParent grandDam) "Y" x).
Proof.
  apply (positive_iff_related grandDam "X" "Y"). vm_compute. lia.
Defined.

(** *** Self-pairing in the memoised engines *)

(** X23.  On an acyclic pedigree whose ids give pairwise distinct cache
    keys, a memoising calculator of either version, freshly created,
    returns at least 0.5 for an animal paired with itself. *)
Theorem self_pairing_memoised_at_least_half (localeCompare : string → string → Z)
    (version : Version) (g : Pedigree) (x : string) :
  Acyclic g → KeysInjective (universe g ∪ {[x]}) →
  ∃ f c, calculateOffspringInbreedingM localeCompare version g (Some x) (Some x)
           newCalculator = Some (f, c) ∧ (Q2Qc (1 # 2) ≤ f)%Qc.
Proof. apply self_pairing_memoised. Qed.

Lemma self_pairing_memoised_at_least_half_witness :
  ∃ f c, calculateOffspringInbreedingM codeUnitCompare v130 siblingsChild
           (Some "C") (Some "C") newCalculator = Some (f, c) ∧ (Q2Qc (1 # 2) ≤ f)%Qc.
Proof.
  apply (self_pairing_memoised_at_least_half codeUnitCompare v130 siblingsChild "C").
  - apply (Acyclic_check siblingsChildRank). vm_compute. reflexivity.
  - apply KeysInjective_check. vm_compute. reflexivity.
Defined.

(** ** Records with a null or absent ancestor field *)

Lemma setProperty_keys {V} (k : string) (v : V) o k' :
  k' ∈ (Js.setProperty k v o).*1 ↔ k' = k ∨ k' ∈ o.*1.
Proof.
  induction o as [|[k0 v0] o IH]; cbn [Js.setProperty fmap list_fmap fst].
  - rewrite list_elem_of_singleton. set_solver.
  - destruct (String.eqb_spec k k0) as [->|Hne]; cbn [fmap list_fmap fst];
      rewrite !elem_of_cons; [naive_solver|]. rewrite IH. naive_solver.
Qed.

(** Each of the six ancestor fields keys a property of [relationships]. *)
Lemma relationships_keys record v :
  v ∈ childFields record → Js.toString v ∈ (relationships record).*1.
Proof.
  unfold relationships, childFields. fold (ownId record).
  rewrite !setProperty_keys. set_solver.
Qed.

(** After the loop every key that is not blank names an animal of the
    map. *)
Lemma forRelationships_keys attach rels animalMap animalMap' :
  attach = attachOverwrite ∨ attach = attachFirstWins →
  WellFormed animalMap → forRelationships attach rels animalMap = Js.Normal animalMap' →
  dom animalMap ⊆ dom animalMap' ∧
  ∀ k, k ∈ rels.*1 → Js.trim k = "" ∨ Js.trim k ∈ dom animalMap'.
Proof.
  intros Hattach. revert animalMap.
  induction rels as [|[childId [motherId fatherId]] rest IH]; intros animalMap Hwf.
  { intros [= <-]. split; [done|]. by intros k ?%elem_of_nil. }
  cbn [forRelationships fmap list_fmap fst].
  intros ([childAnimal m1] & Hchild & Hrest)%bind_Normal.
  destruct (getOrCreateAnimal_WellFormed _ _ _ _ Hwf Hchild) as (Hwf1 & Hsub1 & Hin1).
  pose proof (getOrCreateAnimal_parentOf _ _ _ _ Hchild) as Hc. cbn [parentOf] in Hc.
  assert (∀ m, WellFormed m → dom m1 ⊆ dom m →
            forRelationships attach rest m = Js.Normal animalMap' →
            dom animalMap ⊆ dom animalMap' ∧
            ∀ k, k ∈ childId :: rest.*1 → Js.trim k = "" ∨ Js.trim k ∈ dom animalMap')
    as Hnext.
  { intros m Hm Hsub Hcall. destruct (IH m Hm Hcall) as [Hd Hkeys].
    split; [set_solver|]. intros k [->|Hk]%elem_of_cons; [|by apply Hkeys].
    destruct (String.eqb_spec (Js.trim childId) ""); [by left|]. right.
    apply Hd, Hsub, Hin1. done. }
  destruct childAnimal as [child|]; [|by apply (Hnext m1)].
  apply bind_Normal in Hrest as ([mother m2] & Hmother & Hrest).
  destruct (getOrCreateAnimal_WellFormed _ _ _ _ Hwf1 Hmother) as (Hwf2 & Hsub2 & Hin2).
  apply bind_Normal in Hrest as ([father m3] & Hfather & Hrest).
  destruct (getOrCreateAnimal_WellFormed _ _ _ _ Hwf2 Hfather) as (Hwf3 & Hsub3 & Hin3).
  destruct (attach_WellFormed attach m3 child mother father Hattach Hwf3) as [Hwf4 Hdom4];
    [intros m Hm; by apply Hsub3, Hin2|by auto|].
  apply (Hnext (attach child mother father m3)); [done| |done].
  rewrite Hdom4. set_solver.
Qed.

(** A null or absent field, or one that reads [null] or [undefined]. *)
Definition missingToken (v : Js.Val) : Prop :=
  Js.toLowerCase (Js.trim (Js.toString v)) = "null" ∨
  Js.toLowerCase (Js.trim (Js.toString v)) = "undefined".

Lemma loadRecord_missingToken attach record animalMap animalMap' v :
  attach = attachOverwrite ∨ attach = attachFirstWins →
  WellFormed animalMap → v ∈ childFields record → missingToken v →
  loadRecord attach record animalMap ≠ Js.Normal animalMap'.
Proof.
  intros Hattach Hwf Hv Htoken Hload.
  pose proof (forRelationships_WellFormed _ _ _ _ Hattach Hwf Hload) as [_ Hids].
  destruct (forRelationships_keys _ _ _ _ Hattach Hwf Hload) as [_ Hkeys].
  destruct (Hkeys (Js.toString v)) as [Hblank|Hin].
  - apply relationships_keys in Hv.
    apply list_elem_of_fmap in Hv as ([k x] & Hk & Hkx). simpl in Hk. subst k.
    apply list_elem_of_fmap. exists (Js.toString v, x). split; [done|].
    by apply ownProperties_elem.
  - unfold missingToken in Htoken. rewrite Hblank in Htoken. by destruct Htoken.
  - destruct (Hids _ Hin) as (_ & _ & Hnull & Hundefined). by destruct Htoken.
Qed.

Lemma forRecords_not_Normal load records record animalMap animalMap' :
  (∀ r m m', WellFormed m → load r m = Js.Normal m' → WellFormed m') →
  (∀ m m', WellFormed m → load record m ≠ Js.Normal m') →
  record ∈ records → WellFormed animalMap →
  forRecords load records animalMap ≠ Js.Normal animalMap'.
Proof.
  intros Hwf Hrecord Hin. revert animalMap.
  induction records as [|r rest IH]; intros animalMap Hm; [by apply elem_of_nil in Hin|].
  cbn [forRecords]. intros (m1 & H1 & Hrest)%bind_Normal.
  apply elem_of_cons in Hin as [->|Hin]; [by eapply Hrecord|].
  eapply IH; [done| |exact Hrest]. by eapply Hwf.
Qed.

Lemma loaders_missingToken version records record v animalMap :
  record ∈ records → pairingId record ≠ None →
  v ∈ childFields record → missingToken v →
  V006Main.loadPedigreeFromJson records ∅ ≠ Js.Normal animalMap ∧
  loadPedigreeFromJsonM version records ∅ ≠ Js.Normal animalMap.
Proof.
  intros Hin Hown Hv Htoken.
  assert (∀ attach, attach = attachOverwrite ∨ attach = attachFirstWins →
            ∀ r m m', WellFormed m → loadRecord attach r m = Js.Normal m' → WellFormed m')
    as Hkeep.
  { intros attach Hattach r m m' Hm. by apply forRelationships_WellFormed. }
  split.
  - unfold V006Main.loadPedigreeFromJson. intros (m1 & H1 & Hrest)%bind_Normal.
    revert Hrest. apply (forRecords_not_Normal _ _ record); [apply Hkeep; by left| |done|].
    + intros m m' Hm. eapply loadRecord_missingToken; by eauto.
    + eapply createAll_WellFormed; [apply WellFormed_empty|done].
  - destruct version; cbn [loadPedigreeFromJsonM].
    + apply (forRecords_not_Normal _ _ record); [| |done|apply WellFormed_empty].
      * intros r m m' Hm ([main m1] & Hmain & Hrest)%bind_Normal.
        destruct (getOrCreateAnimal_WellFormed _ _ _ _ Hm Hmain) as (Hwf1 & _).
        destruct main; [|by injection Hrest as <-].
        by eapply Hkeep; [right| |exact Hrest].
      * intros m m' Hm ([main m1] & Hmain & Hrest)%bind_Normal.
        destruct (getOrCreateAnimal_WellFormed _ _ _ _ Hm Hmain) as (Hwf1 & _).
        destruct main as [main|].
        -- revert Hrest. eapply loadRecord_missingToken; by eauto.
        -- apply getOrCreateAnimal_pairingId in Hmain; [congruence|].
           unfold pairingId in Hown. by destruct (Js.truthy (ownId record)).
    + intros (m1 & H1 & Hrest)%bind_Normal.
      revert Hrest. apply (forRecords_not_Normal _ _ record); [apply Hkeep; by right| |done|].
      * intros m m' Hm. eapply loadRecord_missingToken; by eauto.
      * eapply createAll_WellFormed; [apply WellFormed_empty|done].
Qed.

Lemma V006_pairing_loads cow bull pushed :
  Js.truthy (ownId bull) = true → V006Main.pairing cow bull = Js.Normal pushed →
  ∃ animalMap, V006Main.loadPedigreeFromJson [cow; bull] ∅ = Js.Normal animalMap.
Proof.
  intros Hid. unfold V006Main.pairing.
  assert (negb (Js.truthy (Js.or (sId bull) (sid bull))) = false) as ->.
  { unfold ownId in Hid. by rewrite Hid. }
  intros (animalMap & Hload & _)%bind_Normal. by exists animalMap.
Qed.

Lemma calculateBreedingInbreedingM_loads localeCompare version cow bulls results :
  calculateBreedingInbreedingM localeCompare version (Some cow) bulls = Js.Normal results →
  invalidInput (Some cow) bulls = false →
  ∃ animalMap, loadPedigreeFromJsonM version (cow :: bulls) ∅ = Js.Normal animalMap.
Proof.
  unfold calculateBreedingInbreedingM. intros Hcall Hvalid. rewrite Hvalid in Hcall.
  apply bind_Normal in Hcall as (animalMap & Hload & _). by exists animalMap.
Qed.

Lemma V006_calculateBreedingInbreeding_pairings cow bulls results :
  V006Main.calculateBreedingInbreeding (Some cow) bulls = Js.Normal results →
  invalidInput (Some cow) bulls = false →
  ∃ parts, Forall2 (λ b part, V006Main.pairing cow b = Js.Normal part) bulls parts.
Proof.
  unfold V006Main.calculateBreedingInbreeding. intros Hcall Hvalid.
  rewrite Hvalid in Hcall. apply forBulls_parts in Hcall as (parts & Hparts & _).
  by exists parts.
Qed.

Lemma calculateBreedingInbreedingM_ends localeCompare version cowRecord bulls :
  ends (calculateBreedingInbreedingM localeCompare version cowRecord bulls).
Proof.
  unfold calculateBreedingInbreedingM. destruct cowRecord as [cow|]; [|done].
  case_match; [done|].
  apply bind_ends; [apply loadPedigreeFromJsonM_ends|]. intros animalMap _.
  apply forBullsM_ends, newCalculator_NonNegative.
Qed.

(** X24.  A cow record with a usable id in which one of the fields [fId],
    [mId], [ffId], [fmId], [mfId], [mmId] is null or absent (or reads
    [null] or [undefined]) makes [calculateBreedingInbreeding] throw: in
    versions 1.1.0 and 1.3.0 for every non-empty array of partners, in
    version 0.0.6 as soon as one partner record has an id. *)
Theorem missing_ancestor_field_throws (localeCompare : string → string → Z)
    (version : Version) (cowRecord : PedigreeRecord)
    (bullRecordsArray : list PedigreeRecord) (v : Js.Val) :
  pairingId cowRecord ≠ None → bullRecordsArray ≠ [] →
  v ∈ childFields cowRecord → missingToken v →
  (∃ e, calculateBreedingInbreedingM localeCompare version (Some cowRecord)
          bullRecordsArray = Js.Throw e) ∧
  ((∃ bull, bull ∈ bullRecordsArray ∧ Js.truthy (ownId bull) = true) →
   ∃ e, V006Main.calculateBreedingInbreeding (Some cowRecord) bullRecordsArray
          = Js.Throw e).
Proof.
  intros Hown Hbulls Hv Htoken.
  assert (invalidInput (Some cowRecord) bullRecordsArray = false) as Hvalid.
  { unfold invalidInput. fold (ownId cowRecord). unfold pairingId in Hown.
    destruct (Js.truthy (ownId cowRecord)); [|done]. by destruct bullRecordsArray. }
  assert (∀ c : Js.Completion (list Pairing),
            ends c → (∀ rs, c ≠ Js.Normal rs) → ∃ e, c = Js.Throw e) as Hthrow.
  { intros [rs|e|] Hends Hnot; [by destruct (Hnot rs)|by eexists|done]. }
  split.
  - apply Hthrow; [apply calculateBreedingInbreedingM_ends|].
    intros rs Hcall.
    destruct (calculateBreedingInbreedingM_loads _ _ _ _ _ Hcall Hvalid)
      as (animalMap & Hload).
    assert (cowRecord ∈ cowRecord :: bullRecordsArray) as Hin
      by (apply elem_of_cons; by left).
    by destruct (loaders_missingToken version (cowRecord :: bullRecordsArray) cowRecord v
                   animalMap Hin Hown Hv Htoken) as [_ HM].
  - intros (bull & Hbull & Hid). apply Hthrow; [apply V006_calculateBreedingInbreeding_ends|].
    intros rs Hcall.
    destruct (V006_calculateBreedingInbreeding_pairings _ _ _ Hcall Hvalid)
      as (parts & Hparts).
    apply list_elem_of_lookup in Hbull as [i Hi].
    destruct (Forall2_lookup_l _ _ _ _ _ Hparts Hi) as (part & _ & Hpairing).
    destruct (V006_pairing_loads _ _ _ Hid Hpairing) as (animalMap & Hload).
    assert (cowRecord ∈ [cowRecord; bull]) as Hin by (apply elem_of_cons; by left).
    by destruct (loaders_missingToken version [cowRecord; bull] cowRecord v
                   animalMap Hin Hown Hv Htoken) as [H6 _].
Qed.

Lemma missing_ancestor_field_throws_witness :
  (∃ e, calculateBreedingInbreedingM codeUnitCompare v130 (Some cowNullFields)
          [bullPlain] = Js.Throw e) ∧
  ((∃ bull, bull ∈ [bullPlain] ∧ Js.truthy (ownId bull) = true) →
   ∃ e, V006Main.calculateBreedingInbreeding (Some cowNullFields) [bullPlain]
          = Js.Throw e).
Proof.
  apply (missing_ancestor_field_throws codeUnitCompare v130 cowNullFields [bullPlain]
           Js.Null).
  - by vm_compute.
  - done.
  - vm_compute. apply elem_of_cons. by left.
  - left. by vm_compute.
Defined.

(** ** The coefficient of a pair depends on the ancestors of the pair only *)

(** [AgreeFrom g g' r]: the two maps record the same parents for [r] and
    for every ancestor of [r] in [g]. *)
Definition AgreeFrom (g g' : Pedigree) (r : string) : Prop :=
  ∀ x, rtc (isParent g) r x →
       getParent1 g x = getParent1 g' x ∧ getParent2 g x = getParent2 g' x.

Lemma AgreeFrom_rtc g g' r y :
  AgreeFrom g g' r → rtc (isParent g) r y → AgreeFrom g g' y.
Proof. intros Hr Hy x Hx. apply Hr. by etrans. Qed.

Lemma AgreeFrom_isParent g g' r y :
  AgreeFrom g g' r → isParent g r y ↔ isParent g' r y.
Proof.
  intros Hr. destruct (Hr r) as [H1 H2]; [done|].
  unfold isParent. by rewrite H1, H2.
Qed.

Lemma AgreeFrom_reach g g' r x :
  AgreeFrom g g' r → rtc (isParent g) r x ↔ rtc (isParent g') r x.
Proof.
  intros Hr. split.
  - intros Hx. induction Hx as [r|r y x Hry Hyx IH]; [done|].
    eapply rtc_l; [by apply (AgreeFrom_isParent g g' r)|].
    apply IH. eapply AgreeFrom_rtc; [done|]. by apply rtc_once.
  - intros Hx. induction Hx as [r|r y x Hry Hyx IH]; [done|].
    apply (AgreeFrom_isParent g g' r) in Hry; [|done].
    eapply rtc_l; [done|].
    apply IH. eapply AgreeFrom_rtc; [done|]. by apply rtc_once.
Qed.

(** Two loops whose bodies coincide on the states of an invariant run
    alike. *)
Lemma while_agree {St Res} (body1 body2 : St → St + Res) (Inv : St → Prop) :
  (∀ s, Inv s → body1 s = body2 s) →
  (∀ s s', Inv s → body1 s = inl s' → Inv s') →
  ∀ n s, Inv s → while body1 n s = while body2 n s.
Proof.
  intros Hbody Hinv. induction n as [|n IH]; intros s Hs; cbn [while]; [by apply Hbody|].
  rewrite <-(IH s Hs).
  destruct (while body1 n s) as [s1|r1] eqn:H1; [|done].
  apply IH. by eapply (while_continue_inv body1 Inv Hinv).
Qed.

Lemma processSome_stack parent target path st e :
  e ∈ stack (processSome parent target path st) →
  e ∈ stack st ∨ parent = Some e.1.
Proof.
  destruct parent as [y|]; cbn [processSome]; [|by left].
  destruct (processParentForDFS_cases target y path st)
    as [(_ & -> & _)|[(_ & _ & -> & _)|(_ & _ & ->)]]; [by left| |by left].
  intros [->|?]%elem_of_cons; [by right|by left].
Qed.

(** The search for the paths from [start] reads the parents of [start] and
    of its ancestors only. *)
Lemma findPathsToAncestorDFS_agree g g' start target :
  AgreeFrom g g' start →
  findPathsToAncestorDFS g start target = findPathsToAncestorDFS g' start target.
Proof.
  intros Hagree.
  destruct (findPathsToAncestorDFS_spec g start target) as (ps & Hps & _).
  destruct (findPathsToAncestorDFS_spec g' start target) as (ps' & Hps' & _).
  rewrite Hps, Hps'. revert Hps Hps'. unfold findPathsToAncestorDFS.
  destruct (equals start target); [congruence|].
  set (st0 := mkDfs [(start, [start])] []).
  intros H1 H2.
  apply (runWhile_more_fuel _ _ (loopFuel g `max` loopFuel g')) in H1; [|lia].
  apply (runWhile_more_fuel _ _ (loopFuel g `max` loopFuel g')) in H2; [|lia].
  rewrite <-H1, <-H2. unfold runWhile.
  rewrite (while_agree (dfsBody g target) (dfsBody g' target)
             (λ st, ∀ e, e ∈ stack st → rtc (isParent g) start e.1)); [done| | |].
  - intros st Hst. unfold dfsBody.
    destruct (stack st) as [|[node path] rest]; [done|].
    destruct (Hagree node) as [-> ->]; [|done].
    apply (Hst (node, path)), elem_of_cons. by left.
  - intros st st' Hst. unfold dfsBody.
    destruct (stack st) as [|[node path] rest]; [done|].
    intros [= <-] e He.
    assert (rtc (isParent g) start node) as Hnode.
    { apply (Hst (node, path)), elem_of_cons. by left. }
    apply processSome_stack in He as [He|He].
    + apply processSome_stack in He as [He|He].
      * apply Hst, elem_of_cons. by right.
      * eapply rtc_r; [done|]. by left.
    + eapply rtc_r; [done|]. by right.
  - intros e [->|[]%elem_of_nil]%elem_of_cons. done.
Qed.

Lemma findPathsToAncestor_agree g g' start target :
  AgreeFrom g g' start →
  findPathsToAncestor g (Some start) target = findPathsToAncestor g' (Some start) target.
Proof.
  intros Hagree. destruct target as [t|]; [|done].
  by apply findPathsToAncestorDFS_agree.
Qed.

(** A deeper recursion bound does not change a result. *)
Lemma inbreedingR_more_fuel version g (n m : nat) guard animal f :
  n ≤ m → inbreedingR version n g guard animal = Some f →
  inbreedingR version m g guard animal = Some f.
Proof.
  revert m guard animal f.
  induction n as [|n IH]; intros m guard [a|] f Hle; cbn [inbreedingR].
  - case_decide; [|done]. intros [= <-].
    destruct m; cbn [inbreedingR]; by case_decide.
  - intros [= <-]. by destruct m.
  - destruct m as [|m]; [lia|]. cbn [inbreedingR]. case_decide; [done|].
    destruct (getParent1 g a) as [p1|]; [|done].
    destruct (getParent2 g a) as [p2|]; [|done].
    intros Hf. eapply offspringWithR_mono; [done|].
    intros x fx _ _. apply IH. lia.
  - intros [= <-]. by destruct m.
Qed.

Lemma offspringWithR_agree version F F' g g' p1 p2 f :
  AgreeFrom g g' p1 → AgreeFrom g g' p2 →
  offspringWithR version F g (Some p1) (Some p2) = Some f →
  (∀ x fx, rtc (isParent g) p1 x → rtc (isParent g) p2 x →
           F (Some x) = Some fx → F' (Some x) = Some fx) →
  offspringWithR version F' g' (Some p1) (Some p2) = Some f.
Proof.
  intros Hp1 Hp2. rewrite !offspringWithR_sum.
  destruct (commonAncestorsR_spec version g p1 p2) as (l & -> & Hnd & Hin).
  destruct (commonAncestorsR_spec version g' p1 p2) as (l' & -> & Hnd' & Hin').
  cbn [mbind option_bind]. intros Hs HF.
  assert (l' ≡ₚ l) as Hperm.
  { apply NoDup_Permutation; [done..|]. intros x.
    by rewrite Hin, Hin', (AgreeFrom_reach g g' p1), (AgreeFrom_reach g g' p2). }
  rewrite (sumOpt_Permutation _ (termR version F' g' p1 p2 <$> l))
    by by apply fmap_Permutation.
  rewrite <-Hs. f_equal.
  apply list_fmap_ext. intros _ x Hx%list_elem_of_lookup_2.
  destruct (sumOpt_Some _ _ _ Hs) as (h & Hh & _).
  destruct (termR_Some _ _ _ _ _ _ _ (Hh x Hx)) as (fx & ? & ? & Hfx & _).
  apply Hin in Hx as [??]. unfold termR.
  rewrite Hfx, (HF x fx) by done.
  by rewrite <-!(findPathsToAncestor_agree g g').
Qed.

Lemma inbreedingR_agree version n g g' guard a f :
  AgreeFrom g g' a →
  inbreedingR version n g guard (Some a) = Some f →
  inbreedingR version n g' guard (Some a) = Some f.
Proof.
  revert guard a f. induction n as [|n IH]; intros guard a f Ha; cbn [inbreedingR];
    case_decide; try done.
  destruct (Ha a) as [<- <-]; [done|].
  destruct (getParent1 g a) as [p1|] eqn:H1; [|done].
  destruct (getParent2 g a) as [p2|] eqn:H2; [|done].
  assert (AgreeFrom g g' p1) as Hp1.
  { apply (AgreeFrom_rtc g g' a); [done|]. apply rtc_once. by left. }
  assert (AgreeFrom g g' p2) as Hp2.
  { apply (AgreeFrom_rtc g g' a); [done|]. apply rtc_once. by right. }
  intros Hf. apply (offspringWithR_agree _ _ _ _ _ _ _ _ Hp1 Hp2 Hf).
  intros x fx Hx _. apply IH. by apply (AgreeFrom_rtc g g' p1).
Qed.

Lemma offspringR_agree version g g' a b :
  AgreeFrom g g' a → AgreeFrom g g' b →
  offspringR version (depthFuel g) g ∅ (Some a) (Some b)
  = offspringR version (depthFuel g') g' ∅ (Some a) (Some b).
Proof.
  intros Ha Hb.
  destruct (offspringR_is_Some version g ∅ (Some a) (Some b)) as [f Hf].
  rewrite Hf. symmetry. revert Hf. unfold offspringR.
  intros Hf. apply (offspringWithR_agree _ _ _ _ _ _ _ _ Ha Hb Hf).
  intros x fx Hx _ Hfx.
  apply (inbreedingR_agree _ _ g g') in Hfx; [|by apply (AgreeFrom_rtc g g' a)].
  destruct (inbreedingR_is_Some version g' (depthFuel g') ∅ (Some x)) as [fx' Hfx'].
  { unfold depthFuel. apply Nat.lt_succ_r, subseteq_size. set_solver. }
  rewrite Hfx'. f_equal.
  apply (inbreedingR_more_fuel _ _ _ (depthFuel g `max` depthFuel g')) in Hfx; [|lia].
  apply (inbreedingR_more_fuel _ _ _ (depthFuel g `max` depthFuel g')) in Hfx'; [|lia].
  congruence.
Qed.

(** X25.  [calculateOffspringInbreeding] of version 0.0.6 reads nothing
    but the parents of the two animals and of their ancestors: on two maps
    that record the same dam and sire for each of these, the pair has the
    same coefficient, whatever else the maps hold. *)
Theorem coefficient_of_ancestors_only (g g' : Pedigree) (a b : string) :
  (∀ x, rtc (isParent g) a x ∨ rtc (isParent g) b x →
        getParent1 g x = getParent1 g' x ∧ getParent2 g x = getParent2 g' x) →
  V006.calculateOffspringInbreeding g (Some a) (Some b)
  = V006.calculateOffspringInbreeding g' (Some a) (Some b).
Proof.
  intros Hagree. rewrite !V006_calculateOffspringInbreeding.
  apply offspringR_agree; intros x Hx; apply Hagree; [by left|by right].
Qed.

Lemma AgreeFrom_check g g' a :
  forallb (λ x, bool_decide (getParent1 g x = getParent1 g' x
                             ∧ getParent2 g x = getParent2 g' x))
          (closureOf g a) = true →
  AgreeFrom g g' a.
Proof.
  rewrite forallb_forall. intros H x Hx%closureOf_spec.
  apply list_elem_of_In, H in Hx. by apply bool_decide_eq_true in Hx.
Qed.

Lemma coefficient_of_ancestors_only_witness :
  V006.calculateOffspringInbreeding siblings (Some "A") (Some "B")
  = V006.calculateOffspringInbreeding siblingsChild (Some "A") (Some "B").
Proof.
  apply (coefficient_of_ancestors_only siblings siblingsChild "A" "B").
  intros x [Hx|Hx]; revert x Hx.
  - apply (AgreeFrom_check siblings siblingsChild "A"). vm_compute. reflexivity.
  - apply (AgreeFrom_check siblings siblingsChild "B"). vm_compute. reflexivity.
Defined.
